(** * Workspace Session Gateway: a shallow embedding of the TypeScript sources

    The development follows the repository file by file:

    - [TerminalManager]   init-service/src (pty.ts): the PTY session table;
    - [Gateway]           init-service/src (index.ts, fs.ts, aws.ts): the
                          [updateContent] / [fetchContent] socket handlers;
    - [Aws]               init-service/src/aws.ts: [copyS3Folder];
    - [CodingPage]        src/components/CodingPage.tsx: the client-side merge
                          of directory listings;
    - [FileManager]       frontend/.../utils/file-manager.tsx: [buildFileTree]
                          and [findFileByName];
    - [Protocol]          fs.ts, index.ts, CodingPage.tsx: the listings that reach
                          the client;
    - [TreeShape]         file-manager.tsx: the shape of the tree returned;
    - [Editor]            Editor.tsx: the default selection;
    - [FileTree]          file-manager.tsx: [isChildSelected];
    - [Ws]                index.ts: connections, terminals and their events;
    - [Template]          aws.ts, index.ts: what a provisioning run writes;
    - [Restore]           the workspace's aws.ts: [fetchS3Folder] and the
                          [copyS3Folder] without a ceiling;
    - [Edits]             index.ts: sessions of [updateContent] events;
    - [Landing]           components/file-tree.tsx: [getRandomSlug];
    - [Presentation]      icon.tsx, file-manager.tsx, the code editor: icons and
                          highlighting.

    JavaScript strings are modelled by [string]; objects used as dictionaries
    by [gmap string _]; promises by an explicit state-and-exception monad. *)

From Stdlib Require Import Ascii.
From stdpp Require Import gmap strings list pretty.
From Equations Require Import Equations.

(** ** PTY session manager (class [TerminalManager]) *)

Module TerminalManager.

(** [IPty.pid] *)
Definition pid := N.

(** The value stored under a session key:
    [{ terminal: IPty, replId: string }].  The terminal object is
    identified by the pid of the process behind it. *)
Record Session := mkSession { terminal : pid; replId : string }.

(** The manager together with the part of the operating system it touches.
    - [sessions] is the field [this.sessions]; its keys are socket.io
      connection ids (never a member name of [Object.prototype]), so property
      lookup is lookup of an own property, i.e. lookup in a finite map;
    - [live] is the set of shell processes that were forked and have neither
      been killed nor exited;
    - [stdin] is what [terminal.write] has delivered to the processes,
      most recent first;
    - [emitted] is the calls [onData(data, term.pid)] made so far, i.e. the
      output events, most recent first. *)
Record State := mkState {
  sessions : gmap string Session;
  live : gset pid;
  stdin : list (pid * string);
  emitted : list (pid * string)
}.

(** [constructor() { this.sessions = {} }] *)
Definition new : State :=
  {| sessions := ∅; live := ∅; stdin := []; emitted := [] |}.

(** The key JavaScript uses for [this.sessions[term.pid]]: the decimal
    rendering of the number. *)
Definition pid_key (p : pid) : string := pretty p.

(** [fork(SHELL, [], ...)]: a new shell process; the operating system
    chooses its pid [p]. *)
Definition fork (p : pid) (st : State) : State :=
  {| sessions := sessions st; live := {[p]} ∪ live st;
     stdin := stdin st; emitted := emitted st |}.

(** [createPty(id, replId, onData)]: fork, then [this.sessions[id] = ...].
    Nothing is done about a session already stored under [id]. *)
Definition createPty (id replId : string) (p : pid) (st : State) : State :=
  let st1 := fork p st in
  {| sessions := <[id := mkSession p replId]> (sessions st1);
     live := live st1;
     stdin := stdin st1;
     emitted := emitted st1 |}.

(** The listener registered by [createPty] with [term.on('data', ...)]:
    [onData(data, term.pid)], run when the shell [p] produces [data]. *)
Definition on_data (p : pid) (data : string) (st : State) : State :=
  {| sessions := sessions st; live := live st;
     stdin := stdin st; emitted := (p, data) :: emitted st |}.

(** The listener registered by [createPty] with [term.on('exit', ...)]:
    [delete this.sessions[term.pid]]. *)
Definition exit_handler (p : pid) (st : State) : State :=
  {| sessions := delete (pid_key p) (sessions st);
     live := live st;
     stdin := stdin st;
     emitted := emitted st |}.

(** [terminal.kill()]: the process is gone; its exit event follows as a
    transition of its own. *)
Definition kill (p : pid) (st : State) : State :=
  {| sessions := sessions st; live := live st ∖ {[p]};
     stdin := stdin st; emitted := emitted st |}.

(** The shell process [p] exits: it is no longer live and its exit listener
    runs. *)
Definition on_exit (p : pid) (st : State) : State :=
  exit_handler p (kill p st).

(** [write(terminalId, data)]:
    [this.sessions[terminalId]?.terminal.write(data)] *)
Definition write (terminalId data : string) (st : State) : State :=
  match sessions st !! terminalId with
  | Some s =>
      {| sessions := sessions st; live := live st;
         stdin := (terminal s, data) :: stdin st; emitted := emitted st |}
  | None => st
  end.

(** [clear(terminalId)]:
    [this.sessions[terminalId]?.terminal.kill(); delete this.sessions[terminalId]] *)
Definition clear (terminalId : string) (st : State) : State :=
  let st1 :=
    match sessions st !! terminalId with
    | Some s => kill (terminal s) st
    | None => st
    end in
  {| sessions := delete terminalId (sessions st1);
     live := live st1;
     stdin := stdin st1;
     emitted := emitted st1 |}.

(** A live process that no session refers to. *)
Definition orphan (p : pid) (st : State) : Prop :=
  p ∈ live st ∧ ∀ k s, sessions st !! k = Some s → terminal s ≠ p.

(** The live processes that the table maps [k] to. *)
Definition live_under (k : string) (st : State) : list pid :=
  match sessions st !! k with
  | Some s => if decide (terminal s ∈ live st) then [terminal s] else []
  | None => []
  end.

End TerminalManager.

(** ** Promises and exceptions

    An [async] function is modelled as a computation over the state of the
    outside world that either completes normally or abruptly with a thrown
    value (a rejected promise); [await] is sequencing. *)

Module Js.

(** A thrown value: an [Error] object with its [message], or anything
    else. *)
Inductive Thrown :=
| JsError (message : string)
| NonError (v : string).

Inductive Completion (A : Type) :=
| Normal (a : A)
| Abrupt (e : Thrown).
Arguments Normal {A} a.
Arguments Abrupt {A} e.

Definition M (W A : Type) : Type := W → Completion A * W.

Definition ret {W A} (a : A) : M W A := fun w => (Normal a, w).

Definition throw {W A} (e : Thrown) : M W A := fun w => (Abrupt e, w).

Definition bind {W A B} (c : M W A) (k : A → M W B) : M W B := fun w =>
  match c w with
  | (Normal a, w1) => k a w1
  | (Abrupt e, w1) => (Abrupt e, w1)
  end.

(** [try { c } catch (error) { h error }] *)
Definition try_catch {W A} (c : M W A) (h : Thrown → M W A) : M W A := fun w =>
  match c w with
  | (Normal a, w1) => (Normal a, w1)
  | (Abrupt e, w1) => h e w1
  end.

#[global] Instance M_ret {W} : MRet (M W) := @ret W.
#[global] Instance M_bind {W} : MBind (M W) := fun A B k c => bind c k.

Definition is_normal {A} (c : Completion A) : bool :=
  match c with Normal _ => true | Abrupt _ => false end.

End Js.

(** ** The socket handlers for file content (index.ts, fs.ts, aws.ts) *)

Module Gateway.
Import Js.

(** Requests that leave the process, in the order they are issued. *)
Inductive Effect :=
| FsWrite (file content : string)
| FsRead (file : string)
| S3Put (key body : string).

(** The world a connection handler runs in. A request to the file system or
    to the store is taken to act as a whole at the moment it is issued, so a
    listener is a sequence of such steps, one per [await].
    - [disk]: the local mirror, path to content;
    - [bucket]: the durable store, key to body;
    - [console]: lines printed with [console.log] / [console.error];
    - [trace]: the requests issued so far, oldest first;
    - [fs_fault], [s3_fault]: when set, the value with which the file
      system (on writes) or the store rejects a request. *)
Record World := mkWorld {
  disk : gmap string string;
  bucket : gmap string string;
  console : list string;
  trace : list Effect;
  fs_fault : option Thrown;
  s3_fault : option Thrown
}.

Definition record (e : Effect) (w : World) : World :=
  mkWorld (disk w) (bucket w) (console w) (trace w ++ [e]) (fs_fault w) (s3_fault w).

Definition set_disk (d : gmap string string) (w : World) : World :=
  mkWorld d (bucket w) (console w) (trace w) (fs_fault w) (s3_fault w).

Definition set_bucket (b : gmap string string) (w : World) : World :=
  mkWorld (disk w) b (console w) (trace w) (fs_fault w) (s3_fault w).

(** fs.ts, [fetchFileContent]: [fs.readFile(file, "utf8", ...)], rejecting
    with the error when the read fails. *)
Definition fetchFileContent (file : string) : M World string := fun w =>
  let w1 := record (FsRead file) w in
  match disk w !! file with
  | Some data => (Normal data, w1)
  | None =>
      (Abrupt (JsError ("ENOENT: no such file or directory, open '" +:+ file +:+ "'")), w1)
  end.

(** fs.ts, [saveFile]: [fs.writeFile(file, content, "utf8", ...)]. *)
Definition saveFile (file content : string) : M World unit := fun w =>
  let w1 := record (FsWrite file content) w in
  match fs_fault w with
  | Some err => (Abrupt err, w1)
  | None => (Normal (), set_disk (<[file := content]> (disk w1)) w1)
  end.

(** aws.ts, [saveToS3]:
    [await s3.putObject({ Bucket, Key: `${key}${filePath}`, Body: content }).promise()] *)
Definition saveToS3 (key filePath content : string) : M World unit := fun w =>
  let w1 := record (S3Put (key +:+ filePath) content) w in
  match s3_fault w with
  | Some err => (Abrupt err, w1)
  | None => (Normal (), set_bucket (<[key +:+ filePath := content]> (bucket w1)) w1)
  end.

(** index.ts, the listener for ["fetchContent"]; the result is what is
    passed to [callback]. *)
Definition fetchContent (filePath : string) : M World string :=
  let fullPath := "/workspace/" +:+ filePath in
  fetchFileContent fullPath.

(** index.ts, the listener for ["updateContent"], up to the point where
    [await saveFile(...)] has resumed. *)
Definition updateContent_local (filePath content : string) : M World unit :=
  let fullPath := "/workspace/" +:+ filePath in
  saveFile fullPath content.

(** index.ts, the listener for ["updateContent"]:
    [await saveFile(fullPath, content); await saveToS3(`code/${replId}`, filePath, content)] *)
Definition updateContent (replId filePath content : string) : M World unit :=
  _ ← updateContent_local filePath content;
  saveToS3 ("code/" +:+ replId) filePath content.

(** What becomes of the promise an [async] listener returns: socket.io
    drops it, so a rejection has no handler. *)
Inductive Dispatched :=
| Settled
| UnhandledRejection (e : Thrown).

Definition dispatch {A} (listener : M World A) (w : World) : Dispatched * World :=
  match listener w with
  | (Normal _, w1) => (Settled, w1)
  | (Abrupt e, w1) => (UnhandledRejection e, w1)
  end.

End Gateway.


(** ** JavaScript string and array methods used by the sources *)

Module JsString.

(** [s.startsWith(p)] *)
Fixpoint startsWith (s p : string) : bool :=
  match p, s with
  | EmptyString, _ => true
  | String _ _, EmptyString => false
  | String a p', String b s' => if decide (a = b) then startsWith s' p' else false
  end.

Fixpoint take (n : nat) (s : string) : string :=
  match n, s with
  | S n', String c s' => String c (take n' s')
  | _, _ => EmptyString
  end.

Fixpoint drop (n : nat) (s : string) : string :=
  match n, s with
  | S n', String _ s' => drop n' s'
  | _, _ => s
  end.

(** [s.indexOf(p)], with [None] for -1. *)
Fixpoint indexOf (s p : string) : option nat :=
  if startsWith s p then Some 0
  else match s with
       | EmptyString => None
       | String _ s' => S <$> indexOf s' p
       end.

(** ECMAScript's GetSubstitution for a string (not regular expression)
    pattern: in the replacement text, [$$] stands for a dollar sign, [$&] for
    the matched text, [$`] for the text before the match and [$'] for the
    text after it; every other character, and a dollar sign followed by
    anything else, stands for itself. *)
Fixpoint GetSubstitution (matched before after template : string) : string :=
  match template with
  | EmptyString => EmptyString
  | String c rest =>
      if decide (c = "$"%char) then
        match rest with
        | EmptyString => String c EmptyString
        | String d rest' =>
            if decide (d = "$"%char) then
              String "$" (GetSubstitution matched before after rest')
            else if decide (d = "&"%char) then
              matched +:+ GetSubstitution matched before after rest'
            else if decide (d = "`"%char) then
              before +:+ GetSubstitution matched before after rest'
            else if decide (d = "'"%char) then
              after +:+ GetSubstitution matched before after rest'
            else String c (GetSubstitution matched before after rest)
        end
      else String c (GetSubstitution matched before after rest)
  end.

(** [str.replace(searchValue, replaceValue)] with both arguments strings:
    only the first occurrence is replaced. *)
Definition replace (str searchValue replaceValue : string) : string :=
  match indexOf str searchValue with
  | None => str
  | Some pos =>
      let before := take pos str in
      let after := drop (pos + String.length searchValue) str in
      before +:+ GetSubstitution searchValue before after replaceValue +:+ after
  end.

(** [s.split(sep)] for a one-character separator. *)
Fixpoint split (sep : ascii) (s : string) : list string :=
  match s with
  | EmptyString => [EmptyString]
  | String c s' =>
      if decide (c = sep) then EmptyString :: split sep s'
      else match split sep s' with
           | seg :: segs => String c seg :: segs
           | [] => [String c EmptyString]
           end
  end.

(** [a.join(sep)] *)
Fixpoint join (sep : string) (a : list string) : string :=
  match a with
  | [] => EmptyString
  | [x] => x
  | x :: a' => x +:+ sep +:+ join sep a'
  end.

(** [a.slice(0, -1)] *)
Definition slice_0_m1 {A} (a : list A) : list A := list.take (length a - 1) a.

(** The number of slashes in a string. *)
Fixpoint slashes (s : string) : nat :=
  match s with
  | EmptyString => 0
  | String c s' => if decide (c = "/"%char) then S (slashes s') else slashes s'
  end.

(** A string is falsy exactly when it is empty. *)
Definition truthy (s : string) : bool :=
  match s with EmptyString => false | String _ _ => true end.

End JsString.


(** ** Template provisioning in the durable store (aws.ts) *)

Module Aws.
Import Js JsString.

(** An element of [listedObjects.Contents]; the SDK types [Key] as optional. *)
Record Object := mkObject { Key : option string }.

(** The fields of a [listObjectsV2] reply that the code reads. *)
Record ListObjectsV2Output := mkListing {
  Contents : option (list Object);
  IsTruncated : bool;
  NextContinuationToken : option string
}.

(** Requests sent to the store, oldest first. *)
Inductive Request :=
| ListObjectsV2 (bucket prefix : string) (token : option string)
| CopyObject (bucket copySource key : string).

(** Arguments of a [console] call. *)
Inductive Printed :=
| Text (s : string)
| Value (e : Thrown)
| ListParams (bucket prefix : string) (token : option string).

Inductive Line :=
| Log (args : list Printed)
| Error (args : list Printed).

(** The object store behind the SDK client [s3], an external collaborator:
    [list_reply] is its answer to a [listObjectsV2] request given the stored
    objects, the prefix and the continuation token; [copy_fault] is the value
    with which it rejects the copy of one key onto another, when it does. *)
Record Service := mkService {
  list_reply : gmap string string → string → option string → Completion ListObjectsV2Output;
  copy_fault : string → string → option Thrown
}.

(** - [objects]: the bucket, key to body;
    - [console]: what was printed, oldest first;
    - [requests]: what was asked of the store, oldest first. *)
Record World := mkWorld {
  objects : gmap string string;
  console : list Line;
  requests : list Request
}.

Definition print (l : Line) : M World unit := fun w =>
  (Normal (), mkWorld (objects w) (console w ++ [l]) (requests w)).

Definition request (r : Request) (w : World) : World :=
  mkWorld (objects w) (console w) (requests w ++ [r]).

Definition set_objects (o : gmap string string) (w : World) : World :=
  mkWorld o (console w) (requests w).

(** [const maxConcurrency = 10] *)
Definition maxConcurrency : nat := 10.

(** [a.slice(i, j)] for [0 <= i <= j] *)
Definition slice {A} (i j : nat) (a : list A) : list A :=
  list.take (j - i) (list.drop i a).

(** [error.message || fallback]: the message of an [Error] unless it is
    empty; a value without a message gives the fallback. *)
Definition message_or (e : Thrown) (fallback : string) : string :=
  match e with
  | JsError m => if truthy m then m else fallback
  | NonError _ => fallback
  end.

(** The [for] loop that cuts [listedObjects.Contents] into chunks:
    [for (let i = 0; i < length; i += maxConcurrency) chunks.push(slice(i, i + maxConcurrency))],
    as the list of chunks pushed from index [i] on. *)
Equations? chunks_from {A} (i : nat) (contents : list A) : list (list A)
  by wf (length contents - i) lt :=
chunks_from i contents with decide (i < length contents) => {
  | left _ := slice i (i + maxConcurrency) contents
                :: chunks_from (i + maxConcurrency) contents;
  | right _ := [] }.
Proof. unfold maxConcurrency. lia. Qed.

(** The value of an environment variable when it is truthy. *)
Definition defined (v : option string) : option string :=
  match v with
  | Some s => if truthy s then Some s else None
  | None => None
  end.

Section with_store.

(** [process.env.S3_BUCKET] *)
Variable S3_BUCKET : option string.

Variable s3 : Service.

(** [s3.listObjectsV2(listParams).promise()] *)
Definition listObjectsV2 (bucket prefix : string) (token : option string)
  : M World ListObjectsV2Output := fun w =>
  (list_reply s3 (objects w) prefix token, request (ListObjectsV2 bucket prefix token) w).

(** [s3.copyObject({ Bucket, CopySource: `${bucket}/${key}`, Key: destinationKey }).promise()] *)
Definition copyObject (bucket key destinationKey : string) : M World unit := fun w =>
  let w1 := request (CopyObject bucket (bucket +:+ "/" +:+ key) destinationKey) w in
  match copy_fault s3 key destinationKey with
  | Some err => (Abrupt err, w1)
  | None =>
      match objects w !! key with
      | Some body => (Normal (), set_objects (<[destinationKey := body]> (objects w1)) w1)
      | None => (Abrupt (JsError "NoSuchKey: The specified key does not exist."), w1)
      end
  end.

(** The callback given to [chunk.map]. *)
Definition copy_one (bucket sourcePrefix destinationPrefix : string) (object : Object)
  : M World unit :=
  match Key object with
  | None => mret ()
  | Some key =>
      if negb (truthy key) then mret ()
      else
        let destinationKey := replace key sourcePrefix destinationPrefix in
        _ ← copyObject bucket key destinationKey;
        print (Log [Text ("Copied " +:+ key +:+ " to " +:+ destinationKey)])
  end.

(** [Promise.all(promises)]: every promise of the list runs to its end; the
    result is rejected when one of them is.  The promises are taken to settle
    in list order, so the rejection reported is that of the first in the
    list. *)
Fixpoint promise_all (promises : list (M World unit)) : M World unit := fun w =>
  match promises with
  | [] => (Normal (), w)
  | p :: rest =>
      match p w with
      | (Normal _, w1) => promise_all rest w1
      | (Abrupt e, w1) => (Abrupt e, snd (promise_all rest w1))
      end
  end.

(** [for (const chunk of chunks) { await Promise.all(chunk.map(...)) }] *)
Fixpoint for_chunks (bucket sourcePrefix destinationPrefix : string)
    (chunks : list (list Object)) : M World unit :=
  match chunks with
  | [] => mret ()
  | chunk :: rest =>
      _ ← promise_all (map (copy_one bucket sourcePrefix destinationPrefix) chunk);
      for_chunks bucket sourcePrefix destinationPrefix rest
  end.

(** The [catch] block of [copyS3Folder]. *)
Definition rethrow (error : Thrown) : M World unit :=
  match error with
  | JsError message =>
      _ ← print (Error [Text "Error copying folder:"; Text message]);
      throw (JsError ("Failed to copy folder: " +:+ message))
  | NonError _ =>
      _ ← print (Error [Text "Unknown error copying folder:"; Value error]);
      throw (JsError "Failed to copy folder due to an unknown error.")
  end.

(** The [.catch] attached to the listing request. *)
Definition list_failed (error : Thrown) : M World ListObjectsV2Output :=
  _ ← print (Error [Text "Error listing objects in S3:";
                    match error with
                    | JsError m => if truthy m then Text m else Value error
                    | NonError _ => Value error
                    end]);
  throw (JsError ("Failed to list objects in S3 bucket: " +:+ message_or error "Unknown error")).

(** [copyS3Folder(sourcePrefix, destinationPrefix, continuationToken, depth = 0, maxDepth = 10)] *)
Equations? copyS3Folder (sourcePrefix destinationPrefix : string)
    (continuationToken : option string) (depth maxDepth : nat) : M World unit
  by wf (S maxDepth - depth) lt :=
copyS3Folder sourcePrefix destinationPrefix continuationToken depth maxDepth
  with defined S3_BUCKET => {
  | None := throw (JsError "S3_BUCKET environment variable is not defined. Please ensure it is set in your environment configuration.");
  | Some bucket with decide (maxDepth < depth) => {
    | left _ := throw (JsError "Maximum recursion depth exceeded while copying S3 folder.");
    | right _ :=
        try_catch
          (listedObjects ← try_catch (listObjectsV2 bucket sourcePrefix continuationToken)
                                     list_failed;
           match Contents listedObjects with
           | None | Some [] =>
               print (Log [Text ("No files found in source folder: " +:+ sourcePrefix
                                 +:+ ". List parameters:");
                           ListParams bucket sourcePrefix continuationToken])
           | Some contents =>
               _ ← for_chunks bucket sourcePrefix destinationPrefix (chunks_from 0 contents);
               if IsTruncated listedObjects then
                 copyS3Folder sourcePrefix destinationPrefix
                   (NextContinuationToken listedObjects) (depth + 1) maxDepth
               else mret ()
           end)
          rethrow } }.
Proof. lia. Qed.

End with_store.

(** index.ts, [projectHandler]: the status code and body sent for
    [POST /project] with body [{ replId, language }]. *)
Definition projectHandler (S3_BUCKET : option string) (s3 : Service)
    (replId language : option string) : World → (nat * string) * World := fun w =>
  match defined replId, defined language with
  | Some replId, Some language =>
      match copyS3Folder S3_BUCKET s3 ("base/" +:+ language) ("code/" +:+ replId) None 0 10 w with
      | (Normal _, w1) => ((200, "Project created successfully"), w1)
      | (Abrupt error, w1) =>
          ((500, "Failed to create project. Please check the logs."),
           mkWorld (objects w1)
                   (console w1 ++ [Error [Text "Error creating project:"; Value error]])
                   (requests w1))
      end
  | _, _ => ((400, "Bad request: Missing replId or language"), w)
  end.

(** *** Two stores to run the code against *)

(** A store that lists the keys under the prefix a page at a time and uses
    the last key of a page as the continuation token. *)
Definition keys_under (o : gmap string string) (prefix : string) : list string :=
  (map_to_list (filter (λ kv, startsWith kv.1 prefix = true) o)).*1.

Fixpoint after_key (token : string) (keys : list string) : list string :=
  match keys with
  | [] => []
  | k :: rest => if decide (k = token) then rest else after_key token rest
  end.

Definition paged_reply (pageSize : nat) (o : gmap string string) (prefix : string)
    (token : option string) : Completion ListObjectsV2Output :=
  let keys := keys_under o prefix in
  let pending := match token with Some t => after_key t keys | None => keys end in
  let page := list.take pageSize pending in
  Normal {| Contents := Some (map (λ k, mkObject (Some k)) page);
            IsTruncated := bool_decide (pageSize < length pending);
            NextContinuationToken := last page |}.

Definition paged_store (pageSize : nat) : Service :=
  {| list_reply := paged_reply pageSize; copy_fault := λ _ _, None |}.

(** A store whose listing never ends: every page holds the one key and
    announces a next page. *)
Definition endless_store (key : string) : Service :=
  {| list_reply := λ _ _ _,
       Normal {| Contents := Some [mkObject (Some key)];
                 IsTruncated := true;
                 NextContinuationToken := Some "more" |};
     copy_fault := λ _ _, None |}.

(** The number of listing requests among [rs]. *)
Definition is_listing (r : Request) : bool :=
  match r with ListObjectsV2 _ _ _ => true | CopyObject _ _ _ => false end.

Definition listings (rs : list Request) : nat := length (List.filter is_listing rs).

(** *** Vocabulary for the statements about [copyS3Folder] *)

(** A computation that sends no listing request. *)
Definition quiet {A} (c : M World A) : Prop :=
  ∀ w, listings (requests (c w).2) = listings (requests w).

(** A computation that sends at most [n] listing requests. *)
Definition spends {A} (n : nat) (c : M World A) : Prop :=
  ∀ w, listings (requests (c w).2) ≤ listings (requests w) + n.

(** A computation that always ends with a thrown [Error]. *)
Definition fails {A} (c : M World A) : Prop :=
  ∀ w, ∃ message, (c w).1 = Abrupt (JsError message).

(** A reply after which [copyS3Folder] asks for no further page: it holds no
    object, or it announces no next page. *)
Definition final (out : ListObjectsV2Output) : Prop :=
  Contents out = None ∨ Contents out = Some [] ∨ IsTruncated out = false.

(** A listing that goes on for ever: whatever the objects and the token, the
    reply for [prefix] holds at least one object and announces a next page. *)
Definition endless (s3 : Service) (prefix : string) : Prop :=
  ∀ o token, ∃ object contents next,
    list_reply s3 o prefix token = Normal (mkListing (Some (object :: contents)) true next).

(** *** Vocabulary for the statements about running the copy twice *)

(** Writes to the bucket, oldest first. *)
Definition apply_writes (W : list (string * string)) (o : gmap string string)
  : gmap string string :=
  foldl (λ o kv, <[kv.1 := kv.2]> o) o W.

(** Two buckets with the same objects under a prefix. *)
Definition agree_under (prefix : string) (o o' : gmap string string) : Prop :=
  ∀ k, startsWith k prefix = true → o !! k = o' !! k.

(** Writes that all go outside a prefix. *)
Definition outside (prefix : string) (W : list (string * string)) : Prop :=
  Forall (λ kv, startsWith kv.1 prefix = false) W.

(** A computation that reads the bucket only under [prefix] and writes it
    only outside: on two buckets that agree under the prefix it ends the same
    way and makes the same writes. *)
Definition framed (prefix : string) {A} (c : M World A) : Prop :=
  ∀ w w', agree_under prefix (objects w) (objects w') →
    (c w).1 = (c w').1
    ∧ ∃ W, outside prefix W
           ∧ objects (c w).2 = apply_writes W (objects w)
           ∧ objects (c w').2 = apply_writes W (objects w').

(** The store lists only keys that start with the prefix asked for. *)
Definition sound_listing (s3 : Service) (prefix : string) : Prop :=
  ∀ o token out contents object key,
    list_reply s3 o prefix token = Normal out → Contents out = Some contents →
    object ∈ contents → Key object = Some key → startsWith key prefix = true.

(** The reply to a listing request depends only on the objects under the
    prefix. *)
Definition local_listing (s3 : Service) (prefix : string) : Prop :=
  ∀ o o' token, agree_under prefix o o' →
    list_reply s3 o prefix token = list_reply s3 o' prefix token.

(** A string without a dollar sign. *)
Fixpoint dollar_free (s : string) : bool :=
  match s with
  | EmptyString => true
  | String c s' => if decide (c = "$"%char) then false else dollar_free s'
  end.

(** Every key under [sourcePrefix] is renamed to a key outside it. *)
Definition lands_outside (sourcePrefix destinationPrefix : string) : Prop :=
  ∀ key, startsWith key sourcePrefix = true →
         startsWith (replace key sourcePrefix destinationPrefix) sourcePrefix = false.

(** The objects of a listing page all carry a key under [prefix]. *)
Definition keys_under_prefix (prefix : string) (contents : list Object) : Prop :=
  ∀ object key, object ∈ contents → Key object = Some key → startsWith key prefix = true.

(** A template of 25 objects, [base/node-js/f0] to [base/node-js/f24],
    beside an object of another template. *)
Definition node_js_template : World :=
  mkWorld
    (list_to_map
       (("base/python/main.py", "print(1)")
        :: map (λ i : nat, ("base/node-js/f" +:+ pretty i, "body" +:+ pretty i)) (seq 0 25)))
    [] [].

End Aws.


(** ** The editor's file tree (file-manager.tsx) *)

Module RemoteFile.

(** [type: "file" | "dir"] *)
Inductive kind := file | dir.

#[global] Instance kind_eq_dec : EqDecision kind.
Proof. solve_decision. Defined.

(** [interface RemoteFile] *)
Record t := mk { type : kind; name : string; path : string }.

#[global] Instance t_eq_dec : EqDecision t.
Proof. solve_decision. Defined.

End RemoteFile.

Module FileManager.
Import Js JsString.

(** [enum Type] *)
Inductive Type_ := FILE | DIRECTORY | DUMMY.

#[global] Instance Type_eq_dec : EqDecision Type_.
Proof. solve_decision. Defined.

(** [interface CommonProps]; [File] has exactly these fields. *)
Record CommonProps := mkProps {
  id : string;
  type : Type_;
  name : string;
  content : option string;
  path : string;
  parentId : option string;
  depth : nat
}.

#[global] Instance CommonProps_eq_dec : EqDecision CommonProps.
Proof. solve_decision. Defined.

Abbreviation File := CommonProps.

(** *** [findFileByName] on a finite tree

    [interface Directory extends CommonProps { files: File[]; dirs: Directory[] }] *)
#[warnings="-register-all"]
Inductive Directory :=
| mkDirectory (props : CommonProps) (files : list File) (dirs : list Directory).

Definition files (d : Directory) : list File :=
  match d with mkDirectory _ fs _ => fs end.

Definition dirs (d : Directory) : list Directory :=
  match d with mkDirectory _ _ ds => ds end.

(** The inner function [findFile]; the captured variable [targetFile] is
    threaded through. [return] inside the [forEach] callback only ends that
    call of the callback. *)
Fixpoint findFile (rootDir : Directory) (filename : string) (targetFile : option File)
  : option File :=
  match rootDir with
  | mkDirectory _ fs ds =>
      let targetFile :=
        foldl (λ targetFile file,
                 if decide (name file = filename) then Some file else targetFile)
              targetFile fs in
      foldl (λ targetFile dir, findFile dir filename targetFile) targetFile ds
  end.

(** [findFileByName(rootDir, filename)] *)
Definition findFileByName (rootDir : Directory) (filename : string) : option File :=
  findFile rootDir filename None.

(** The files of a tree in the order [findFile] visits them: the files of a
    directory in array order, then its subdirectories, each recursively. *)
Fixpoint traversal (d : Directory) : list File :=
  match d with
  | mkDirectory _ fs ds => fs ++ concat (map traversal ds)
  end.

(** The files named [filename], in traversal order. *)
Definition matches (rootDir : Directory) (filename : string) : list File :=
  filter (λ f, name f = filename) (traversal rootDir).

(** The value of [targetFile] after a stretch of the traversal: the last
    match of the stretch if it has one, the value from before otherwise. *)
Definition latest (targetFile : option File) (found : list File) : option File :=
  match last found with
  | Some f => Some f
  | None => targetFile
  end.

(** A file node directly under the root. *)
Definition file_named (n p : string) : File := mkProps p FILE n None p (Some "0") 1.

(** *** [buildFileTree]

    The objects it creates are shared between the cache and the [files] /
    [dirs] arrays, so they live in a heap: an array holds references. The
    root directory is not in the cache; every other object is referred to by
    its cache key. *)
Inductive Ref := RootRef | CacheRef (key : string).

#[global] Instance Ref_eq_dec : EqDecision Ref.
Proof. solve_decision. Defined.

Inductive Obj :=
| FileObj (props : CommonProps)
| DirObj (props : CommonProps) (files dirs : list Ref).

Definition props_of (o : Obj) : CommonProps :=
  match o with FileObj p => p | DirObj p _ _ => p end.

(** - [rootDir]: the object bound to [rootDir];
    - [objs], [order]: the [Map] [cache], as its key-value mapping and its
      keys in insertion order. *)
Record Heap := mkHeap {
  rootDir : Obj;
  objs : gmap string Obj;
  order : list string
}.

(** [cache.set(key, value)]: a key already present keeps its position. *)
Definition cache_set (key : string) (value : Obj) (h : Heap) : Heap :=
  mkHeap (rootDir h) (<[key := value]> (objs h))
         (if decide (key ∈ order h) then order h else order h ++ [key]).

(** [item.path.split("/").slice(0, -1).join("/")] *)
Definition parent_path (p : string) : string :=
  join "/" (slice_0_m1 (split "/" p)).

(** The [parentId] initialiser, the same for directories and files, as a
    function of [item.path]. *)
Definition parentId_for (dirs : list RemoteFile.t) (item_path : string) : option string :=
  if decide (length (split "/" item_path) = 2) then Some "0"
  else RemoteFile.path <$>
         List.find (λ x, bool_decide (RemoteFile.path x = parent_path item_path)) dirs.

(** The body of [dirs.forEach]. *)
Definition add_dir (dirs : list RemoteFile.t) (h : Heap) (item : RemoteFile.t) : Heap :=
  let dir :=
    DirObj {| id := RemoteFile.path item;
              name := RemoteFile.name item;
              path := RemoteFile.path item;
              parentId := parentId_for dirs (RemoteFile.path item);
              type := DIRECTORY;
              depth := 0;
              content := None |} [] [] in
  cache_set (id (props_of dir)) dir h.

(** The body of [files.forEach]. *)
Definition add_file (dirs : list RemoteFile.t) (h : Heap) (item : RemoteFile.t) : Heap :=
  let file :=
    FileObj {| id := RemoteFile.path item;
               name := RemoteFile.name item;
               path := RemoteFile.path item;
               parentId := parentId_for dirs (RemoteFile.path item);
               type := FILE;
               depth := 0;
               content := None |} in
  cache_set (id (props_of file)) file h.

(** [if (value.type === Type.DIRECTORY) parent.dirs.push(value) else parent.files.push(value)]
    where [parent] is an object: a [File] has neither array, and calling
    [push] on [undefined] is a [TypeError]. *)
Definition push_child (value : Obj) (r : Ref) (parent : Obj) : Completion Obj :=
  match parent with
  | DirObj p fs ds =>
      Normal (if decide (type (props_of value) = DIRECTORY)
              then DirObj p fs (ds ++ [r])
              else DirObj p (fs ++ [r]) ds)
  | FileObj _ =>
      Abrupt (JsError "TypeError: Cannot read properties of undefined (reading 'push')")
  end.

(** The body of [cache.forEach], for the value stored under [key]. *)
Definition link_one (h : Heap) (key : string) : Completion Heap :=
  match objs h !! key with
  | None => Normal h
  | Some value =>
      if decide (parentId (props_of value) = Some "0") then
        match push_child value (CacheRef key) (rootDir h) with
        | Normal root' => Normal (mkHeap root' (objs h) (order h))
        | Abrupt e => Abrupt e
        end
      else
        match parentId (props_of value) ≫= λ parent, (objs h !! parent) ≫= λ o, Some (parent, o) with
        | None =>
            Abrupt (JsError
              (if decide (type (props_of value) = DIRECTORY)
               then "TypeError: Cannot read properties of undefined (reading 'dirs')"
               else "TypeError: Cannot read properties of undefined (reading 'files')"))
        | Some (parent, parentDir) =>
            match push_child value (CacheRef key) parentDir with
            | Normal parentDir' =>
                Normal (mkHeap (rootDir h) (<[parent := parentDir']> (objs h)) (order h))
            | Abrupt e => Abrupt e
            end
        end
  end.

(** [cache.forEach(...)] over the keys still to visit. *)
Fixpoint link (keys : list string) (h : Heap) : Completion Heap :=
  match keys with
  | [] => Normal h
  | key :: rest =>
      match link_one h key with
      | Normal h1 => link rest h1
      | Abrupt e => Abrupt e
      end
  end.

Definition deref (r : Ref) (h : Heap) : option Obj :=
  match r with
  | RootRef => Some (rootDir h)
  | CacheRef key => objs h !! key
  end.

Definition with_depth (d : nat) (o : Obj) : Obj :=
  match o with
  | FileObj p =>
      FileObj (mkProps (id p) (type p) (name p) (content p) (path p) (parentId p) d)
  | DirObj p fs ds =>
      DirObj (mkProps (id p) (type p) (name p) (content p) (path p) (parentId p) d) fs ds
  end.

(** [r.depth = d] *)
Definition set_depth (r : Ref) (d : nat) (h : Heap) : Heap :=
  match r with
  | RootRef => mkHeap (with_depth d (rootDir h)) (objs h) (order h)
  | CacheRef key => mkHeap (rootDir h) (alter (with_depth d) key (objs h)) (order h)
  end.

Definition dirs_of (o : Obj) : list Ref :=
  match o with DirObj _ _ ds => ds | FileObj _ => [] end.

Definition files_of (o : Obj) : list Ref :=
  match o with DirObj _ fs _ => fs | FileObj _ => [] end.

(** [getDepth(rootDir, curDepth)]. The recursion follows references through
    the heap, so it is given a bound [fuel] on its nesting; [None] means the
    bound was reached. *)
Fixpoint getDepth (fuel : nat) (r : Ref) (curDepth : nat) (h : Heap) : option Heap :=
  match fuel with
  | 0 => None
  | S fuel' =>
      match deref r h with
      | None => Some h
      | Some o =>
          let h1 := foldl (λ h file, set_depth file (curDepth + 1) h) h (files_of o) in
          foldl (λ acc dir,
                   h ← acc;
                   getDepth fuel' dir (curDepth + 1) (set_depth dir (curDepth + 1) h))
                (Some h1) (dirs_of o)
      end
  end.

Inductive Outcome :=
| Returned (h : Heap)
| Threw (e : Thrown)
| OutOfFuel.

(** [data.filter(x => x.type === "dir")] and [data.filter(x => x.type === "file")] *)
Definition listed_dirs (data : list RemoteFile.t) : list RemoteFile.t :=
  List.filter (λ x, bool_decide (RemoteFile.type x = RemoteFile.dir)) data.

Definition listed_files (data : list RemoteFile.t) : list RemoteFile.t :=
  List.filter (λ x, bool_decide (RemoteFile.type x = RemoteFile.file)) data.

(** [buildFileTree(data)] up to the end of the two loops that fill the
    cache. *)
Definition cached (data : list RemoteFile.t) : Heap :=
  let dirs := listed_dirs data in
  let files := listed_files data in
  let rootDir :=
    DirObj {| id := "root"; name := "root"; parentId := None; type := DIRECTORY;
              path := ""; depth := 0; content := None |} [] [] in
  let h := mkHeap rootDir ∅ [] in
  let h := foldl (add_dir dirs) h dirs in
  foldl (add_file dirs) h files.

(** [buildFileTree(data)]; the result is the heap, whose [rootDir] is the
    object returned. *)
Definition buildFileTree (fuel : nat) (data : list RemoteFile.t) : Outcome :=
  let h := cached data in
  match link (order h) h with
  | Abrupt e => Threw e
  | Normal h =>
      match getDepth fuel RootRef 0 h with
      | Some h => Returned h
      | None => OutOfFuel
      end
  end.

(** The length of the longest path of a listing. *)
Definition longest (data : list RemoteFile.t) : nat :=
  foldr (λ x m, String.length (RemoteFile.path x) `max` m) 0 data.

(** A nesting bound that is always enough. *)
Definition enough_fuel (data : list RemoteFile.t) : nat := S (S (longest data)).

(** *** The inputs on which [buildFileTree] returns *)

(** The number of slash-separated segments of a path. *)
Definition segments (p : string) : nat := length (split "/" p).

(** The listing has a directory, respectively a file, with path [p]. *)
Definition dir_at (data : list RemoteFile.t) (p : string) : bool :=
  existsb (λ x, bool_decide (RemoteFile.type x = RemoteFile.dir ∧ RemoteFile.path x = p)) data.

Definition file_at (data : list RemoteFile.t) (p : string) : bool :=
  existsb (λ x, bool_decide (RemoteFile.type x = RemoteFile.file ∧ RemoteFile.path x = p)) data.

(** An entry that the linking pass can attach: its path has exactly two
    segments, or its path without the last segment is the path of a directory
    of the listing and not also the path of a file of the listing. *)
Definition linkable (data : list RemoteFile.t) (p : string) : bool :=
  bool_decide (segments p = 2)
  || (dir_at data (parent_path p) && negb (file_at data (parent_path p))).

Definition well_linked (data : list RemoteFile.t) : bool :=
  forallb (λ x, linkable data (RemoteFile.path x)) data.

(** The precondition under which [buildFileTree] was said to return: every
    entry with three or more segments has its parent directory in the
    listing. *)
Definition parents_listed (data : list RemoteFile.t) : Prop :=
  ∀ x, x ∈ data → 3 ≤ segments (RemoteFile.path x) →
       dir_at data (parent_path (RemoteFile.path x)) = true.

Definition children (o : Obj) : list Ref := files_of o ++ dirs_of o.

Definition is_dir (o : Obj) : bool :=
  match o with DirObj _ _ _ => true | FileObj _ => false end.

(** The listing has an entry with path [p]. *)
Definition entry (data : list RemoteFile.t) (p : string) : bool :=
  dir_at data p || file_at data p.

(** *** Invariants of the heap *)

(** [cache.set(key x, val x)] for an element [x] of a list being looped
    over. *)
Definition put {X : Type} (key : X → string) (val : X → Obj) (h : Heap) (x : X) : Heap :=
  cache_set (key x) (val x) h.

(** What holds of the heap from the filled cache on: the root is a
    directory; the cache has one object per path of the listing, a file
    exactly where the listing has a file, with [parentId] as computed; and
    every reference in an array was put there for an entry of the listing
    whose parent is the owner of the array. *)
Definition Good (data : list RemoteFile.t) (h : Heap) : Prop :=
  is_dir (rootDir h) = true
  ∧ (∀ k, is_Some (objs h !! k) ↔ entry data k = true)
  ∧ (∀ k o, objs h !! k = Some o →
       parentId (props_of o) = parentId_for (listed_dirs data) k
       ∧ is_dir o = negb (file_at data k))
  ∧ (∀ r, r ∈ children (rootDir h) →
       ∃ k, r = CacheRef k ∧ segments k = 2 ∧ entry data k = true)
  ∧ (∀ pp o r, objs h !! pp = Some o → r ∈ children o →
       ∃ k, r = CacheRef k ∧ segments k ≠ 2 ∧ parent_path k = pp ∧ entry data k = true).

(** Arrays only gain elements. *)
Definition Grows (h h' : Heap) : Prop :=
  children (rootDir h) ⊆ children (rootDir h')
  ∧ ∀ pp o, objs h !! pp = Some o →
      ∃ o', objs h' !! pp = Some o' ∧ children o ⊆ children o'.

(** Two heaps with the same arrays everywhere. *)
Definition SameKids (h h' : Heap) : Prop :=
  ∀ r, files_of <$> deref r h' = files_of <$> deref r h
       ∧ dirs_of <$> deref r h' = dirs_of <$> deref r h.

(** How far below the longest path length [M] a reference is. *)
Definition room (M : nat) (r : Ref) : nat :=
  match r with
  | RootRef => S M
  | CacheRef k => M - String.length k
  end.

Definition walkable (M : nat) (r : Ref) : Prop :=
  match r with
  | RootRef => True
  | CacheRef k => k ≠ "" ∧ String.length k ≤ M
  end.

(** Every subdirectory reached from the root has a longer path than the
    directory holding it. *)
Definition Descends (M : nat) (h : Heap) : Prop :=
  ∀ r o r', walkable M r → deref r h = Some o → r' ∈ dirs_of o →
            walkable M r' ∧ room M r' < room M r.

(** In heap [h], the object made for path [p] is in the arrays of its
    parent: of the root when [p] has two segments, of the object for
    [parent_path p] otherwise. *)
Definition attached (h : Heap) (p : string) : Prop :=
  if decide (segments p = 2) then CacheRef p ∈ children (rootDir h)
  else ∃ parentDir, objs h !! parent_path p = Some parentDir
                    ∧ CacheRef p ∈ children parentDir.

End FileManager.


(** ** Directory listings on the server (fs.ts) *)

Module Fs.

(** [fs.Dirent] *)
Record Dirent := mkDirent { name : string; isDirectory : bool }.

(** [fetchDir(dir, baseDir)], given what [fs.readdir(dir, { withFileTypes: true })]
    produced: the value the promise resolves to. *)
Definition fetchDir (files : list Dirent) (baseDir : string) : list RemoteFile.t :=
  map (λ file,
         {| RemoteFile.type := if isDirectory file then RemoteFile.dir else RemoteFile.file;
            RemoteFile.name := name file;
            RemoteFile.path := baseDir +:+ "/" +:+ name file |})
      files.

End Fs.

(** ** The client's accumulated listing (CodingPage.tsx) *)

Module CodingPage.

(** [a.findIndex(p)], with [None] for -1. *)
Fixpoint findIndex {A} (p : A → bool) (a : list A) : option nat :=
  match a with
  | [] => None
  | x :: a' => if p x then Some 0 else S <$> findIndex p a'
  end.

(** [a.filter((x, index, self) => p x index self)], from position [index] on. *)
Fixpoint filter_from {A} (p : A → nat → bool) (index : nat) (a : list A) : list A :=
  match a with
  | [] => []
  | x :: a' =>
      if p x index then x :: filter_from p (S index) a' else filter_from p (S index) a'
  end.

Definition filter_indexed {A} (p : A → nat → list A → bool) (self : list A) : list A :=
  filter_from (λ x index, p x index self) 0 self.

(** The state update of [onSelect] for a directory:
    [setFileStructure(prev => { const allFiles = [...prev, ...data]; return allFiles.filter(...) })] *)
Definition merge (prev data : list RemoteFile.t) : list RemoteFile.t :=
  let allFiles := prev ++ data in
  filter_indexed
    (λ file index self,
       bool_decide
         (Some index =
          findIndex (λ f, bool_decide (RemoteFile.path f = RemoteFile.path file)) self))
    allFiles.

(** [fileStructure] after the ["loaded"] event delivered [rootContent] and the
    replies [responses] to ["fetchDir"] arrived in this order. *)
Definition accumulated (rootContent : list RemoteFile.t)
    (responses : list (list RemoteFile.t)) : list RemoteFile.t :=
  foldl merge rootContent responses.

(** The entry of a listing with a given path, the first one if several. *)
Definition entry_at (p : string) (l : list RemoteFile.t) : option RemoteFile.t :=
  List.find (λ f, bool_decide (RemoteFile.path f = p)) l.

(** The test [f => f.path === file.path]. *)
Definition same_path (file : RemoteFile.t) : RemoteFile.t → bool :=
  λ f, bool_decide (RemoteFile.path f = RemoteFile.path file).

(** The entries of [l] whose path is neither in [seen] nor carried by an
    earlier entry of [l]. *)
Fixpoint firsts (seen : list string) (l : list RemoteFile.t) : list RemoteFile.t :=
  match l with
  | [] => []
  | x :: l' =>
      if decide (RemoteFile.path x ∈ seen)
      then firsts (seen ++ [RemoteFile.path x]) l'
      else x :: firsts (seen ++ [RemoteFile.path x]) l'
  end.

(** The workspace [{a/, a/x.txt, b.txt}] as the server lists it: its root,
    and its directory [a]. *)
Definition root_listing : list RemoteFile.t :=
  Fs.fetchDir [Fs.mkDirent "a" true; Fs.mkDirent "b.txt" false] "".

Definition a_listing : list RemoteFile.t :=
  Fs.fetchDir [Fs.mkDirent "x.txt" false] "/a".

End CodingPage.


(** ** Browsing the workspace: listings from the server to the tree

    (fs.ts, index.ts, CodingPage.tsx, Editor.tsx) *)

Module Protocol.
Import Js JsString CodingPage.

(** What [fs.readdir(dir, { withFileTypes: true })] hands to its callback at
    some moment: the entries, or the error. *)
Definition Readdir := string → Completion (list Fs.Dirent).

(** fs.ts [fetchDir(dir, baseDir)]: the promise resolves to the mapped
    entries, or rejects with the error of [readdir]. *)
Definition fetchDir (readdir : Readdir) (dir baseDir : string)
  : Completion (list RemoteFile.t) :=
  match readdir dir with
  | Abrupt err => Abrupt err
  | Normal files => Normal (Fs.fetchDir files baseDir)
  end.

(** index.ts: the [rootContent] of the ["loaded"] event. *)
Definition rootContent (readdir : Readdir) : Completion (list RemoteFile.t) :=
  fetchDir readdir "/workspace" "".

(** index.ts: what the listener for ["fetchDir"] passes to [callback]. *)
Definition on_fetchDir (readdir : Readdir) (dir : string) : Completion (list RemoteFile.t) :=
  fetchDir readdir ("/workspace/" +:+ dir) dir.

(** Directory entries as a file system produces them: no name contains a
    slash, and the names of one directory are distinct. *)
Definition posix (readdir : Readdir) : Prop :=
  ∀ dir files, readdir dir = Normal files →
    Forall (λ f, slashes (Fs.name f) = 0) files ∧ NoDup (Fs.name <$> files).

(** The values [fileStructure] takes in CodingPage.tsx: the listing of the
    ["loaded"] event, and from then on the merge of the current value with
    the reply to a ["fetchDir"] that [onSelect] emitted with the path of a
    directory of the current value. The directories may change between two
    requests, so every request has its own [readdir]. *)
Inductive fileStructure : list RemoteFile.t → Prop :=
| after_loaded readdir root :
    posix readdir →
    rootContent readdir = Normal root →
    fileStructure root
| after_select readdir prev d data :
    fileStructure prev →
    d ∈ prev → RemoteFile.type d = RemoteFile.dir →
    posix readdir →
    on_fetchDir readdir (RemoteFile.path d) = Normal data →
    fileStructure (merge prev data).

(** Every entry has two segments, or its parent path is the path of a
    directory entry. *)
Definition rooted (l : list RemoteFile.t) : Prop :=
  ∀ x, x ∈ l →
    FileManager.segments (RemoteFile.path x) = 2
    ∨ (3 ≤ FileManager.segments (RemoteFile.path x)
       ∧ ∃ d, d ∈ l ∧ RemoteFile.type d = RemoteFile.dir
              ∧ RemoteFile.path d = FileManager.parent_path (RemoteFile.path x)).

(** A workspace with the directory [a] holding [x.txt], and the file
    [b.txt]. *)
Definition sample_readdir : Readdir :=
  λ dir,
    if decide (dir = "/workspace") then
      Normal [Fs.mkDirent "a" true; Fs.mkDirent "b.txt" false]
    else if decide (dir = "/workspace//a") then
      Normal [Fs.mkDirent "x.txt" false]
    else Abrupt (JsError "ENOENT: no such file or directory, scandir").

End Protocol.


(** ** The shape of the tree that [buildFileTree] returns (file-manager.tsx) *)

Module TreeShape.
Import JsString FileManager.

(** The depth of an object by its path: a path of [n] segments lies [n - 1]
    levels below the root. *)
Definition level (r : Ref) : nat :=
  match r with
  | RootRef => 0
  | CacheRef k => segments k - 1
  end.

(** The directory object whose arrays receive the object made for path [p]. *)
Definition holder (p : string) : Ref :=
  if decide (segments p = 2) then RootRef else CacheRef (parent_path p).

(** The properties of a cached object as the two filling loops set them. *)
Definition Labelled (h : Heap) : Prop :=
  ∀ k o, objs h !! k = Some o →
    (type (props_of o) = DIRECTORY ↔ is_dir o = true)
    ∧ id (props_of o) = k ∧ path (props_of o) = k ∧ depth (props_of o) = 0.

(** The arrays while the linking pass runs, [visited] being the keys it has
    been through: no array holds a reference twice, [files] arrays refer to
    file objects, [dirs] arrays to directory objects, and only to objects of
    keys visited. *)
Definition Sorted (data : list RemoteFile.t) (visited : list string) (h : Heap) : Prop :=
  ∀ r o, deref r h = Some o →
    NoDup (files_of o) ∧ NoDup (dirs_of o)
    ∧ (∀ r', r' ∈ files_of o →
         ∃ k, r' = CacheRef k ∧ k ∈ visited ∧ file_at data k = true)
    ∧ (∀ r', r' ∈ dirs_of o →
         ∃ k, r' = CacheRef k ∧ k ∈ visited ∧ file_at data k = false).

(** [relevel k p]: the properties [p] with [depth] set for path [k]. *)
Definition relevel (k : string) (p : CommonProps) : CommonProps :=
  mkProps (id p) (type p) (name p) (content p) (path p) (parentId p) (level (CacheRef k)).

(** From [h] to [h'] no object was added, removed or replaced by one of the
    other kind, the root kept its properties, and a cached object kept its
    properties but for [depth], which either stayed or became the level of
    its path. *)
Definition Kept (h h' : Heap) : Prop :=
  props_of (rootDir h') = props_of (rootDir h)
  ∧ ∀ k, match objs h !! k, objs h' !! k with
         | Some o, Some o' =>
             is_dir o' = is_dir o
             ∧ (props_of o' = props_of o ∨ props_of o' = relevel k (props_of o))
         | None, None => True
         | _, _ => False
         end.

(** The object cached for path [k] has the depth of its path. *)
Definition depth_ok (h : Heap) (k : string) : Prop :=
  ∃ o, objs h !! k = Some o ∧ depth (props_of o) = level (CacheRef k).

(** [dir] is in the [dirs] array of the object [r] refers to. *)
Definition edge (h : Heap) (r dir : Ref) : Prop :=
  ∃ o, deref r h = Some o ∧ dir ∈ dirs_of o.

(** Every array element of a directory that the depth pass can reach is a
    cached object one level below the directory. *)
Definition Levelled (M : nat) (h : Heap) : Prop :=
  ∀ r o r', walkable M r → deref r h = Some o → r' ∈ children o →
    ∃ k, r' = CacheRef k ∧ is_Some (objs h !! k) ∧ level r' = level r + 1.

End TreeShape.


(** ** The default selection of the editor (Editor.tsx, CodingPage.tsx) *)

Module Editor.
Import Js FileManager.

(** What [onSelect] emits on the socket. *)
Inductive Request :=
| FetchDir (dir : string)
| FetchContent (path : string).

(** CodingPage.tsx, [onSelect(file)] up to the [emit]; [None] is
    [undefined], on which reading [type] throws. *)
Definition onSelect (file : option Obj) : Completion Request :=
  match file with
  | None =>
      Abrupt (JsError "TypeError: Cannot read properties of undefined (reading 'type')")
  | Some o =>
      if decide (type (props_of o) = DIRECTORY)
      then Normal (FetchDir (path (props_of o)))
      else Normal (FetchContent (path (props_of o)))
  end.

(** Editor.tsx, the effect [if (!selectedFile) onSelect(rootDir.files[0])].
    The effect runs after the render, in which [SubTree] has sorted
    [rootDir.files] in place: [files] is that array as the render left it.
    [None]: the effect does nothing. *)
Definition default_selection (files : list Ref) (h : Heap) (selectedFile : option Obj)
  : option (Completion Request) :=
  match selectedFile with
  | Some _ => None
  | None => Some (onSelect (head files ≫= λ r, deref r h))
  end.

End Editor.


(** ** The file tree view (file-manager.tsx) *)

Module FileTree.
Import JsString FileManager.

(** The properties of a directory node. *)
Definition props (d : Directory) : CommonProps :=
  match d with mkDirectory p _ _ => p end.

(** The inner function [isChild] of [isChildSelected]; the captured variable
    [res] is threaded through, and [return] leaves the current call only. *)
Fixpoint isChild (selectedFile : File) (dir : Directory) (res : bool) : bool :=
  match dir with
  | mkDirectory p _ ds =>
      if decide (parentId selectedFile = Some (id p)) then true
      else if decide (parentId selectedFile = Some "0") then false
      else foldl (λ res item, isChild selectedFile item res) res ds
  end.

(** [isChildSelected(directory, selectedFile)], the [defaultOpen] of a
    directory row. *)
Definition isChildSelected (directory : Directory) (selectedFile : File) : bool :=
  isChild selectedFile directory false.

(** A directory and the directories below it. *)
Fixpoint subdirs (d : Directory) : list Directory :=
  match d with
  | mkDirectory _ _ ds => d :: concat (map subdirs ds)
  end.

End FileTree.


(** ** The socket server (index.ts)

    One server process: the [TerminalManager] it creates at start-up, the
    sockets on which [initHandlers] has run, and what it has sent. *)

Module Ws.
Import Js JsString.

(** [host?.split('.')[0]]; [None] is [undefined]. *)
Definition replId_of (host : option string) : option string :=
  host ≫= λ host, head (split "." host).

(** Events the server emits to a client. *)
Inductive Message :=
| Loaded (rootContent : list RemoteFile.t)
| Terminal (data : string).

(** - [manager]: the module-level [terminalManager];
    - [handlers]: the sockets on which [initHandlers(socket, replId)] has
      run, with the [replId] its listeners have captured;
    - [output_to]: for a shell process, the socket that the [onData] callback
      given to [createPty] has captured;
    - [sent]: the events emitted, with their socket, most recent first;
    - [closed]: the sockets the server has disconnected;
    - [console]: the lines logged, most recent first. *)
Record Server := mkServer {
  manager : TerminalManager.State;
  handlers : gmap string string;
  output_to : gmap TerminalManager.pid string;
  sent : list (string * Message);
  closed : list string;
  console : list string
}.

Definition start : Server :=
  mkServer TerminalManager.new ∅ ∅ [] [] [].

(** What happens to the server.
    - [Connection]: a client connects; [host] is the Host header of the
      handshake and [workspace] what reading the directory [/workspace]
      gives at that moment;
    - [RequestTerminal], [TerminalData], [Disconnect]: the socket delivers
      the event of that name; [p] is the pid of the process [fork] starts;
    - [Data]: the shell process [p] writes [data];
    - [Exit]: the shell process [p] exits. *)
Inductive Input :=
| Connection (socket : string) (host : option string)
    (workspace : Completion (list Fs.Dirent))
| RequestTerminal (socket : string) (p : TerminalManager.pid)
| TerminalData (socket data : string)
| Disconnect (socket : string)
| Data (p : TerminalManager.pid) (data : string)
| Exit (p : TerminalManager.pid).

#[global] Instance Thrown_eq_dec : EqDecision Thrown.
Proof. solve_decision. Defined.

#[global] Instance Completion_eq_dec {A} `{EqDecision A} : EqDecision (Completion A).
Proof. solve_decision. Defined.

#[global] Instance Dirent_eq_dec : EqDecision Fs.Dirent.
Proof. solve_decision. Defined.

#[global] Instance Input_eq_dec : EqDecision Input.
Proof. solve_decision. Defined.

Definition with_manager (m : TerminalManager.State) (sv : Server) : Server :=
  mkServer m (handlers sv) (output_to sv) (sent sv) (closed sv) (console sv).

Definition log (line : string) (sv : Server) : Server :=
  mkServer (manager sv) (handlers sv) (output_to sv) (sent sv) (closed sv)
           (line :: console sv).

Definition emit (socket : string) (m : Message) (sv : Server) : Server :=
  mkServer (manager sv) (handlers sv) (output_to sv) ((socket, m) :: sent sv)
           (closed sv) (console sv).

(** [socket.disconnect(); terminalManager.clear(socket.id); return] *)
Definition refuse (socket : string) (sv : Server) : Server :=
  mkServer (TerminalManager.clear socket (manager sv)) (handlers sv) (output_to sv)
           (sent sv) (socket :: closed sv) (console sv).

(** [initHandlers(socket, replId)] *)
Definition initHandlers (socket replId : string) (sv : Server) : Server :=
  mkServer (manager sv) (<[socket := replId]> (handlers sv)) (output_to sv)
           (sent sv) (closed sv) (console sv).

(** The listener of ["connection"]. When [fetchDir] rejects, the listener
    ends there: nothing is emitted and no handler is registered. *)
Definition connection (socket : string) (host : option string)
    (workspace : Completion (list Fs.Dirent)) (sv : Server) : Server :=
  let sv := log ("host is " +:+ default "undefined" host) sv in
  match replId_of host with
  | Some (String c replId' as replId) =>
      match workspace with
      | Normal files =>
          initHandlers socket replId (emit socket (Loaded (Fs.fetchDir files "")) sv)
      | Abrupt _ => sv
      end
  | _ => refuse socket sv
  end.

(** The listeners of ["requestTerminal"], ["terminalData"] and
    ["disconnect"], and the listeners [createPty] puts on the process. *)
Definition step (sv : Server) (i : Input) : Server :=
  match i with
  | Connection socket host workspace => connection socket host workspace sv
  | RequestTerminal socket p =>
      match handlers sv !! socket with
      | Some replId =>
          mkServer (TerminalManager.createPty socket replId p (manager sv))
                   (handlers sv) (<[p := socket]> (output_to sv))
                   (sent sv) (closed sv) (console sv)
      | None => sv
      end
  | TerminalData socket data =>
      match handlers sv !! socket with
      | Some _ => with_manager (TerminalManager.write socket data (manager sv)) sv
      | None => sv
      end
  | Disconnect socket =>
      match handlers sv !! socket with
      | Some _ => log "user disconnected" sv
      | None => sv
      end
  | Data p data =>
      match output_to sv !! p with
      | Some socket =>
          emit socket (Terminal data)
               (with_manager (TerminalManager.on_data p data (manager sv)) sv)
      | None => sv
      end
  | Exit p => with_manager (TerminalManager.on_exit p (manager sv)) sv
  end.

Definition run (inputs : list Input) (sv : Server) : Server :=
  foldl step sv inputs.

(** The sockets of the connections among the inputs. *)
Definition connections (inputs : list Input) : list string :=
  omap (λ i, match i with Connection socket _ _ => Some socket | _ => None end) inputs.

(** The process of the last ["requestTerminal"] a socket delivered. *)
Definition last_requested (socket : string) (inputs : list Input)
  : option TerminalManager.pid :=
  last (omap (λ i, match i with
                   | RequestTerminal s p => if decide (s = socket) then Some p else None
                   | _ => None
                   end) inputs).

(** Sessions are only made for sockets with handlers. *)
Definition Registered (sv : Server) : Prop :=
  ∀ s, is_Some (TerminalManager.sessions (manager sv) !! s) → is_Some (handlers sv !! s).

(** The number of occurrences of a character. *)
Fixpoint occurrences (c : ascii) (s : string) : nat :=
  match s with
  | EmptyString => 0
  | String d s' => if decide (d = c) then S (occurrences c s') else occurrences c s'
  end.

End Ws.


(** ** What a provisioning run writes (aws.ts, index.ts) *)

Module Template.
Import Js JsString Aws.

(** The writes that copying the listed objects [contents] makes, in order,
    when the bodies are those of the bucket [o]: the body of each key, under
    the key renamed. *)
Definition copies (o : gmap string string) (sourcePrefix destinationPrefix : string)
    (contents : list Object) : list (string * string) :=
  omap (λ object,
          key ← Key object;
          Some (replace key sourcePrefix destinationPrefix, default "" (o !! key)))
       contents.

(** The objects of a listing page. *)
Definition listed (keys : list string) : list Object :=
  map (λ k, mkObject (Some k)) keys.

(** Objects as the store lists them for the prefix [prefix] of bucket [o]. *)
Definition known (o : gmap string string) (prefix : string) (contents : list Object) : Prop :=
  Forall (λ object, ∃ k, object = mkObject (Some k) ∧ k ∈ keys_under o prefix) contents.

(** The message of the error that leaves [copyS3Folder] when the ceiling is
    reached [n] levels down: every level's [catch] puts its own text in front
    of the message it caught. *)
Definition ceiling_message (n : nat) : string :=
  Nat.iter n (λ m, "Failed to copy folder: " +:+ m)
           "Maximum recursion depth exceeded while copying S3 folder.".

(** A bucket with the template [base/node-js] (two objects), the template
    [base/node-js-legacy] (one object) and a workspace. *)
Definition two_templates : World :=
  mkWorld
    (list_to_map
       [("base/node-js/index.js", "console.log(1)");
        ("base/node-js/package.json", "{}");
        ("base/node-js-legacy/index.js", "old");
        ("code/other/main.py", "print(1)")])
    [] [].

End Template.


(** ** The workspace's own store client (the second aws.ts)

    [fetchS3Folder], the [copyS3Folder] without a ceiling, [writeFile],
    [createFolder] and [saveToS3]. *)

Module Restore.
Import Js JsString.

(** How a promise ends: fulfilled, rejected, or never settled. *)
Inductive Settlement (A : Type) :=
| Fulfilled (a : A)
| Rejected (e : Thrown)
| Pending.
Arguments Fulfilled {A} a.
Arguments Rejected {A} e.
Arguments Pending {A}.

(** Requests that leave the process, oldest first. *)
Inductive Request :=
| ListObjectsV2 (bucket prefix : string) (token : option string)
| GetObject (bucket key : string)
| CopyObject (bucket copySource key : string)
| PutObject (bucket key body : string)
| Mkdir (dirName : string)
| WriteFile (filePath : string).

(** Arguments of [console.log] and [console.error]. *)
Inductive Line :=
| LogCopyParams (bucket copySource key : string)
| Log (text : string)
| Error (text : string) (error : Thrown).

(** - [objects]: the bucket, key to body;
    - [files]: the local disk, path to content;
    - [folders]: the directories [fs.mkdir] was asked to make, oldest first;
    - [console], [requests]: what was printed and asked, oldest first. *)
Record World := mkWorld {
  objects : gmap string string;
  files : gmap string string;
  folders : list string;
  console : list Line;
  requests : list Request
}.

Definition P (A : Type) : Type := World → Settlement A * World.

Definition ret {A} (a : A) : P A := λ w, (Fulfilled a, w).

(** [await]: what follows runs only once the promise is fulfilled. *)
Definition bind {A B} (c : P A) (k : A → P B) : P B := λ w,
  match c w with
  | (Fulfilled a, w1) => k a w1
  | (Rejected e, w1) => (Rejected e, w1)
  | (Pending, w1) => (Pending, w1)
  end.

#[global] Instance P_ret : MRet P := @ret.
#[global] Instance P_bind : MBind P := λ A B k c, bind c k.

Definition request (r : Request) (w : World) : World :=
  mkWorld (objects w) (files w) (folders w) (console w) (requests w ++ [r]).

Definition print (l : Line) : P unit := λ w,
  (Fulfilled (), mkWorld (objects w) (files w) (folders w) (console w ++ [l]) (requests w)).

Definition of_completion {A} (c : Completion A) : Settlement A :=
  match c with Normal a => Fulfilled a | Abrupt e => Rejected e end.

(** The collaborators: the object store, with its answer to a listing
    request and the values with which it rejects a get, a copy or a put;
    the file system, with the errors of [mkdir] and [writeFile]; and Node's
    [path.dirname]. *)
Record Outside := mkOutside {
  list_reply : gmap string string → string → option string
               → Completion Aws.ListObjectsV2Output;
  get_fault : string → option Thrown;
  copy_fault : string → string → option Thrown;
  put_fault : string → option Thrown;
  mkdir_fault : string → option Thrown;
  write_fault : string → option Thrown;
  dirname : string → string
}.

Section with_outside.

(** [process.env.S3_BUCKET] *)
Variable S3_BUCKET : option string.

Variable out : Outside.

(** [process.env.S3_BUCKET ?? ""] *)
Definition Bucket : string := default "" S3_BUCKET.

(** [s3.listObjectsV2(params).promise()] *)
Definition listObjectsV2 (prefix : string) (token : option string)
  : P Aws.ListObjectsV2Output := λ w,
  (of_completion (list_reply out (objects w) prefix token),
   request (ListObjectsV2 Bucket prefix token) w).

(** [s3.getObject(params).promise()]; the result is [data.Body]. *)
Definition getObject (key : string) : P (option string) := λ w,
  let w1 := request (GetObject Bucket key) w in
  match get_fault out key with
  | Some err => (Rejected err, w1)
  | None =>
      match objects w !! key with
      | Some body => (Fulfilled (Some body), w1)
      | None => (Rejected (JsError "NoSuchKey: The specified key does not exist."), w1)
      end
  end.

(** [s3.copyObject(copyParams).promise()] *)
Definition copyObject (copySource key destinationKey : string) : P unit := λ w,
  let w1 := request (CopyObject Bucket copySource destinationKey) w in
  match copy_fault out key destinationKey with
  | Some err => (Rejected err, w1)
  | None =>
      match objects w !! key with
      | Some body =>
          (Fulfilled (),
           mkWorld (<[destinationKey := body]> (objects w1)) (files w1) (folders w1)
                   (console w1) (requests w1))
      | None => (Rejected (JsError "NoSuchKey: The specified key does not exist."), w1)
      end
  end.

(** [createFolder(dirName)] *)
Definition createFolder (dirName : string) : P unit := λ w,
  let w1 := request (Mkdir dirName) w in
  match mkdir_fault out dirName with
  | Some err => (Rejected err, w1)
  | None =>
      (Fulfilled (),
       mkWorld (objects w1) (files w1) (folders w1 ++ [dirName]) (console w1) (requests w1))
  end.

(** [writeFile(filePath, fileData)]. The executor is an [async] function:
    when [createFolder] rejects, it is the executor's own promise that is
    rejected, and neither [resolve] nor [reject] is ever called. *)
Definition writeFile (filePath fileData : string) : P unit := λ w,
  match createFolder (dirname out filePath) w with
  | (Fulfilled _, w1) =>
      let w2 := request (WriteFile filePath) w1 in
      match write_fault out filePath with
      | Some err => (Rejected err, w2)
      | None =>
          (Fulfilled (),
           mkWorld (objects w2) (<[filePath := fileData]> (files w2)) (folders w2)
                   (console w2) (requests w2))
      end
  | (_, w1) => (Pending, w1)
  end.

(** [for (const x of xs) { await body(x) }] *)
Fixpoint for_of {A} (xs : list A) (body : A → P unit) : P unit :=
  match xs with
  | [] => mret ()
  | x :: rest => _ ← body x; for_of rest body
  end.

(** The body of the loop of [fetchS3Folder]. *)
Definition fetch_object (key localPath : string) (file : Aws.Object) : P unit :=
  match Aws.Key file with
  | None => mret ()
  | Some fileKey =>
      if truthy fileKey then
        data ← getObject fileKey;
        match data with
        | Some fileData =>
            let filePath := localPath +:+ "/" +:+ replace fileKey key "" in
            writeFile filePath fileData
        | None => mret ()
        end
      else mret ()
  end.

(** [fetchS3Folder(key, localPath)] *)
Definition fetchS3Folder (key localPath : string) : P unit :=
  response ← listObjectsV2 key None;
  match Aws.Contents response with
  | None => mret ()
  | Some contents => for_of contents (fetch_object key localPath)
  end.

(** The body of the loop of [copyS3Folder]. *)
Definition copy_object (sourcePrefix destinationPrefix : string) (object : Aws.Object)
  : P unit :=
  match Aws.Key object with
  | None => mret ()
  | Some key =>
      if truthy key then
        let destinationKey := replace key sourcePrefix destinationPrefix in
        let copySource := default "undefined" S3_BUCKET +:+ "/" +:+ key in
        _ ← print (LogCopyParams Bucket copySource destinationKey);
        _ ← copyObject copySource key destinationKey;
        print (Log ("Copied " +:+ key +:+ " to " +:+ destinationKey))
      else mret ()
  end.

(** [catch (error) { console.error('Error copying folder:', error) }] *)
Definition caught (r : Settlement unit * World) : Settlement unit * World :=
  match r with
  | (Rejected error, w) => print (Error "Error copying folder:" error) w
  | _ => r
  end.

(** [copyS3Folder(sourcePrefix, destinationPrefix, continuationToken)].
    Nothing bounds the recursion, so the definition takes a bound [fuel] on
    its nesting; [None] means the bound was reached. *)
Fixpoint copyS3Folder (fuel : nat) (sourcePrefix destinationPrefix : string)
    (continuationToken : option string) (w : World) : option (Settlement unit * World) :=
  match fuel with
  | 0 => None
  | S fuel' =>
      match listObjectsV2 sourcePrefix continuationToken w with
      | (Fulfilled listedObjects, w1) =>
          match Aws.Contents listedObjects with
          | None | Some [] => Some (Fulfilled (), w1)
          | Some contents =>
              match for_of contents (copy_object sourcePrefix destinationPrefix) w1 with
              | (Fulfilled _, w2) =>
                  if Aws.IsTruncated listedObjects then
                    caught <$> copyS3Folder fuel' sourcePrefix destinationPrefix
                                 (Aws.NextContinuationToken listedObjects) w2
                  else Some (Fulfilled (), w2)
              | (Rejected error, w2) => Some (caught (Rejected error, w2))
              | (Pending, w2) => Some (Pending, w2)
              end
          end
      | (Rejected error, w1) => Some (caught (Rejected error, w1))
      | (Pending, w1) => Some (Pending, w1)
      end
  end.

(** [saveToS3(key, filePath, content)] *)
Definition saveToS3 (key filePath content : string) : P unit := λ w,
  let w1 := request (PutObject Bucket (key +:+ filePath) content) w in
  match put_fault out (key +:+ filePath) with
  | Some err => (Rejected err, w1)
  | None =>
      (Fulfilled (),
       mkWorld (<[key +:+ filePath := content]> (objects w1)) (files w1) (folders w1)
               (console w1) (requests w1))
  end.

End with_outside.

(** A store and a disk that accept everything, the store listing the keys
    under a prefix a page at a time as [Aws.paged_store] does. *)
Definition ideal (pageSize : nat) (dirname : string → string) : Outside :=
  {| list_reply := Aws.paged_reply pageSize;
     get_fault := λ _, None;
     copy_fault := λ _ _, None;
     put_fault := λ _, None;
     mkdir_fault := λ _, None;
     write_fault := λ _, None;
     dirname := dirname |}.

(** A store whose listing never ends: every page holds the one key and
    announces a next page. *)
Definition endless (key : string) (dirname : string → string) : Outside :=
  {| list_reply := λ _ _ _,
       Normal {| Aws.Contents := Some [Aws.mkObject (Some key)];
                 Aws.IsTruncated := true;
                 Aws.NextContinuationToken := Some "more" |};
     get_fault := λ _, None;
     copy_fault := λ _ _, None;
     put_fault := λ _, None;
     mkdir_fault := λ _, None;
     write_fault := λ _, None;
     dirname := dirname |}.

(** The files that restoring the listed keys writes, in order: the body of
    each key, at the local path made from the rest of the key. *)
Definition restored (o : gmap string string) (key localPath : string)
    (keys : list string) : list (string * string) :=
  map (λ fileKey, (localPath +:+ "/" +:+ replace fileKey key "", default "" (o !! fileKey)))
      keys.

(** A pod that starts with the bucket [bucket] and an empty disk. *)
Definition fresh_pod (bucket : gmap string string) : World :=
  mkWorld bucket ∅ [] [] [].

(** The number of listing requests among [rs]. *)
Definition listings (rs : list Request) : nat :=
  length (List.filter (λ r, match r with ListObjectsV2 _ _ _ => true | _ => false end) rs).

End Restore.


(** ** A session of edits (index.ts) *)

Module Edits.
Import Js Gateway.

(** One ["updateContent"] event, with the value with which the store
    rejects the put at that moment, if it does. *)
Record Edit := mkEdit {
  filePath : string;
  content : string;
  store_fault : option Thrown
}.

Definition with_store_fault (fault : option Thrown) (w : World) : World :=
  mkWorld (disk w) (bucket w) (console w) (trace w) (fs_fault w) fault.

(** The listener runs for one event; socket.io drops the promise. *)
Definition edit (replId : string) (w : World) (e : Edit) : World :=
  (dispatch (updateContent replId (filePath e) (content e))
            (with_store_fault (store_fault e) w)).2.

Definition session (replId : string) (edits : list Edit) (w : World) : World :=
  foldl (edit replId) w edits.

(** The content of the last edit of a path, and of the last edit of the
    path that the store accepted. *)
Definition last_written (p : string) (edits : list Edit) : option string :=
  content <$> last (filter (λ e, filePath e = p) edits).

Definition last_stored (p : string) (edits : list Edit) : option string :=
  content <$> last (filter (λ e, filePath e = p ∧ store_fault e = None) edits).

End Edits.


(** ** The landing page (components/file-tree.tsx, [Landing]) *)

Module Landing.
Import JsString.

Definition CAR_BRANDS : list string :=
  ["Toyota"; "Honda"; "Ford"; "Chevrolet"; "Mercedes"; "BMW";
   "Audi"; "Volkswagen"; "Hyundai"; "Nissan"; "Kia"; "Mazda";
   "Subaru"; "Lexus"; "Porsche"; "Jaguar"; "Ferrari"; "Lamborghini";
   "Tesla"; "Volvo"; "Acura"; "Infiniti"; "Mitsubishi"; "Buick";
   "Chrysler"; "Dodge"; "Jeep"; "Ram"; "GMC"; "Peugeot"; "Fiat";
   "Mini"; "Land Rover"; "Rolls Royce"; "Bentley"; "Aston Martin";
   "McLaren"; "Alfa Romeo"].

(** [CAR_BRANDS[randomIndex]] in a string concatenation: an index past the
    end gives [undefined], which concatenates as the text "undefined". *)
Definition brand (randomIndex : nat) : string :=
  nth randomIndex CAR_BRANDS "undefined".

(** [getRandomSlug()]; [randomIndex i] is the value of
    [Math.floor(Math.random() * CAR_BRANDS.length)] in round [i] of the
    loop. *)
Definition getRandomSlug (randomIndex : nat → nat) : string :=
  foldl (λ slug i,
           slug +:+ (if decide (i = 2) then brand (randomIndex i)
                     else brand (randomIndex i) +:+ "-"))
        "" (seq 0 3).

End Landing.


(** ** Icons and highlighting by file name (icon.tsx, file-manager.tsx, the code editor) *)

Module Presentation.
Import JsString.

(** [name.split('.').pop()]: [split] never gives an empty array, so [pop]
    never gives [undefined]. *)
Definition pop_extension (name : string) : string :=
  default "" (last (split "." name)).

(** The icon components. *)
Inductive Icon :=
| SiJavascript | SiTypescript | SiCss3 | SiJson | SiHtml5
| FcPicture | AiFillFileText | FcFolder | FcOpenedFolder | FcFile.

(** The [Map] filled by [getIconHelper], in insertion order. *)
Definition cache : list (string * Icon) :=
  [("js", SiJavascript); ("jsx", SiJavascript); ("ts", SiTypescript); ("tsx", SiTypescript);
   ("css", SiCss3); ("json", SiJson); ("html", SiHtml5);
   ("png", FcPicture); ("jpg", FcPicture); ("ico", FcPicture);
   ("txt", AiFillFileText);
   ("closedDirectory", FcFolder); ("openDirectory", FcOpenedFolder)].

(** [cache.get(key)], [None] when [cache.has(key)] is false. *)
Definition cache_get (key : string) : option Icon :=
  snd <$> List.find (λ kv, bool_decide (kv.1 = key)) cache.

(** The function [getIconHelper] returns. *)
Definition getIcon (extension name : string) : Icon :=
  match cache_get extension with
  | Some icon => icon
  | None =>
      match cache_get name with
      | Some icon => icon
      | None => FcFile
      end
  end.

(** [FileIcon({ extension, name })]: [getIcon(extension || "", name || "")] *)
Definition FileIcon (extension name : option string) : Icon :=
  getIcon (default "" extension) (default "" name).

(** The icon of a row: [FileDiv] gives [FileIcon] its prop [icon] as [name]
    and [file.name.split('.').pop() || ""] as [extension]. *)
Definition row_icon (file_name : string) (icon : option string) : Icon :=
  FileIcon (Some (pop_extension file_name)) icon.

(** A file row has no [icon] prop; a directory row has the one for its
    state. *)
Definition file_icon (name : string) : Icon := row_icon name None.

Definition dir_icon (name : string) (open : bool) : Icon :=
  row_icon name (Some (if open then "openDirectory" else "closedDirectory")).

(** The value of [languageMap[key] || "plaintext"]: a string, or what the
    object inherits under that name from [Object.prototype] (a function or
    an object, so not falsy). *)
Inductive Language :=
| Named (language : string)
| Inherited (member : string).

Definition languageMap : list (string * string) :=
  [("js", "javascript"); ("jsx", "javascript"); ("ts", "typescript");
   ("tsx", "typescript"); ("py", "python")].

(** The property names every object inherits from [Object.prototype]. *)
Definition object_prototype : list string :=
  ["constructor"; "hasOwnProperty"; "isPrototypeOf"; "propertyIsEnumerable";
   "toLocaleString"; "toString"; "valueOf"; "__proto__";
   "__defineGetter__"; "__defineSetter__"; "__lookupGetter__"; "__lookupSetter__"].

(** The code editor ([Code]): [languageMap[selectedFile.name.split('.').pop()!] || "plaintext"] *)
Definition language (name : string) : Language :=
  let key := pop_extension name in
  match List.find (λ kv, bool_decide (kv.1 = key)) languageMap with
  | Some kv => Named kv.2
  | None =>
      if decide (key ∈ object_prototype) then Inherited key else Named "plaintext"
  end.

End Presentation.


(** * Part II: what the code does *)

(** ** The session table *)

Module TerminalManagerFacts.
Import TerminalManager.

Lemma createPty_sessions id replId p st k :
  sessions (createPty id replId p st) !! k =
  if decide (id = k) then Some (mkSession p replId) else sessions st !! k.
Proof. unfold createPty; simpl. apply lookup_insert. Qed.

Lemma createPty_live id replId p st q :
  q ∈ live (createPty id replId p st) ↔ q = p ∨ q ∈ live st.
Proof. unfold createPty, fork; simpl. set_solver. Qed.

(** A second [createPty] under the same key forgets the first process without
    ending it. *)
Lemma createPty_again_orphans st id r1 r2 p1 p2 :
  p1 ≠ p2 →
  (∀ k s, sessions st !! k = Some s → terminal s ≠ p1) →
  orphan p1 (createPty id r2 p2 (createPty id r1 p1 st)).
Proof.
  intros Hne Hfresh. split.
  - apply createPty_live. right. apply createPty_live. by left.
  - intros k s. rewrite createPty_sessions. case_decide as Hk.
    + intros [= <-]. simpl. congruence.
    + rewrite createPty_sessions. rewrite decide_False by done. apply Hfresh.
Qed.

Lemma on_exit_sessions p st k :
  sessions (on_exit p st) !! k =
  if decide (pid_key p = k) then None else sessions st !! k.
Proof. unfold on_exit, exit_handler, kill; simpl. apply lookup_delete. Qed.

Lemma on_exit_live p st q : q ∈ live (on_exit p st) ↔ q ∈ live st ∧ q ≠ p.
Proof. unfold on_exit, exit_handler, kill; simpl. set_solver. Qed.

(** The exit listener leaves the entry of every key other than the decimal
    rendering of the pid alone, the one the process was stored under
    included. *)
Lemma on_exit_other_key p st k :
  k ≠ pid_key p → sessions (on_exit p st) !! k = sessions st !! k.
Proof. intros. rewrite on_exit_sessions. by rewrite decide_False. Qed.

Lemma clear_sessions id st k :
  sessions (clear id st) !! k = if decide (id = k) then None else sessions st !! k.
Proof.
  unfold clear, kill. destruct (sessions st !! id); simpl; apply lookup_delete.
Qed.

Lemma clear_absent id st : sessions (clear id st) !! id = None.
Proof. rewrite clear_sessions. by rewrite decide_True. Qed.

(** [clear] ends the process it removes. *)
Lemma clear_kills id st s :
  sessions st !! id = Some s → terminal s ∉ live (clear id st).
Proof. intros H. unfold clear, kill. rewrite H. simpl. apply not_elem_of_difference. right. by apply elem_of_singleton. Qed.

Lemma write_absent st k data : sessions st !! k = None → write k data st = st.
Proof. intros H. unfold write. by rewrite H. Qed.

(** C1 (the code departs from the claim): after
    [createPty("sock", "repl", ...)] twice with no [clear] in between, the
    processes forked being 101 and then 102, the table maps ["sock"] to 102
    while 101 is still running and no session refers to it: the first
    process was not terminated and is orphaned. *)
Theorem createPty_twice_leaves_first_process_running :
  let st := createPty "sock" "repl" 102%N (createPty "sock" "repl" 101%N new) in
  sessions st !! "sock" = Some (mkSession 102%N "repl")
  ∧ live_under "sock" st = [102%N]
  ∧ 101%N ∈ live st
  ∧ orphan 101%N st.
Proof.
  assert (Ho : orphan 101%N (createPty "sock" "repl" 102%N (createPty "sock" "repl" 101%N new))).
  { apply createPty_again_orphans; [done|]. intros k s. unfold new; simpl.
    by rewrite lookup_empty. }
  cbv zeta. split_and!.
  - rewrite createPty_sessions. by rewrite decide_True.
  - unfold live_under. rewrite createPty_sessions, decide_True by done.
    change (terminal (mkSession 102%N "repl")) with 102%N.
    rewrite decide_True; [done|]. apply createPty_live. by left.
  - apply Ho.
  - exact Ho.
Qed.

(** C2 (the code departs from the claim): the shell forked for key ["sock"]
    has pid 4242; when it exits, the listener deletes the entry under
    ["4242"], so the entry under ["sock"] is still there although the
    process is gone. *)
Theorem exit_leaves_session_entry :
  let st := on_exit 4242%N (createPty "sock" "repl" 4242%N new) in
  sessions st !! "sock" = Some (mkSession 4242%N "repl")
  ∧ (4242%N ∉ live st)
  ∧ sessions st = sessions (createPty "sock" "repl" 4242%N new).
Proof.
  cbv zeta. split_and!.
  - rewrite on_exit_other_key by (vm_compute; congruence).
    rewrite createPty_sessions. by rewrite decide_True.
  - rewrite on_exit_live. intros [_ ?]. done.
  - apply map_eq. intros k. rewrite on_exit_sessions. case_decide as Hk; [|done].
    subst k. rewrite createPty_sessions. rewrite decide_False by (vm_compute; congruence).
    done.
Qed.


(** X4: [clear] on a key with a session ends its process and removes the entry;
    a second [clear] changes nothing. *)
Theorem clear_kills_and_is_idempotent (st : State) (k : string) (s : Session) :
  sessions st !! k = Some s →
  sessions (clear k st) !! k = None
  ∧ (terminal s ∉ live (clear k st))
  ∧ clear k (clear k st) = clear k st.
Proof.
  intros Hs. split_and!.
  - apply clear_absent.
  - by apply clear_kills.
  - pose proof (clear_absent k st) as Habs.
    unfold clear at 1. rewrite Habs. destruct (clear k st) as [m l i e].
    simpl in *. f_equal. by apply delete_id.
Qed.

Lemma clear_kills_and_is_idempotent_witness :
  let st := createPty "sock" "repl" 101%N new in
  sessions (clear "sock" st) !! "sock" = None
  ∧ (101%N ∉ live (clear "sock" st))
  ∧ clear "sock" (clear "sock" st) = clear "sock" st.
Proof.
  apply (clear_kills_and_is_idempotent (createPty "sock" "repl" 101%N new) "sock"
           (mkSession 101%N "repl")).
  unfold createPty. simpl. apply lookup_insert_eq.
Defined.


End TerminalManagerFacts.


(** ** File content over the socket *)

Module GatewayFacts.
Import Js Gateway.

Lemma saveFile_ok file content w :
  fs_fault w = None →
  saveFile file content w =
  (Normal (), set_disk (<[file := content]> (disk w)) (record (FsWrite file content) w)).
Proof. intros H. unfold saveFile. by rewrite H. Qed.

Lemma saveFile_fails file content w err :
  fs_fault w = Some err →
  saveFile file content w = (Abrupt err, record (FsWrite file content) w).
Proof. intros H. unfold saveFile. by rewrite H. Qed.

Lemma fetchFileContent_reads file w data :
  disk w !! file = Some data → (fetchFileContent file w).1 = Normal data.
Proof. intros H. unfold fetchFileContent. by rewrite H. Qed.

(** What [updateContent] does when the local write succeeds and the store
    rejects the put: the rejection leaves the listener, the file keeps the new
    content, and neither the console nor the bucket changes. *)
Lemma updateContent_store_down replId filePath content w err :
  fs_fault w = None →
  s3_fault w = Some err →
  ∃ w', dispatch (updateContent replId filePath content) w = (UnhandledRejection err, w')
        ∧ disk w' = <["/workspace/" +:+ filePath := content]> (disk w)
        ∧ console w' = console w
        ∧ bucket w' = bucket w.
Proof.
  intros Hfs Hs3. eexists. split.
  - unfold dispatch, updateContent, updateContent_local, mbind, M_bind, bind.
    rewrite (saveFile_ok _ _ _ Hfs). unfold saveToS3. simpl. rewrite Hs3. reflexivity.
  - done.
Qed.

(** When the local write fails, the store is never asked. *)
Lemma updateContent_disk_down replId filePath content w err :
  fs_fault w = Some err →
  updateContent replId filePath content w =
  (Abrupt err, record (FsWrite ("/workspace/" +:+ filePath) content) w).
Proof.
  intros Hfs. unfold updateContent, updateContent_local, mbind, M_bind, bind.
  by rewrite (saveFile_fails _ _ _ _ Hfs).
Qed.

(** C3 (the code departs from the claim): an [updateContent] request for
    ["/a/x.txt"] whose local write succeeds while the store rejects the put.
    The local write stays, as the claim says; but the listener has no
    [try]/[catch], so the rejection leaves it as an unhandled promise
    rejection, and nothing is written to the console: the failure is neither
    logged nor confined by the code. *)
Theorem updateContent_put_failure_unhandled :
  let w := mkWorld ∅ ∅ [] [] None (Some (JsError "NetworkingError: connect ECONNREFUSED")) in
  let r := dispatch (updateContent "r1" "/a/x.txt" "hello") w in
  r.1 = UnhandledRejection (JsError "NetworkingError: connect ECONNREFUSED")
  ∧ disk r.2 !! "/workspace//a/x.txt" = Some "hello"
  ∧ console r.2 = []
  ∧ bucket r.2 = ∅.
Proof.
  cbv zeta.
  destruct (updateContent_store_down "r1" "/a/x.txt" "hello"
              (mkWorld ∅ ∅ [] [] None (Some (JsError "NetworkingError: connect ECONNREFUSED")))
              (JsError "NetworkingError: connect ECONNREFUSED") eq_refl eq_refl)
    as (w' & -> & Hd & Hc & Hb).
  simpl. rewrite Hd, Hc, Hb. split_and!; try done.
Qed.

(** C5: when the local write succeeds, [updateContent] issues the file
    write, and only then the put to the store; in the state between the two,
    and in the state after the listener has run whatever the store answered,
    [fetchContent] for the same path yields the content just written. *)
Theorem update_then_fetch (w : World) (replId filePath content : string) :
  fs_fault w = None →
  let w1 := (updateContent_local filePath content w).2 in
  let w2 := (updateContent replId filePath content w).2 in
  trace w1 = trace w ++ [FsWrite ("/workspace/" +:+ filePath) content]
  ∧ bucket w1 = bucket w
  ∧ trace w2 = trace w1 ++ [S3Put ("code/" +:+ replId +:+ filePath) content]
  ∧ (fetchContent filePath w1).1 = Normal content
  ∧ (fetchContent filePath w2).1 = Normal content.
Proof.
  intros Hfs. cbv zeta.
  unfold updateContent, updateContent_local, mbind, M_bind, bind.
  rewrite (saveFile_ok _ _ _ Hfs). cbn [fst snd].
  split_and!.
  - done.
  - done.
  - unfold saveToS3. destruct (s3_fault _); done.
  - apply fetchFileContent_reads. simpl. apply lookup_insert_eq.
  - apply fetchFileContent_reads.
    unfold saveToS3. destruct (s3_fault _); simpl; apply lookup_insert_eq.
Qed.

(** An update of ["/a/x.txt"] while the store is unreachable, read back. *)
Lemma update_then_fetch_witness :
  let w := mkWorld ∅ ∅ [] [] None (Some (JsError "NetworkingError")) in
  let w1 := (updateContent_local "/a/x.txt" "hello" w).2 in
  let w2 := (updateContent "r1" "/a/x.txt" "hello" w).2 in
  fs_fault w = None
  ∧ trace w1 = trace w ++ [FsWrite ("/workspace/" +:+ "/a/x.txt") "hello"]
  ∧ bucket w1 = bucket w
  ∧ trace w2 = trace w1 ++ [S3Put ("code/" +:+ "r1" +:+ "/a/x.txt") "hello"]
  ∧ (fetchContent "/a/x.txt" w1).1 = Normal "hello"
  ∧ (fetchContent "/a/x.txt" w2).1 = Normal "hello".
Proof.
  cbv zeta. split; [reflexivity|].
  exact (update_then_fetch (mkWorld ∅ ∅ [] [] None (Some (JsError "NetworkingError")))
           "r1" "/a/x.txt" "hello" eq_refl).
Defined.

End GatewayFacts.


(** ** Provisioning *)

Module AwsFacts.
Import Js JsString Aws.

Lemma listings_app rs rs' : listings (rs ++ rs') = listings rs + listings rs'.
Proof. unfold listings. by rewrite List.filter_app, length_app. Qed.

Lemma quiet_ret {A} (a : A) : quiet (mret a : M World A).
Proof. by intros w. Qed.

Lemma quiet_throw {A} e : quiet (throw e : M World A).
Proof. by intros w. Qed.

Lemma quiet_print l : quiet (print l).
Proof. by intros w. Qed.

Lemma quiet_bind {A B} (c : M World A) (k : A → M World B) :
  quiet c → (∀ a, quiet (k a)) → quiet (c ≫= k).
Proof.
  intros Hc Hk w. unfold mbind, M_bind, bind. specialize (Hc w).
  destruct (c w) as [[a|e] w1]; simpl in *; [|done]. by rewrite Hk.
Qed.

Lemma quiet_try_catch {A} (c : M World A) (h : Thrown → M World A) :
  quiet c → (∀ e, quiet (h e)) → quiet (try_catch c h).
Proof.
  intros Hc Hh w. unfold try_catch. specialize (Hc w).
  destruct (c w) as [[a|e] w1]; simpl in *; [done|]. by rewrite Hh.
Qed.

Lemma quiet_copyObject s3 bucket key dst : quiet (copyObject s3 bucket key dst).
Proof.
  intros w. unfold copyObject.
  destruct (copy_fault s3 key dst); [|destruct (objects w !! key)];
    simpl; rewrite listings_app; unfold listings; simpl; lia.
Qed.

Lemma quiet_copy_one s3 bucket src dst object : quiet (copy_one s3 bucket src dst object).
Proof.
  unfold copy_one. destruct (Key object) as [key|]; [|apply quiet_ret].
  destruct (negb (truthy key)); [apply quiet_ret|].
  apply quiet_bind; [apply quiet_copyObject|]. intros _. apply quiet_print.
Qed.

Lemma quiet_promise_all promises : Forall quiet promises → quiet (promise_all promises).
Proof.
  induction 1 as [|p rest Hp _ IH]; intros w; simpl; [done|].
  specialize (Hp w). destruct (p w) as [[a|e] w1]; simpl in *.
  - by rewrite IH.
  - by rewrite IH.
Qed.

Lemma quiet_for_chunks s3 bucket src dst chunks : quiet (for_chunks s3 bucket src dst chunks).
Proof.
  induction chunks as [|chunk rest IH]; simpl; [apply quiet_ret|].
  apply quiet_bind; [|by intros _].
  apply quiet_promise_all, Forall_map, Forall_forall. intros o _. apply quiet_copy_one.
Qed.

Lemma quiet_rethrow e : quiet (rethrow e).
Proof.
  destruct e; simpl; (apply quiet_bind; [apply quiet_print|intros _; apply quiet_throw]).
Qed.

Lemma quiet_list_failed e : quiet (list_failed e).
Proof.
  unfold list_failed. apply quiet_bind; [apply quiet_print|intros _; apply quiet_throw].
Qed.

Lemma quiet_spends {A} (c : M World A) n : quiet c → spends n c.
Proof. intros Hc w. rewrite Hc. lia. Qed.

Lemma spends_bind {A B} n m (c : M World A) (k : A → M World B) :
  spends n c → (∀ a, spends m (k a)) → spends (n + m) (c ≫= k).
Proof.
  intros Hc Hk w. unfold mbind, M_bind, bind. specialize (Hc w).
  destruct (c w) as [[a|e] w1]; simpl in *; [|lia].
  specialize (Hk a w1). lia.
Qed.

Lemma spends_try_catch {A} n m (c : M World A) (h : Thrown → M World A) :
  spends n c → (∀ e, spends m (h e)) → spends (n + m) (try_catch c h).
Proof.
  intros Hc Hh w. unfold try_catch. specialize (Hc w).
  destruct (c w) as [[a|e] w1]; simpl in *; [lia|].
  specialize (Hh e w1). lia.
Qed.

Lemma spends_listObjectsV2 s3 bucket prefix token :
  spends 1 (listObjectsV2 s3 bucket prefix token).
Proof.
  intros w. unfold listObjectsV2, request. simpl. rewrite listings_app.
  unfold listings. simpl. lia.
Qed.

(** One call sends at most as many listing requests as there are depths left
    up to the ceiling. *)
Lemma copyS3Folder_spends S3_BUCKET s3 src dst tok depth maxDepth :
  spends (S maxDepth - depth) (copyS3Folder S3_BUCKET s3 src dst tok depth maxDepth).
Proof.
  funelim (copyS3Folder S3_BUCKET s3 src dst tok depth maxDepth);
    try (apply quiet_spends, quiet_throw).
  clear Heqcall Heq Heq0.
  replace (S maxDepth - depth) with ((1 + 0 + (S maxDepth - (depth + 1))) + 0) by lia.
  apply spends_try_catch; [|intros e; apply quiet_spends, quiet_rethrow].
  apply spends_bind.
  - apply spends_try_catch; [apply spends_listObjectsV2|].
    intros e. apply quiet_spends, quiet_list_failed.
  - intros listedObjects.
    destruct (Contents listedObjects) as [[|object contents]|];
      try (apply quiet_spends, quiet_print).
    replace (S maxDepth - (depth + 1)) with (0 + (S maxDepth - (depth + 1))) by lia.
    apply spends_bind; [apply quiet_spends, quiet_for_chunks|]. intros [].
    destruct (IsTruncated listedObjects); [|apply quiet_spends, quiet_ret].
    intros w. apply (H listedObjects contents object contents () w).
Qed.

Lemma rethrow_fails e : fails (rethrow e).
Proof. intros w. destruct e; simpl; eauto. Qed.

Lemma copyS3Folder_endless_fails S3_BUCKET s3 src dst tok depth maxDepth :
  endless s3 src →
  fails (copyS3Folder S3_BUCKET s3 src dst tok depth maxDepth).
Proof.
  intros Hend.
  funelim (copyS3Folder S3_BUCKET s3 src dst tok depth maxDepth);
    try (intros w; simpl; eauto; fail).
  clear Heqcall Heq Heq0. intros w.
  unfold try_catch at 1.
  match goal with |- context [(?c ≫= ?k) w] => destruct ((c ≫= k) w) as [[[]|e] w1] eqn:Hrun end.
  - (* the body cannot end normally *)
    exfalso. revert Hrun. unfold mbind, M_bind, bind, try_catch, listObjectsV2. simpl.
    destruct (Hend (objects w) continuationToken) as (object & contents & next & ->).
    simpl.
    destruct (for_chunks _ _ _ _ _ _) as [[[]|e] w2]; [|done].
    intros Hrec.
    destruct (H (mkListing (Some (object :: contents)) true next)
                contents object contents () w Hend w2) as [message Hm].
    simpl in Hm. rewrite Hrec in Hm. done.
  - apply rethrow_fails.
Qed.

(** A call ends normally only after the store has sent a final reply. *)
Lemma copyS3Folder_normal_final S3_BUCKET s3 src dst tok depth maxDepth w :
  (copyS3Folder S3_BUCKET s3 src dst tok depth maxDepth w).1 = Normal () →
  ∃ o token out, list_reply s3 o src token = Normal out ∧ final out.
Proof.
  revert w.
  funelim (copyS3Folder S3_BUCKET s3 src dst tok depth maxDepth); intros w; [done..|].
  clear Heqcall Heq Heq0.
  unfold try_catch at 1, mbind, M_bind, bind, try_catch, listObjectsV2. simpl.
  destruct (list_reply s3 (objects w) sourcePrefix continuationToken) as [out|e] eqn:Hreply;
    simpl; [|intros Hn; exfalso; revert Hn; by destruct e].
  destruct (Contents out) as [[|object contents]|] eqn:Hc.
  - intros _. exists (objects w), continuationToken, out. split; [done|]. right. by left.
  - destruct (for_chunks _ _ _ _ _ _) as [[[]|e] w2];
      [|intros Hn; exfalso; revert Hn; by destruct e].
    destruct (IsTruncated out) eqn:Ht.
    + destruct (copyS3Folder _ _ _ _ _ _ _ w2) as [[[]|e] w3] eqn:Hrec;
        [|intros Hn; exfalso; revert Hn; by destruct e].
      intros _. apply (H out contents object contents () w2 w2). by rewrite Hrec.
    + intros _. exists (objects w), continuationToken, out. split; [done|]. right. by right.
  - intros _. exists (objects w), continuationToken, out. split; [done|]. by left.
Qed.


Lemma endless_store_endless key prefix : endless (endless_store key) prefix.
Proof. intros o token. by eexists _, _, _. Qed.


(** Exactly 3 are sent, so the bound is reached. *)
Example copyS3Folder_ceiling_reached :
  let w := mkWorld {[ "base/t/a" := "A" ]} [] [] in
  let r := copyS3Folder (Some "bkt") (endless_store "base/t/a") "base/t" "code/w" None 0 2 w in
  listings (requests r.2) = 3
  ∧ r.1 = Abrupt (JsError "Failed to copy folder: Failed to copy folder: Failed to copy folder: Maximum recursion depth exceeded while copying S3 folder.").
Proof. vm_compute. done. Qed.

(** A listing of four pages against a ceiling of 2: the first three pages are
    copied, then the call fails; [projectHandler] would answer 500. *)
Example copyS3Folder_too_many_pages :
  let w := mkWorld (list_to_map [("base/t/a", "A"); ("base/t/b", "B");
                                 ("base/t/c", "C"); ("base/t/d", "D")]) [] [] in
  let r := copyS3Folder (Some "bkt") (paged_store 1) "base/t" "code/w" None 0 2 w in
  is_normal r.1 = false ∧ listings (requests r.2) = 3.
Proof. vm_compute. done. Qed.

(** C8 (the code departs from the claim): provisioning the template
    [base/node-js], which holds [base/node-js/index.js], into the workspace
    prefix [code/a$$b]. [String.prototype.replace] reads [$$] in its second
    argument as one dollar sign, so the object is copied to
    [code/a$b/index.js], which is not the destination prefix followed by the
    suffix; nothing is stored under [code/a$$b/]. *)
Theorem copyS3Folder_dollar_in_destination :
  let w := mkWorld {[ "base/node-js/index.js" := "console.log(1)" ]} [] [] in
  let r := copyS3Folder (Some "bkt") (paged_store 1000) "base/node-js" "code/a$$b" None 0 10 w in
  r.1 = Normal ()
  ∧ objects r.2 !! "code/a$b/index.js" = Some "console.log(1)"
  ∧ objects r.2 !! "code/a$$b/index.js" = None
  ∧ replace "base/node-js/index.js" "base/node-js" "code/a$$b" = "code/a$b/index.js".
Proof. vm_compute. done. Qed.

End AwsFacts.


(** ** Searching the file tree *)

Module FindFileFacts.
Import FileManager.

(** Induction on a directory tree with the hypothesis for every
    subdirectory. *)
Lemma Directory_tree_ind (P : Directory → Prop) :
  (∀ props fs ds, Forall P ds → P (mkDirectory props fs ds)) →
  ∀ d, P d.
Proof.
  intros step. fix IH 1. intros [props fs ds]. apply step.
  induction ds as [|d ds IHds]; constructor; [apply IH | exact IHds].
Qed.

Lemma latest_app t l1 l2 : latest (latest t l1) l2 = latest t (l1 ++ l2).
Proof. unfold latest. rewrite last_app. by destruct (last l2). Qed.

Lemma scan_files filename (fs : list File) t :
  foldl (λ targetFile file,
           if decide (name file = filename) then Some file else targetFile) t fs
  = latest t (filter (λ f, name f = filename) fs).
Proof.
  revert t. induction fs as [|f fs IH]; intros t; simpl; [done|].
  rewrite IH, filter_cons. case_decide; [|done].
  change (f :: filter _ fs) with ([f] ++ filter (λ f, name f = filename) fs).
  by rewrite <- latest_app.
Qed.

Lemma findFile_latest d filename t :
  findFile d filename t = latest t (matches d filename).
Proof.
  revert t. induction d as [props fs ds IH] using Directory_tree_ind. intros t.
  unfold matches. simpl. rewrite scan_files, filter_app, <- latest_app.
  generalize (latest t (filter (λ f, name f = filename) fs)). clear t.
  induction IH as [|d ds Hd _ IHds]; intros t; simpl; [done|].
  rewrite Hd, IHds, filter_app, <- latest_app. done.
Qed.

(** C9: in a tree where the files named [filename] are, in traversal order
    (the files of a directory in order, then its subdirectories recursively),
    [first], then [between], then [final] (so there are two or more of
    them), [findFileByName] returns [final]; it returns [first] only if the
    two are the same record. *)
Theorem findFileByName_returns_last_match (rootDir : Directory) (filename : string)
    (first final : File) (between : list File) :
  matches rootDir filename = first :: between ++ [final] →
  findFileByName rootDir filename = Some final
  ∧ (first ≠ final → findFileByName rootDir filename ≠ Some first).
Proof.
  intros Hm. assert (H : findFileByName rootDir filename = Some final).
  { unfold findFileByName. rewrite findFile_latest, Hm. unfold latest.
    rewrite app_comm_cons, last_snoc. done. }
  split; [done|]. rewrite H. congruence.
Qed.

(** Whatever the number of matches, the result is the last of them. *)
Lemma findFileByName_last rootDir filename :
  findFileByName rootDir filename = last (matches rootDir filename).
Proof.
  unfold findFileByName. rewrite findFile_latest. unfold latest. by destruct (last _).
Qed.

(** Two files called [index.js], one at the top and one in [src]: the search
    returns the one in [src], visited last. *)
Lemma findFileByName_returns_last_match_witness :
  let top := file_named "index.js" "/index.js" in
  let inner := file_named "index.js" "/src/index.js" in
  let src := mkDirectory (mkProps "/src" DIRECTORY "src" None "/src" (Some "0") 1) [inner] [] in
  let root := mkDirectory (mkProps "root" DIRECTORY "root" None "" None 0)
                          [top; file_named "a.js" "/a.js"] [src] in
  findFileByName root "index.js" = Some inner
  ∧ (top ≠ inner → findFileByName root "index.js" ≠ Some top).
Proof.
  cbv zeta.
  apply (findFileByName_returns_last_match _ "index.js" _ _ []).
  reflexivity.
Defined.

End FindFileFacts.


(** ** Merging directory listings *)

Module CodingPageFacts.
Import CodingPage.

Lemma findIndex_app_hit {A} (p : A → bool) pre x rest :
  p x = true →
  findIndex p (pre ++ x :: rest) = Some (length pre) ↔ Forall (λ y, p y = false) pre.
Proof.
  intros Hx. induction pre as [|y pre IH]; simpl.
  - rewrite Hx. split; [constructor|done].
  - destruct (p y) eqn:Hy.
    + split; [done|]. intros H. apply Forall_cons in H as [H _]. congruence.
    + rewrite Forall_cons. destruct (findIndex p (pre ++ x :: rest)) as [i|]; simpl.
      * split.
        -- intros [= ->]. split; [done|]. by apply IH.
        -- intros [_ H]. apply IH in H. by injection H as ->.
      * split; [done|]. intros [_ H]. by apply IH in H.
Qed.

Lemma filter_from_firsts pre suf :
  filter_from
    (λ file index,
       bool_decide (Some index = findIndex (same_path file) (pre ++ suf)))
    (length pre) suf
  = firsts (RemoteFile.path <$> pre) suf.
Proof.
  revert pre. induction suf as [|x suf IH]; intros pre; simpl; [done|].
  specialize (IH (pre ++ [x])).
  rewrite <- app_assoc, length_app, fmap_app in IH. simpl in IH.
  rewrite Nat.add_1_r in IH. rewrite IH. clear IH.
  assert (Hx : same_path x x = true) by (unfold same_path; by apply bool_decide_eq_true).
  pose proof (findIndex_app_hit (same_path x) pre x suf Hx) as Hidx.
  case_bool_decide as Hc; case_decide as Hin; try done.
  - exfalso. symmetry in Hc. apply Hidx in Hc.
    apply list_elem_of_fmap in Hin as (y & Hy & Hyin).
    rewrite Forall_forall in Hc. specialize (Hc y Hyin).
    unfold same_path in Hc. apply bool_decide_eq_false in Hc. congruence.
  - exfalso. apply Hc. symmetry. apply Hidx. apply Forall_forall. intros y Hy.
    unfold same_path. apply bool_decide_eq_false. intros Heq. apply Hin.
    apply list_elem_of_fmap. eauto.
Qed.

Lemma merge_firsts prev data : merge prev data = firsts [] (prev ++ data).
Proof. exact (filter_from_firsts [] (prev ++ data)). Qed.

Lemma firsts_fresh seen l x : x ∈ firsts seen l → RemoteFile.path x ∉ seen.
Proof.
  revert seen. induction l as [|y l IH]; intros seen; simpl; [by intros ?%elem_of_nil|].
  case_decide as Hin.
  - intros H%IH. set_solver.
  - intros [->|H%IH]%elem_of_cons; set_solver.
Qed.

Lemma firsts_NoDup seen l : NoDup (RemoteFile.path <$> firsts seen l).
Proof.
  revert seen. induction l as [|y l IH]; intros seen; simpl; [constructor|].
  case_decide; [apply IH|]. rewrite fmap_cons. constructor; [|apply IH].
  intros (z & Hz & Hin)%list_elem_of_fmap. apply firsts_fresh in Hin. set_solver.
Qed.

Lemma entry_at_firsts p seen l :
  entry_at p (firsts seen l) = if decide (p ∈ seen) then None else entry_at p l.
Proof.
  revert seen. induction l as [|y l IH]; intros seen; simpl.
  - by case_decide.
  - assert (Hsnoc : p ∈ seen ++ [RemoteFile.path y] ↔ p ∈ seen ∨ p = RemoteFile.path y).
    { rewrite elem_of_app, list_elem_of_singleton. done. }
    unfold entry_at in *. case_decide as Hy; simpl.
    + rewrite IH. case_bool_decide as Hp.
      * subst p. rewrite !decide_True; [done|done|]. apply Hsnoc. by left.
      * destruct (decide (p ∈ seen)) as [Hin|Hin].
        -- rewrite decide_True; [done|]. apply Hsnoc. by left.
        -- rewrite decide_False; [done|]. rewrite Hsnoc. intros [?|?]; congruence.
    + case_bool_decide as Hp.
      * subst p. by rewrite decide_False.
      * rewrite IH. destruct (decide (p ∈ seen)) as [Hin|Hin].
        -- rewrite decide_True; [done|]. apply Hsnoc. by left.
        -- rewrite decide_False; [done|]. rewrite Hsnoc. intros [?|?]; congruence.
Qed.

Lemma entry_at_app p l1 l2 :
  entry_at p (l1 ++ l2) =
  match entry_at p l1 with Some e => Some e | None => entry_at p l2 end.
Proof.
  unfold entry_at. induction l1 as [|x l1 IH]; simpl; [done|]. by case_bool_decide.
Qed.

Lemma entry_at_merge p prev data :
  entry_at p (merge prev data) =
  match entry_at p prev with Some e => Some e | None => entry_at p data end.
Proof.
  rewrite merge_firsts, entry_at_firsts, decide_False by set_solver.
  apply entry_at_app.
Qed.

Lemma merge_NoDup prev data : NoDup (RemoteFile.path <$> merge prev data).
Proof. rewrite merge_firsts. apply firsts_NoDup. Qed.

Lemma entry_at_accumulated p rootContent responses :
  entry_at p (accumulated rootContent responses) =
  entry_at p (rootContent ++ concat responses).
Proof.
  unfold accumulated. revert rootContent.
  induction responses as [|data responses IH]; intros rootContent; simpl.
  - by rewrite app_nil_r.
  - rewrite IH, app_assoc, !entry_at_app, entry_at_merge. done.
Qed.

Lemma accumulated_NoDup rootContent responses :
  responses ≠ [] ∨ NoDup (RemoteFile.path <$> rootContent) →
  NoDup (RemoteFile.path <$> accumulated rootContent responses).
Proof.
  unfold accumulated. intros Hne.
  destruct responses as [|data responses _] using rev_ind.
  - by destruct Hne.
  - rewrite foldl_app. simpl. apply merge_NoDup.
Qed.

(** C4, the claim as stated fails: a file [/x] was seen, then a listing
    reports a directory under the same path; the merge keeps the file, not
    the newly fetched directory. *)
Lemma merge_drops_newly_fetched :
  ¬ (∀ prev data new old,
       new ∈ data → old ∈ prev → RemoteFile.path old = RemoteFile.path new →
       new ∈ merge prev data).
Proof.
  intros H.
  assert (Hin : RemoteFile.mk RemoteFile.dir "x" "/x"
                ∈ merge [RemoteFile.mk RemoteFile.file "x" "/x"]
                        [RemoteFile.mk RemoteFile.dir "x" "/x"]).
  { apply (H _ _ _ (RemoteFile.mk RemoteFile.file "x" "/x")); [left|left|done]. }
  vm_compute in Hin. apply list_elem_of_singleton in Hin. discriminate Hin.
Qed.

(** C4 as amended: no two entries of a merged listing have the same path,
    and so none of the accumulated listing once a reply has been merged (or
    when the root listing had none); the entry kept for a path is the one
    seen first, so a previously seen entry wins over a newly fetched one with
    its path; and on the workspace [{a/, a/x.txt, b.txt}], fetching [a/]
    (once or twice) accumulates exactly the three entries. *)
Theorem merge_keeps_first_seen (prev data : list RemoteFile.t) (p : string) :
  NoDup (RemoteFile.path <$> merge prev data)
  ∧ entry_at p (merge prev data) =
      match entry_at p prev with Some e => Some e | None => entry_at p data end
  ∧ (∀ rootContent responses,
       (responses ≠ [] ∨ NoDup (RemoteFile.path <$> rootContent) →
        NoDup (RemoteFile.path <$> accumulated rootContent responses))
       ∧ entry_at p (accumulated rootContent responses) =
           entry_at p (rootContent ++ concat responses))
  ∧ accumulated root_listing [a_listing] =
      [RemoteFile.mk RemoteFile.dir "a" "/a"; RemoteFile.mk RemoteFile.file "b.txt" "/b.txt";
       RemoteFile.mk RemoteFile.file "x.txt" "/a/x.txt"]
  ∧ accumulated root_listing [a_listing; a_listing] = accumulated root_listing [a_listing].
Proof.
  split_and!.
  - apply merge_NoDup.
  - apply entry_at_merge.
  - intros rootContent responses. split.
    + apply accumulated_NoDup.
    + apply entry_at_accumulated.
  - reflexivity.
  - reflexivity.
Qed.

End CodingPageFacts.


(** ** Paths *)

Module PathFacts.
Import JsString FileManager.

Lemma string_app_cons c a b : String c a +:+ b = String c (a +:+ b).
Proof. reflexivity. Qed.

Lemma string_app_assoc a b c : (a +:+ b) +:+ c = a +:+ (b +:+ c).
Proof. induction a as [|x a IH]; [done|]. by rewrite !string_app_cons, IH. Qed.

Lemma string_length_app a b : String.length (a +:+ b) = String.length a + String.length b.
Proof. induction a as [|x a IH]; [done|]. rewrite string_app_cons. simpl. by rewrite IH. Qed.

Lemma split_not_nil sep s : split sep s ≠ [].
Proof.
  destruct s as [|c s]; simpl; [done|].
  case_decide; [done|]. by destruct (split sep s).
Qed.

Lemma join_cons sep x l : l ≠ [] → join sep (x :: l) = x +:+ sep +:+ join sep l.
Proof. by destruct l. Qed.

Lemma join_split sep s : join (String sep EmptyString) (split sep s) = s.
Proof.
  induction s as [|c s IH]; simpl; [done|].
  pose proof (split_not_nil sep s) as Hne.
  case_decide as Hc.
  - subst c. rewrite join_cons by done. simpl. by rewrite IH.
  - destruct (split sep s) as [|seg segs]; [done|].
    destruct segs as [|seg' segs].
    + simpl in *. by rewrite IH.
    + rewrite join_cons by done. rewrite join_cons in IH by done.
      rewrite <- IH. reflexivity.
Qed.

Lemma join_snoc sep l x : l ≠ [] → join sep (l ++ [x]) = join sep l +:+ sep +:+ x.
Proof.
  induction l as [|y l IH]; [done|]. intros _.
  destruct l as [|z l]; [reflexivity|].
  change ((y :: z :: l) ++ [x]) with (y :: ((z :: l) ++ [x])).
  rewrite join_cons by (by destruct l). rewrite IH by done.
  rewrite (join_cons _ y) by done. by rewrite !string_app_assoc.
Qed.

Lemma slice_0_m1_snoc {A} (l : list A) x : slice_0_m1 (l ++ [x]) = l.
Proof.
  unfold slice_0_m1. rewrite length_app. simpl.
  replace (length l + 1 - 1) with (length l) by lia. by rewrite take_app_length.
Qed.

(** A path of one segment has the empty parent path; a longer one is its
    parent path, a slash and its last segment. *)
Lemma parent_path_cases p :
  (segments p = 1 ∧ parent_path p = "")
  ∨ (2 ≤ segments p ∧ ∃ name, p = parent_path p +:+ "/" +:+ name).
Proof.
  unfold segments, parent_path. pose proof (join_split "/" p) as Hj.
  pose proof (split_not_nil "/" p) as Hne.
  destruct (split "/" p) as [|name l _] using rev_ind; [done|].
  rewrite slice_0_m1_snoc, length_app. simpl.
  destruct l as [|y l].
  - left. done.
  - right. split; [simpl; lia|]. exists name. rewrite join_snoc in Hj by done. done.
Qed.

Lemma parent_path_shorter p :
  parent_path p ≠ "" → String.length (parent_path p) < String.length p.
Proof.
  intros Hne. destruct (parent_path_cases p) as [[_ ?]|[_ [name Hp]]]; [done|].
  apply (f_equal String.length) in Hp. rewrite !string_length_app in Hp.
  simpl in Hp. lia.
Qed.

Lemma slashes_app a b : slashes (a +:+ b) = slashes a + slashes b.
Proof.
  induction a as [|c a IH]; [done|]. rewrite string_app_cons. simpl.
  case_decide; lia.
Qed.

Lemma segments_slashes s : segments s = S (slashes s).
Proof.
  unfold segments. induction s as [|c s IH]; simpl; [done|].
  case_decide; simpl; [by rewrite IH|].
  pose proof (split_not_nil "/" s). destruct (split "/" s); [done|]. simpl in *. lia.
Qed.

Lemma split_no_slash s : Forall (λ x, slashes x = 0) (split "/" s).
Proof.
  induction s as [|c s IH]; simpl; [by repeat constructor|].
  case_decide as Hc; [by constructor|].
  destruct (split "/" s) as [|seg segs].
  - constructor; [|constructor]. simpl. by rewrite decide_False.
  - apply Forall_cons in IH as [Hseg Hsegs]. constructor; [|done].
    simpl. by rewrite decide_False.
Qed.

Lemma slashes_join l :
  Forall (λ x, slashes x = 0) l → slashes (join "/" l) = length l - 1.
Proof.
  induction 1 as [|x l Hx Hl IH]; [done|].
  destruct l as [|y l]; [simpl; lia|].
  rewrite join_cons by done. rewrite !slashes_app, IH, Hx. simpl. lia.
Qed.

Lemma segments_parent_path p : 2 ≤ segments p → segments (parent_path p) = segments p - 1.
Proof.
  intros Hp. rewrite (segments_slashes (parent_path p)). unfold parent_path.
  rewrite slashes_join.
  - unfold slice_0_m1, segments in *. rewrite length_take. lia.
  - unfold slice_0_m1. apply Forall_take, split_no_slash.
Qed.

Lemma parent_path_not_zero p : segments p ≠ 2 → parent_path p ≠ "0".
Proof.
  intros Hp Hz. destruct (parent_path_cases p) as [[_ H]|[Hge _]]; [congruence|].
  pose proof (segments_parent_path p Hge) as Hs. rewrite Hz in Hs.
  change (segments "0") with 1 in Hs. lia.
Qed.

Lemma two_segments_not_empty p : segments p = 2 → p ≠ "".
Proof. by intros H ->. Qed.

End PathFacts.


(** ** Building the file tree *)

Module BuildFacts.
Import Js JsString FileManager PathFacts.

(** *** Filling the cache *)

Section cache_fold.
Context {X : Type} (key : X → string) (val : X → Obj).

Lemma put_fold_objs l h k :
  objs (foldl (put key val) h l) !! k =
  match last (filter (λ x, key x = k) l) with
  | Some x => Some (val x)
  | None => objs h !! k
  end.
Proof.
  revert h. induction l as [|x l IH]; intros h; simpl; [done|].
  rewrite IH, filter_cons. unfold put, cache_set. simpl.
  rewrite lookup_insert. case_decide as Hk.
  - rewrite last_cons. by destruct (last _).
  - done.
Qed.

Lemma put_fold_order l h k :
  k ∈ order (foldl (put key val) h l) ↔ k ∈ order h ∨ ∃ x, x ∈ l ∧ key x = k.
Proof.
  revert h. induction l as [|x l IH]; intros h; simpl.
  - split; [by left|]. intros [?|(x & Hx & _)]; [done|]. by apply elem_of_nil in Hx.
  - rewrite IH. unfold put, cache_set. simpl. split.
    + intros [Hin|(y & Hy & Hk)].
      * case_decide; [by left|].
        apply elem_of_app in Hin as [?|Hin]; [by left|].
        apply list_elem_of_singleton in Hin. subst k.
        right. exists x. split; [left|done].
      * right. exists y. split; [by right|done].
    + intros [Hin|(y & Hy & Hk)].
      * left. case_decide; [done|]. apply elem_of_app. by left.
      * apply elem_of_cons in Hy as [->|Hy].
        -- left. case_decide; [by subst|]. apply elem_of_app. right. subst. by left.
        -- right. eauto.
Qed.

Lemma put_fold_NoDup l h : NoDup (order h) → NoDup (order (foldl (put key val) h l)).
Proof.
  revert h. induction l as [|x l IH]; intros h Hnd; simpl; [done|].
  apply IH. unfold put, cache_set. simpl. case_decide; [done|].
  apply NoDup_app. split_and!; [done| |apply NoDup_singleton].
  intros y Hy Hy'. apply list_elem_of_singleton in Hy'. by subst.
Qed.

Lemma put_fold_root l h : rootDir (foldl (put key val) h l) = rootDir h.
Proof. revert h. induction l as [|x l IH]; intros h; simpl; [done|]. by rewrite IH. Qed.

End cache_fold.

Section build.
Variable data : list RemoteFile.t.

Local Abbreviation dirs := (listed_dirs data).
Local Abbreviation files := (listed_files data).

Lemma dir_at_spec k :
  dir_at data k = true ↔ ∃ x, x ∈ dirs ∧ RemoteFile.path x = k.
Proof.
  unfold dir_at, dirs. rewrite existsb_exists. split.
  - intros (x & Hx & Hb). apply bool_decide_eq_true in Hb as [Ht Hp].
    exists x. split; [|done]. apply list_elem_of_In, filter_In.
    split; [done|]. by apply bool_decide_eq_true.
  - intros (x & Hx & Hp). apply list_elem_of_In, filter_In in Hx as [Hx Ht].
    apply bool_decide_eq_true in Ht. exists x. split; [done|].
    by apply bool_decide_eq_true.
Qed.

Lemma file_at_spec k :
  file_at data k = true ↔ ∃ x, x ∈ files ∧ RemoteFile.path x = k.
Proof.
  unfold file_at, files. rewrite existsb_exists. split.
  - intros (x & Hx & Hb). apply bool_decide_eq_true in Hb as [Ht Hp].
    exists x. split; [|done]. apply list_elem_of_In, filter_In.
    split; [done|]. by apply bool_decide_eq_true.
  - intros (x & Hx & Hp). apply list_elem_of_In, filter_In in Hx as [Hx Ht].
    apply bool_decide_eq_true in Ht. exists x. split; [done|].
    by apply bool_decide_eq_true.
Qed.

Lemma entry_spec k : entry data k = true ↔ ∃ x, x ∈ data ∧ RemoteFile.path x = k.
Proof.
  unfold entry. rewrite orb_true_iff, dir_at_spec, file_at_spec. unfold dirs, files. split.
  - intros [(x & Hx & Hp)|(x & Hx & Hp)];
      apply list_elem_of_In, filter_In in Hx as [Hx _]; exists x;
      (split; [by apply list_elem_of_In|done]).
  - intros (x & Hx & Hp). apply list_elem_of_In in Hx.
    destruct (RemoteFile.type x) eqn:Ht; [right|left]; exists x;
      (split; [|done]); apply list_elem_of_In, filter_In;
      (split; [done|]); by apply bool_decide_eq_true.
Qed.

Lemma last_filter_path (l : list RemoteFile.t) k :
  match last (filter (λ x, RemoteFile.path x = k) l) with
  | Some x => x ∈ l ∧ RemoteFile.path x = k
  | None => ¬ ∃ x, x ∈ l ∧ RemoteFile.path x = k
  end.
Proof.
  destruct (last _) as [x|] eqn:Hl.
  - apply last_Some_elem_of in Hl. by apply list_elem_of_filter in Hl as [? ?].
  - apply last_None in Hl. intros (x & Hx & Hp).
    assert (x ∈ filter (λ x, RemoteFile.path x = k) l) as Hin
      by (by apply list_elem_of_filter).
    rewrite Hl in Hin. by apply elem_of_nil in Hin.
Qed.

(** The cache after the two loops: one object per path of the listing,
    without children yet; a file where the listing has a file with the path,
    a directory otherwise; [parentId] as computed from the path. *)
Lemma cached_lookup k :
  objs (cached data) !! k =
  if file_at data k then
    (λ x, FileObj (mkProps k FILE (RemoteFile.name x) None k (parentId_for dirs k) 0))
      <$> last (filter (λ x, RemoteFile.path x = k) files)
  else
    (λ x, DirObj (mkProps k DIRECTORY (RemoteFile.name x) None k (parentId_for dirs k) 0) [] [])
      <$> last (filter (λ x, RemoteFile.path x = k) dirs).
Proof.
  unfold cached. fold dirs. fold files.
  rewrite (put_fold_objs RemoteFile.path
             (λ item, FileObj (mkProps (RemoteFile.path item) FILE (RemoteFile.name item) None
                                 (RemoteFile.path item)
                                 (parentId_for dirs (RemoteFile.path item)) 0))).
  rewrite (put_fold_objs RemoteFile.path
             (λ item, DirObj (mkProps (RemoteFile.path item) DIRECTORY (RemoteFile.name item) None
                                 (RemoteFile.path item)
                                 (parentId_for dirs (RemoteFile.path item)) 0) [] [])).
  simpl. rewrite lookup_empty.
  pose proof (last_filter_path files k) as Hf.
  pose proof (last_filter_path dirs k) as Hd.
  destruct (file_at data k) eqn:Hfa.
  - apply file_at_spec in Hfa.
    destruct (last (filter _ files)) as [x|]; [|done]. destruct Hf as [_ <-]. done.
  - destruct (last (filter _ files)) as [x|].
    + assert (file_at data k = true) by (apply file_at_spec; eauto). congruence.
    + destruct (last (filter _ dirs)) as [x|]; [|done]. destruct Hd as [_ <-]. done.
Qed.

Lemma cached_dom k : is_Some (objs (cached data) !! k) ↔ entry data k = true.
Proof.
  rewrite cached_lookup. unfold entry.
  pose proof (last_filter_path files k) as Hf.
  pose proof (last_filter_path dirs k) as Hd.
  destruct (file_at data k) eqn:Hfa.
  - rewrite orb_true_r. apply file_at_spec in Hfa.
    destruct (last _); [by split; eauto|]. done.
  - rewrite orb_false_r. rewrite dir_at_spec.
    destruct (last (filter _ dirs)) as [x|]; simpl.
    + split; eauto.
    + split; [by intros [? ?]|]. done.
Qed.

Lemma cached_order k : k ∈ order (cached data) ↔ entry data k = true.
Proof.
  unfold cached. fold dirs. fold files.
  rewrite (put_fold_order RemoteFile.path
             (λ item, FileObj (mkProps (RemoteFile.path item) FILE (RemoteFile.name item) None
                                 (RemoteFile.path item)
                                 (parentId_for dirs (RemoteFile.path item)) 0))).
  rewrite (put_fold_order RemoteFile.path
             (λ item, DirObj (mkProps (RemoteFile.path item) DIRECTORY (RemoteFile.name item) None
                                 (RemoteFile.path item)
                                 (parentId_for dirs (RemoteFile.path item)) 0) [] [])).
  simpl. unfold entry. rewrite orb_true_iff, dir_at_spec, file_at_spec.
  split.
  - intros [[H|H]|H]; [by apply elem_of_nil in H|by left|by right].
  - intros [H|H]; [left; by right|by right].
Qed.

Lemma cached_root :
  rootDir (cached data) =
  DirObj (mkProps "root" DIRECTORY "root" None "" None 0) [] [].
Proof.
  unfold cached.
  rewrite (put_fold_root RemoteFile.path
             (λ item, FileObj (mkProps (RemoteFile.path item) FILE (RemoteFile.name item) None
                                 (RemoteFile.path item)
                                 (parentId_for dirs (RemoteFile.path item)) 0))).
  rewrite (put_fold_root RemoteFile.path
             (λ item, DirObj (mkProps (RemoteFile.path item) DIRECTORY (RemoteFile.name item) None
                                 (RemoteFile.path item)
                                 (parentId_for dirs (RemoteFile.path item)) 0) [] [])).
  done.
Qed.

(** How [parentId] comes out for a path. *)
Lemma parentId_for_cases k :
  (segments k = 2 ∧ parentId_for dirs k = Some "0")
  ∨ (segments k ≠ 2 ∧ dir_at data (parent_path k) = true
     ∧ parentId_for dirs k = Some (parent_path k) ∧ parent_path k ≠ "0")
  ∨ (segments k ≠ 2 ∧ dir_at data (parent_path k) = false ∧ parentId_for dirs k = None).
Proof.
  unfold parentId_for. fold (segments k). case_decide as Hs; [by left|]. right.
  destruct (List.find _ dirs) as [x|] eqn:Hfind.
  - left. apply find_some in Hfind as [Hx Hp]. apply bool_decide_eq_true in Hp.
    split_and!; [done| |by simpl; rewrite Hp|by apply parent_path_not_zero].
    apply dir_at_spec. exists x. split; [by apply list_elem_of_In|done].
  - right. split_and!; [done| |done].
    destruct (dir_at data (parent_path k)) eqn:Hd; [|done].
    apply dir_at_spec in Hd as (x & Hx & Hp).
    apply list_elem_of_In in Hx. pose proof (find_none _ _ Hfind x Hx) as Hn.
    simpl in Hn. apply bool_decide_eq_false in Hn. done.
Qed.

(** *** The linking pass *)

Lemma Grows_refl h : Grows h h.
Proof. split; [done|]. intros pp o Ho. by exists o. Qed.

Lemma Grows_trans h1 h2 h3 : Grows h1 h2 → Grows h2 h3 → Grows h1 h3.
Proof.
  intros [Hr12 Ho12] [Hr23 Ho23]. split; [by etrans|].
  intros pp o Ho. destruct (Ho12 pp o Ho) as (o2 & Ho2 & Hsub).
  destruct (Ho23 pp o2 Ho2) as (o3 & Ho3 & Hsub'). exists o3. split; [done|by etrans].
Qed.

Lemma attached_Grows h h' k : Grows h h' → attached h k → attached h' k.
Proof.
  intros [Hr Ho]. unfold attached. case_decide; [by apply Hr|].
  intros (po & Hpo & Hin). destruct (Ho _ _ Hpo) as (po' & Hpo' & Hsub).
  exists po'. split; [done|by apply Hsub].
Qed.

Lemma cached_Good : Good data (cached data).
Proof.
  split_and!.
  - by rewrite cached_root.
  - apply cached_dom.
  - intros k o. rewrite cached_lookup.
    destruct (file_at data k); destruct (last _); intros [= <-]; done.
  - rewrite cached_root. by intros r ?%elem_of_nil.
  - intros pp o r. rewrite cached_lookup.
    destruct (file_at data pp); destruct (last _); intros [= <-] ?%elem_of_nil; done.
Qed.

Lemma push_child_dir value r parent :
  is_dir parent = true →
  ∃ o', push_child value r parent = Normal o'
        ∧ is_dir o' = true
        ∧ props_of o' = props_of parent
        ∧ ∀ x, x ∈ children o' ↔ x = r ∨ x ∈ children parent.
Proof.
  destruct parent as [|p fs ds]; [done|]. intros _. simpl.
  eexists. split; [done|]. case_decide; simpl; (split_and!; [done..|]);
    intros x; unfold children; simpl;
    rewrite ?elem_of_app, ?list_elem_of_singleton; tauto.
Qed.

Lemma push_child_file value r parent :
  is_dir parent = false → ∃ e, push_child value r parent = Abrupt e.
Proof. destruct parent; [by eexists|done]. Qed.

Lemma link_one_ok h k :
  Good data h → entry data k = true → linkable data k = true →
  ∃ h', link_one h k = Normal h' ∧ Good data h' ∧ order h' = order h ∧ Grows h h'
        ∧ attached h' k.
Proof.
  intros (Hroot & Hdom & Hobj & Hrc & Hoc) Hk Hlink.
  destruct (proj2 (Hdom k) Hk) as [value Hvalue].
  destruct (Hobj k value Hvalue) as [Hpid _].
  unfold link_one. rewrite Hvalue, Hpid.
  destruct (parentId_for_cases k) as [[Hs ->]|[(Hs & Hd & -> & Hnz)|(Hs & Hd & ->)]].
  - (* two segments: a child of the root *)
    rewrite decide_True by done.
    destruct (push_child_dir value (CacheRef k) (rootDir h) Hroot)
      as (root' & -> & Hdir' & _ & Hch).
    eexists. split; [done|]. split_and!; simpl.
    + split_and!; simpl; [done..| |done].
      intros r [->|Hr]%Hch; [|by apply Hrc]. by exists k.
    + done.
    + split; simpl; [|intros pp o Ho; by exists o]. intros x Hx. apply Hch. by right.
    + unfold attached. rewrite decide_True by done. simpl. apply Hch. by left.
  - (* the parent is in the cache *)
    unfold linkable in Hlink. rewrite bool_decide_eq_false_2 in Hlink by done.
    rewrite Hd in Hlink. simpl in Hlink. apply negb_true_iff in Hlink.
    rewrite decide_False by congruence. simpl.
    destruct (proj2 (Hdom (parent_path k))) as [po Hpo].
    { unfold entry. by rewrite Hd. }
    rewrite Hpo. simpl.
    destruct (Hobj _ _ Hpo) as [Hppid Hpdir]. rewrite Hlink in Hpdir. simpl in Hpdir.
    destruct (push_child_dir value (CacheRef k) po Hpdir) as (po' & -> & Hdir' & Hprops & Hch).
    eexists. split; [done|]. split_and!; simpl.
    + split_and!; simpl.
      * done.
      * intros k'. rewrite <- Hdom. rewrite lookup_insert. case_decide; [|done].
        subst k'. rewrite Hpo. split; eauto.
      * intros k' o'. rewrite lookup_insert. case_decide as Hk'.
        -- intros [= <-]. subst k'. rewrite Hprops, Hdir'. split; [done|].
           by rewrite Hlink.
        -- apply Hobj.
      * done.
      * intros pp o r. rewrite lookup_insert. case_decide as Hpp.
        -- intros [= <-] [->|Hr]%Hch.
           ++ exists k. by subst pp.
           ++ subst pp. by apply (Hoc _ po).
        -- apply Hoc.
    + done.
    + split; simpl; [done|]. intros pp o Ho. rewrite lookup_insert. case_decide as Hpp.
      * subst pp. rewrite Hpo in Ho. injection Ho as <-. exists po'. split; [done|].
        intros x Hx. apply Hch. by right.
      * by exists o.
    + unfold attached. rewrite decide_False by done. simpl. exists po'.
      split; [apply lookup_insert_eq|]. apply Hch. by left.
  - (* no parent: not linkable *)
    unfold linkable in Hlink. rewrite bool_decide_eq_false_2 in Hlink by done.
    by rewrite Hd in Hlink.
Qed.

Lemma link_one_bad h k :
  Good data h → entry data k = true → linkable data k = false →
  ∃ e, link_one h k = Abrupt e.
Proof.
  intros (Hroot & Hdom & Hobj & Hrc & Hoc) Hk Hlink.
  destruct (proj2 (Hdom k) Hk) as [value Hvalue].
  destruct (Hobj k value Hvalue) as [Hpid _].
  unfold link_one. rewrite Hvalue, Hpid.
  unfold linkable in Hlink. apply orb_false_iff in Hlink as [Hs Hlink].
  apply bool_decide_eq_false in Hs.
  destruct (parentId_for_cases k) as [[Hs' _]|[(_ & Hd & -> & Hnz)|(_ & Hd & ->)]]; [done| |].
  - rewrite Hd in Hlink. simpl in Hlink. apply negb_false_iff in Hlink.
    rewrite decide_False by congruence. simpl.
    destruct (proj2 (Hdom (parent_path k))) as [po Hpo].
    { unfold entry. by rewrite Hd. }
    rewrite Hpo. simpl.
    destruct (Hobj _ _ Hpo) as [_ Hpdir]. rewrite Hlink in Hpdir. simpl in Hpdir.
    destruct (push_child_file value (CacheRef k) po Hpdir) as [e ->]. by exists e.
  - rewrite decide_False by done. simpl. by eexists.
Qed.

Lemma link_ok keys h :
  Good data h →
  Forall (λ k, entry data k = true ∧ linkable data k = true) keys →
  ∃ h', link keys h = Normal h' ∧ Good data h' ∧ order h' = order h ∧ Grows h h'
        ∧ Forall (attached h') keys.
Proof.
  intros Hgood Hkeys. revert h Hgood.
  induction Hkeys as [|k keys [Hk Hl] _ IH]; intros h Hgood; simpl.
  - exists h. split_and!; [done..|apply Grows_refl|constructor].
  - destruct (link_one_ok h k Hgood Hk Hl) as (h1 & -> & Hgood1 & Hord1 & Hgrow1 & Hatt).
    destruct (IH h1 Hgood1) as (h' & -> & Hgood' & Hord' & Hgrow' & Hall).
    exists h'. split_and!; [done|done|congruence|by eapply Grows_trans|].
    constructor; [by eapply attached_Grows|done].
Qed.

Lemma link_bad keys h :
  Good data h →
  Forall (λ k, entry data k = true) keys →
  Exists (λ k, linkable data k = false) keys →
  ∃ e, link keys h = Abrupt e.
Proof.
  intros Hgood Hkeys. revert h Hgood.
  induction Hkeys as [|k keys Hk _ IH]; intros h Hgood Hex; simpl.
  - by apply Exists_nil in Hex.
  - destruct (linkable data k) eqn:Hl.
    + destruct (link_one_ok h k Hgood Hk Hl) as (h1 & -> & Hgood1 & _).
      apply IH; [done|]. apply Exists_cons in Hex as [Hex|Hex]; [congruence|done].
    + destruct (link_one_bad h k Hgood Hk Hl) as [e ->]. by exists e.
Qed.

End build.

End BuildFacts.


Module DepthFacts.
Import Js JsString FileManager PathFacts BuildFacts.

(** *** The depth pass *)

Lemma SameKids_refl h : SameKids h h.
Proof. by intros r. Qed.

Lemma SameKids_trans h1 h2 h3 : SameKids h1 h2 → SameKids h2 h3 → SameKids h1 h3.
Proof.
  intros H12 H23 r. destruct (H23 r) as [-> ->]. destruct (H12 r) as [-> ->]. done.
Qed.

Lemma SameKids_set_depth r d h : SameKids h (set_depth r d h).
Proof.
  intros r'. destruct r as [|k]; destruct r' as [|k']; simpl; try done.
  - by destruct (rootDir h).
  - rewrite lookup_alter. case_decide as Hk; [subst k'|done].
    destruct (objs h !! k) as [[]|]; done.
Qed.

Lemma SameKids_children h h' r o :
  SameKids h h' → deref r h = Some o →
  ∃ o', deref r h' = Some o' ∧ children o' = children o.
Proof.
  intros Hs Ho. destruct (Hs r) as [Hf Hd]. rewrite Ho in Hf, Hd.
  destruct (deref r h') as [o'|]; [|done]. simpl in *.
  exists o'. split; [done|]. unfold children. congruence.
Qed.

Lemma attached_SameKids h h' k : SameKids h h' → attached h k → attached h' k.
Proof.
  intros Hs. unfold attached. case_decide.
  - destruct (SameKids_children h h' RootRef (rootDir h) Hs eq_refl) as (o' & [= <-] & ->).
    done.
  - intros (po & Hpo & Hin).
    destruct (SameKids_children h h' (CacheRef (parent_path k)) po Hs Hpo)
      as (o' & Ho' & Hch).
    exists o'. split; [done|]. by rewrite Hch.
Qed.

Section descent.
Variable M : nat.

Lemma Descends_SameKids h h' : SameKids h h' → Descends M h → Descends M h'.
Proof.
  intros Hs Hd r o' r' Hw Ho' Hr'. destruct (Hs r) as [_ Hdirs].
  rewrite Ho' in Hdirs. destruct (deref r h) as [o|] eqn:Ho; [|done].
  simpl in Hdirs. injection Hdirs as Hdirs. rewrite Hdirs in Hr'. by eapply Hd.
Qed.

Lemma set_depth_files d files h :
  SameKids h (foldl (λ h file, set_depth file d h) h files).
Proof.
  revert h. induction files as [|f files IH]; intros h; simpl; [apply SameKids_refl|].
  eapply SameKids_trans; [apply (SameKids_set_depth f d)|apply IH].
Qed.

Lemma getDepth_returns fuel r curDepth h :
  Descends M h → walkable M r → room M r < fuel →
  ∃ h', getDepth fuel r curDepth h = Some h' ∧ SameKids h h'.
Proof.
  revert r curDepth h. induction fuel as [|fuel IH]; intros r curDepth h Hd Hw Hroom; [lia|].
  simpl. destruct (deref r h) as [o|] eqn:Ho; [|exists h; split; [done|apply SameKids_refl]].
  pose proof (set_depth_files (curDepth + 1) (files_of o) h) as Hfiles.
  set (h1 := foldl _ h (files_of o)) in *. clearbody h1.
  assert (Hsub : ∀ r', r' ∈ dirs_of o → walkable M r' ∧ room M r' < fuel).
  { intros r' Hr'. destruct (Hd r o r' Hw Ho Hr'). split; [done|lia]. }
  revert Hsub. generalize (dirs_of o). intros ds. revert h1 Hfiles.
  induction ds as [|r' ds IHds]; intros h1 Hfiles Hsub; simpl.
  - by exists h1.
  - destruct (Hsub r') as [Hw' Hroom']; [left|].
    destruct (IH r' (curDepth + 1) (set_depth r' (curDepth + 1) h1)) as (h2 & -> & Hs2);
      [|done|done|].
    { eapply Descends_SameKids; [|done].
      eapply SameKids_trans; [done|apply SameKids_set_depth]. }
    apply IHds.
    + eapply SameKids_trans; [done|].
      eapply SameKids_trans; [apply SameKids_set_depth|done].
    + intros r'' Hr''. apply Hsub. by right.
Qed.

End descent.

Lemma forallb_false {A} (f : A → bool) l :
  forallb f l = false → ∃ x, x ∈ l ∧ f x = false.
Proof.
  induction l as [|y l IH]; simpl; [done|]. destruct (f y) eqn:Hy; simpl.
  - intros (x & Hx & Hf)%IH. exists x. split; [by right|done].
  - intros _. exists y. split; [left|done].
Qed.

Section build.
Variable data : list RemoteFile.t.

Lemma longest_ge k : entry data k = true → String.length k ≤ longest data.
Proof.
  intros (x & Hx & <-)%entry_spec. unfold longest.
  induction data as [|y l IH]; [by apply elem_of_nil in Hx|].
  simpl. apply elem_of_cons in Hx as [->|Hx]; [lia|]. specialize (IH Hx). lia.
Qed.

Lemma Good_Descends h : Good data h → Descends (longest data) h.
Proof.
  intros (Hroot & Hdom & Hobj & Hrc & Hoc) r o r' Hw Ho Hr'.
  assert (Hin : r' ∈ children o) by (unfold children; apply elem_of_app; by right).
  destruct r as [|pp]; simpl in Ho.
  - injection Ho as <-. destruct (Hrc r' Hin) as (k & -> & Hs & Hk).
    pose proof (longest_ge k Hk). pose proof (two_segments_not_empty k Hs).
    simpl. split; [done|lia].
  - destruct (Hoc pp o r' Ho Hin) as (k & -> & Hs & Hpp & Hk).
    pose proof (longest_ge k Hk). destruct Hw as [Hne Hle]. subst pp.
    pose proof (parent_path_shorter k Hne). simpl. split; [|lia].
    split; [|done]. intros ->. simpl in *. lia.
Qed.

Lemma order_entries : Forall (λ k, entry data k = true) (order (cached data)).
Proof. apply Forall_forall. intros k. apply cached_order. Qed.

Lemma well_linked_spec :
  well_linked data = true ↔ ∀ k, entry data k = true → linkable data k = true.
Proof.
  unfold well_linked. rewrite forallb_forall. split.
  - intros H k (x & Hx & <-)%entry_spec. apply H. by apply list_elem_of_In.
  - intros H x Hx. apply H, entry_spec. exists x. split; [by apply list_elem_of_In|done].
Qed.

(** On a well linked listing the call returns, and every entry is in the
    arrays of its parent. *)
Lemma buildFileTree_returns fuel :
  well_linked data = true → enough_fuel data ≤ fuel →
  ∃ h, buildFileTree fuel data = Returned h
       ∧ ∀ x, x ∈ data → attached h (RemoteFile.path x).
Proof.
  intros Hwl Hfuel. unfold buildFileTree.
  destruct (link_ok data (order (cached data)) (cached data) (cached_Good data))
    as (h1 & -> & Hgood & Hord & Hgrow & Hatt).
  { eapply Forall_impl; [apply order_entries|]. intros k Hk. split; [done|].
    by apply well_linked_spec. }
  destruct (getDepth_returns (longest data) fuel RootRef 0 h1) as (h2 & -> & Hs).
  - by apply Good_Descends.
  - done.
  - unfold enough_fuel in Hfuel. simpl. lia.
  - exists h2. split; [done|]. intros x Hx. apply (attached_SameKids h1); [done|].
    rewrite Forall_forall in Hatt. apply Hatt. apply cached_order, entry_spec. eauto.
Qed.

(** On any other listing the linking pass throws, whatever the fuel. *)
Lemma buildFileTree_throws fuel :
  well_linked data = false → ∃ e, buildFileTree fuel data = Threw e.
Proof.
  intros Hwl. unfold buildFileTree.
  destruct (link_bad data (order (cached data)) (cached data) (cached_Good data)
              order_entries) as [e ->]; [|by exists e].
  apply Exists_exists. unfold well_linked in Hwl.
  destruct (forallb_false _ _ Hwl) as (x & Hx & Hl).
  exists (RemoteFile.path x). split; [|done].
  apply cached_order, entry_spec. eauto.
Qed.

(** What the precondition with only the entries of three or more segments
    says is needed, but is not enough. *)
Lemma well_linked_parents_listed : well_linked data = true → parents_listed data.
Proof.
  intros Hwl x Hx Hs. rewrite well_linked_spec in Hwl.
  assert (Hl : linkable data (RemoteFile.path x) = true).
  { apply Hwl, entry_spec. eauto. }
  unfold linkable in Hl. rewrite bool_decide_eq_false_2 in Hl by lia.
  simpl in Hl. by apply andb_true_iff in Hl as [? _].
Qed.

End build.

(** C10, the claim as stated fails: in the listing made of the one file with
    path ["a"], no entry has three or more segments, so the stated
    precondition holds; yet the path has one segment, not two, its parent
    path [""] is no directory of the listing, [parentId] is [undefined], and
    the linking pass throws. *)
Lemma buildFileTree_one_segment_throws :
  parents_listed [RemoteFile.mk RemoteFile.file "a" "a"]
  ∧ ∀ fuel, buildFileTree fuel [RemoteFile.mk RemoteFile.file "a" "a"]
            = Threw (JsError "TypeError: Cannot read properties of undefined (reading 'files')").
Proof.
  split.
  - intros x Hx. apply list_elem_of_singleton in Hx. subst x. vm_compute. lia.
  - intros fuel. reflexivity.
Qed.

(** The stated precondition also holds of a listing where a file has the path
    of the directory that is the parent of another entry; the file replaces
    the directory in the cache, and the linking pass throws when it reaches
    the child. *)
Lemma buildFileTree_shadowed_parent_throws :
  let data := [RemoteFile.mk RemoteFile.dir "a" "/a"; RemoteFile.mk RemoteFile.file "a" "/a";
               RemoteFile.mk RemoteFile.file "x" "/a/x"] in
  parents_listed data
  ∧ ∀ fuel, buildFileTree fuel data
            = Threw (JsError "TypeError: Cannot read properties of undefined (reading 'push')").
Proof.
  cbv zeta. split.
  - intros x Hx Hs. apply list_elem_of_In in Hx. simpl in Hx.
    destruct Hx as [<-|[<-|[<-|[]]]]; vm_compute in Hs |- *; (reflexivity || lia).
  - intros fuel. reflexivity.
Qed.

(** C10 as amended: [buildFileTree] returns exactly on the listings in which
    every entry either has a path of exactly two segments or has, in the
    listing, a directory whose path is its own without the last segment and
    no file with that path ([well_linked]); on every other listing the linking
    pass throws. When it returns, every entry is in the arrays of its parent:
    of the root for two segments, of the object for the parent path
    otherwise. The condition implies the one on entries of three or more
    segments. The depth pass follows references, so the model gives it a
    nesting bound; [enough_fuel data] always suffices. *)
Theorem buildFileTree_returns_iff_well_linked (data : list RemoteFile.t) (fuel : nat) :
  (well_linked data = true → enough_fuel data ≤ fuel →
     ∃ h, buildFileTree fuel data = Returned h
          ∧ ∀ x, x ∈ data → attached h (RemoteFile.path x))
  ∧ (well_linked data = false → ∃ e, buildFileTree fuel data = Threw e)
  ∧ (well_linked data = true → parents_listed data).
Proof.
  split_and!.
  - apply buildFileTree_returns.
  - apply buildFileTree_throws.
  - apply well_linked_parents_listed.
Qed.

(** The workspace [{a/, a/x.txt, b.txt}]: the call returns and the three
    entries are attached. *)
Lemma buildFileTree_returns_iff_well_linked_witness :
  let data := [RemoteFile.mk RemoteFile.dir "a" "/a"; RemoteFile.mk RemoteFile.file "b.txt" "/b.txt";
               RemoteFile.mk RemoteFile.file "x.txt" "/a/x.txt"] in
  ∃ h, buildFileTree (enough_fuel data) data = Returned h
       ∧ ∀ x, x ∈ data → attached h (RemoteFile.path x).
Proof.
  cbv zeta.
  apply (proj1 (buildFileTree_returns_iff_well_linked
                  [RemoteFile.mk RemoteFile.dir "a" "/a";
                   RemoteFile.mk RemoteFile.file "b.txt" "/b.txt";
                   RemoteFile.mk RemoteFile.file "x.txt" "/a/x.txt"] _)).
  - reflexivity.
  - apply le_n.
Defined.

End DepthFacts.


(** ** Provisioning twice *)

Module ProvisioningFacts.
Import Js JsString Aws PathFacts AwsFacts.

Lemma apply_writes_lookup W o k :
  apply_writes W o !! k =
  match last (filter (λ kv, kv.1 = k) W) with
  | Some kv => Some kv.2
  | None => o !! k
  end.
Proof.
  unfold apply_writes. revert o. induction W as [|kv W IH]; intros o; simpl; [done|].
  rewrite IH, filter_cons, lookup_insert. case_decide as Hk.
  - rewrite last_cons. by destruct (last _).
  - done.
Qed.

Lemma apply_writes_idem W o : apply_writes W (apply_writes W o) = apply_writes W o.
Proof.
  apply map_eq. intros k. rewrite !apply_writes_lookup. by destruct (last _).
Qed.

Lemma apply_writes_app W1 W2 o :
  apply_writes (W1 ++ W2) o = apply_writes W2 (apply_writes W1 o).
Proof. unfold apply_writes. by rewrite foldl_app. Qed.

Lemma apply_writes_outside prefix W o k :
  outside prefix W → startsWith k prefix = true → apply_writes W o !! k = o !! k.
Proof.
  intros Hout Hk. rewrite apply_writes_lookup.
  destruct (last _) as [kv|] eqn:Hl; [|done].
  apply last_Some_elem_of, list_elem_of_filter in Hl as [<- Hin].
  unfold outside in Hout. rewrite Forall_forall in Hout. specialize (Hout kv Hin).
  congruence.
Qed.

Lemma agree_apply prefix W o o' :
  outside prefix W → agree_under prefix o o' →
  agree_under prefix (apply_writes W o) (apply_writes W o').
Proof.
  intros Hout Hag k Hk. rewrite !(apply_writes_outside prefix) by done. by apply Hag.
Qed.

Lemma agree_refl prefix o : agree_under prefix o o.
Proof. by intros k _. Qed.

Lemma framed_ret prefix {A} (a : A) : framed prefix (mret a : M World A).
Proof. intros w w' _. split; [done|]. exists []. by split; [constructor|]. Qed.

Lemma framed_throw prefix {A} e : framed prefix (throw e : M World A).
Proof. intros w w' _. split; [done|]. exists []. by split; [constructor|]. Qed.

Lemma framed_print prefix l : framed prefix (print l).
Proof. intros w w' _. split; [done|]. exists []. by split; [constructor|]. Qed.

(** Sequencing, where what the first computation returns is known to
    satisfy [P]. *)
Lemma framed_bind prefix {A B} (P : A → Prop) (c : M World A) (k : A → M World B) :
  framed prefix c →
  (∀ w a w1, c w = (Normal a, w1) → P a) →
  (∀ a, P a → framed prefix (k a)) →
  framed prefix (c ≫= k).
Proof.
  intros Hc HP Hk w w' Hag. unfold mbind, M_bind, bind.
  destruct (Hc w w' Hag) as (Hres & W1 & Hout1 & Ho & Ho').
  pose proof (HP w) as HPw.
  destruct (c w) as [[a|e] w1], (c w') as [[a'|e'] w1']; simpl in *; try done.
  - injection Hres as <-.
    destruct (Hk a (HPw a w1 eq_refl) w1 w1') as (Hres2 & W2 & Hout2 & Ho2 & Ho2').
    { rewrite Ho, Ho'. by apply agree_apply. }
    split; [exact Hres2|]. exists (W1 ++ W2). split; [by apply Forall_app|].
    rewrite !apply_writes_app, <- Ho, <- Ho'. done.
  - injection Hres as <-. split; [done|]. by exists W1.
Qed.

Lemma framed_try_catch prefix {A} (c : M World A) (h : Thrown → M World A) :
  framed prefix c → (∀ e, framed prefix (h e)) → framed prefix (try_catch c h).
Proof.
  intros Hc Hh w w' Hag. unfold try_catch.
  destruct (Hc w w' Hag) as (Hres & W1 & Hout1 & Ho & Ho').
  destruct (c w) as [[a|e] w1], (c w') as [[a'|e'] w1']; simpl in *; try done.
  - split; [done|]. by exists W1.
  - injection Hres as <-.
    destruct (Hh e w1 w1') as (Hres2 & W2 & Hout2 & Ho2 & Ho2').
    { rewrite Ho, Ho'. by apply agree_apply. }
    split; [exact Hres2|]. exists (W1 ++ W2). split; [by apply Forall_app|].
    rewrite !apply_writes_app, <- Ho, <- Ho'. done.
Qed.

Lemma framed_listObjectsV2 s3 bucket prefix token :
  local_listing s3 prefix → framed prefix (listObjectsV2 s3 bucket prefix token).
Proof.
  intros Hloc w w' Hag. unfold listObjectsV2. simpl. split; [by apply Hloc|].
  exists []. by split; [constructor|].
Qed.

Lemma framed_copyObject s3 prefix bucket key destinationKey :
  startsWith key prefix = true → startsWith destinationKey prefix = false →
  framed prefix (copyObject s3 bucket key destinationKey).
Proof.
  intros Hkey Hdst w w' Hag. unfold copyObject. rewrite <- (Hag key Hkey).
  destruct (copy_fault s3 key destinationKey).
  - split; [done|]. exists []. by split; [constructor|].
  - destruct (objects w !! key) as [body|].
    + split; [done|]. exists [(destinationKey, body)].
      split; [by repeat constructor|]. done.
    + split; [done|]. exists []. by split; [constructor|].
Qed.

Lemma framed_copy_one s3 bucket src dst object :
  lands_outside src dst →
  (∀ key, Key object = Some key → startsWith key src = true) →
  framed src (copy_one s3 bucket src dst object).
Proof.
  intros Hout Hkey. unfold copy_one. destruct (Key object) as [key|]; [|apply framed_ret].
  destruct (negb (truthy key)); [apply framed_ret|].
  apply (framed_bind src (λ _, True)); [|done|intros _ _; apply framed_print].
  apply framed_copyObject; [by apply Hkey|]. apply Hout. by apply Hkey.
Qed.

Lemma framed_promise_all src promises :
  Forall (framed src) promises → framed src (promise_all promises).
Proof.
  induction 1 as [|p rest Hp _ IH]; intros w w' Hag; simpl.
  { split; [done|]. exists []. by split; [constructor|]. }
  destruct (Hp w w' Hag) as (Hres & W1 & Hout1 & Ho & Ho').
  destruct (p w) as [[a|e] w1], (p w') as [[a'|e'] w1']; simpl in *; try done.
  - destruct (IH w1 w1') as (Hres2 & W2 & Hout2 & Ho2 & Ho2').
    { rewrite Ho, Ho'. by apply agree_apply. }
    split; [exact Hres2|]. exists (W1 ++ W2). split; [by apply Forall_app|].
    rewrite !apply_writes_app, <- Ho, <- Ho'. done.
  - destruct (IH w1 w1') as (_ & W2 & Hout2 & Ho2 & Ho2').
    { rewrite Ho, Ho'. by apply agree_apply. }
    split; [exact Hres|]. exists (W1 ++ W2). split; [by apply Forall_app|].
    rewrite !apply_writes_app, <- Ho, <- Ho'. done.
Qed.

Lemma framed_for_chunks s3 bucket src dst chunks :
  lands_outside src dst →
  Forall (keys_under_prefix src) chunks →
  framed src (for_chunks s3 bucket src dst chunks).
Proof.
  intros Hout. induction 1 as [|chunk rest Hchunk _ IH]; simpl; [apply framed_ret|].
  apply (framed_bind src (λ _, True)); [|done|by intros _ _].
  apply framed_promise_all, Forall_map, Forall_forall. intros object Hin.
  apply framed_copy_one; [done|]. intros key. by apply Hchunk.
Qed.

Lemma slice_subseteq {A} i j (a : list A) x : x ∈ slice i j a → x ∈ a.
Proof.
  unfold slice. intros Hx. apply elem_of_take in Hx as (n & Hx & _).
  rewrite lookup_drop in Hx. by eapply list_elem_of_lookup_2.
Qed.

Lemma chunks_from_elements {A} i (contents : list A) :
  Forall (λ chunk, ∀ x, x ∈ chunk → x ∈ contents) (chunks_from i contents).
Proof.
  funelim (chunks_from i contents); [|constructor].
  constructor; [|done]. intros x. apply slice_subseteq.
Qed.

Lemma framed_rethrow src e : framed src (rethrow e).
Proof.
  destruct e; simpl;
    (apply (framed_bind src (λ _, True));
       [apply framed_print|done|intros _ _; apply framed_throw]).
Qed.

Lemma framed_list_failed src e : framed src (list_failed e).
Proof.
  unfold list_failed.
  apply (framed_bind src (λ _, True)); [apply framed_print|done|intros _ _; apply framed_throw].
Qed.

Lemma list_failed_throws e w a w1 : list_failed e w ≠ (Normal a, w1).
Proof. done. Qed.

(** Under the two assumptions on the store, and when copies land outside the
    source prefix, a provisioning run reads the bucket only under the source
    prefix and writes it only outside. *)
Lemma framed_copyS3Folder S3_BUCKET s3 src dst tok depth maxDepth :
  sound_listing s3 src → local_listing s3 src → lands_outside src dst →
  framed src (copyS3Folder S3_BUCKET s3 src dst tok depth maxDepth).
Proof.
  intros Hsound Hlocal Hout.
  funelim (copyS3Folder S3_BUCKET s3 src dst tok depth maxDepth);
    try apply framed_throw.
  clear Heqcall Heq Heq0.
  apply framed_try_catch; [|apply framed_rethrow].
  apply (framed_bind sourcePrefix
           (λ out, ∀ contents, Contents out = Some contents →
                               keys_under_prefix sourcePrefix contents)).
  - apply framed_try_catch; [by apply framed_listObjectsV2|apply framed_list_failed].
  - intros w out w1. unfold try_catch, listObjectsV2.
    destruct (list_reply s3 (objects w) sourcePrefix continuationToken) as [out'|e] eqn:Hreply.
    + intros [= <- _] contents Hc object key Hin Hkey. by eapply Hsound.
    + intros Habs. by apply list_failed_throws in Habs.
  - intros listedObjects Hkeys.
    destruct (Contents listedObjects) as [[|object contents]|] eqn:Hc; try apply framed_print.
    apply (framed_bind sourcePrefix (λ _, True)); [|done|].
    + apply framed_for_chunks; [done|].
      eapply Forall_impl; [apply chunks_from_elements|]. intros chunk Hsub o key Hin.
      apply (Hkeys _ eq_refl). by apply Hsub.
    + intros [] _. destruct (IsTruncated listedObjects); [|apply framed_ret].
      intros w w'. apply (H listedObjects contents object contents () w); done.
Qed.

(** Running a framed computation a second time, on the bucket the first run
    left, ends the same way and leaves the bucket as it is. *)
Lemma framed_twice src {A} (c : M World A) w :
  framed src c →
  (c (c w).2).1 = (c w).1 ∧ objects (c (c w).2).2 = objects (c w).2.
Proof.
  intros Hc.
  destruct (Hc w w (agree_refl src _)) as (_ & W0 & Hout0 & Ho0 & _).
  destruct (Hc w (c w).2) as (Hres & W & Hout & Ho & Ho').
  { rewrite Ho0. intros k Hk. symmetry. by apply (apply_writes_outside src). }
  split; [done|]. rewrite Ho', Ho. apply apply_writes_idem.
Qed.

(** *** Renaming a key *)

Lemma startsWith_app p s : startsWith (p +:+ s) p = true.
Proof.
  induction p as [|c p IH]; [by destruct s|]. rewrite string_app_cons. simpl.
  by rewrite decide_True.
Qed.

Lemma drop_app p s : drop (String.length p) (p +:+ s) = s.
Proof. induction p as [|c p IH]; [by destruct s|]. by rewrite string_app_cons. Qed.

Lemma indexOf_prefix s p : startsWith s p = true → indexOf s p = Some 0.
Proof. intros H. destruct s; cbn [indexOf]; by rewrite H. Qed.

Lemma replace_at_prefix key src dst :
  startsWith key src = true →
  replace key src dst =
  GetSubstitution src "" (drop (String.length src) key) dst +:+ drop (String.length src) key.
Proof.
  intros H. unfold replace. rewrite (indexOf_prefix _ _ H). by destruct key.
Qed.

Lemma GetSubstitution_dollar_free matched before after template :
  dollar_free template = true →
  GetSubstitution matched before after template = template.
Proof.
  induction template as [|c t IH]; simpl; [done|].
  case_decide; [done|]. intros Ht. by rewrite IH.
Qed.

(** A destination prefix without a dollar sign takes the place of the source
    prefix, and the rest of the key stays. *)
Lemma replace_prefix src dst suffix :
  dollar_free dst = true → replace (src +:+ suffix) src dst = dst +:+ suffix.
Proof.
  intros Hd. rewrite replace_at_prefix by apply startsWith_app.
  by rewrite drop_app, GetSubstitution_dollar_free.
Qed.

(** A key under [base/...] is renamed to a key under [code/], dollar signs
    in the workspace id or not. *)
Lemma lands_outside_base_code language replId :
  lands_outside ("base/" +:+ language) ("code/" +:+ replId).
Proof.
  intros key Hkey. rewrite replace_at_prefix by done.
  change ("code/" +:+ replId)
    with (String "c" (String "o" (String "d" (String "e" (String "/" replId))))).
  reflexivity.
Qed.

(** *** The paged store meets the two assumptions *)

Lemma keys_under_spec o prefix k :
  k ∈ keys_under o prefix ↔ is_Some (o !! k) ∧ startsWith k prefix = true.
Proof.
  unfold keys_under. rewrite list_elem_of_fmap. split.
  - intros ([k' v] & -> & Hin). apply elem_of_map_to_list in Hin.
    apply map_lookup_filter_Some in Hin as [Hl HP]. simpl in *. eauto.
  - intros [[v Hv] HP]. exists (k, v). split; [done|].
    apply elem_of_map_to_list, map_lookup_filter_Some. done.
Qed.

Lemma after_key_subseteq token keys k : k ∈ after_key token keys → k ∈ keys.
Proof.
  induction keys as [|x keys IH]; simpl; [done|].
  case_decide; intros Hk; right; auto.
Qed.

Lemma paged_store_sound pageSize prefix : sound_listing (paged_store pageSize) prefix.
Proof.
  intros o token out contents object key. simpl. unfold paged_reply.
  intros [= <-]. simpl. intros [= <-] Hin Hkey.
  apply list_elem_of_fmap in Hin as (k & -> & Hk). simpl in Hkey. injection Hkey as <-.
  apply elem_of_take in Hk as (i & Hk & _). apply list_elem_of_lookup_2 in Hk.
  assert (k ∈ keys_under o prefix) as Hin.
  { destruct token; [by eapply after_key_subseteq|done]. }
  by apply keys_under_spec in Hin as [_ ?].
Qed.

Lemma paged_store_local pageSize prefix : local_listing (paged_store pageSize) prefix.
Proof.
  intros o o' token Hag. simpl. unfold paged_reply, keys_under.
  replace (filter (λ kv, startsWith kv.1 prefix = true) o')
    with (filter (λ kv, startsWith kv.1 prefix = true) o); [done|].
  apply map_eq. intros k. rewrite !map_lookup_filter.
  destruct (startsWith k prefix) eqn:Hk.
  - by rewrite (Hag k Hk).
  - destruct (o !! k), (o' !! k); simpl; try done;
      rewrite ?option_guard_False; simpl; congruence.
Qed.

(** X1: provisioning a workspace from a template twice: the second run, on the
    bucket the first one left, ends as the first did and leaves every object
    as it is. The store is assumed to list only keys under the prefix asked
    for, and to answer a listing from the objects under that prefix alone. *)
Theorem copyS3Folder_idempotent (S3_BUCKET : option string) (s3 : Service)
    (language replId : string) (maxDepth : nat) (w : World) :
  sound_listing s3 ("base/" +:+ language) →
  local_listing s3 ("base/" +:+ language) →
  let run := copyS3Folder S3_BUCKET s3 ("base/" +:+ language) ("code/" +:+ replId)
               None 0 maxDepth in
  (run (run w).2).1 = (run w).1 ∧ objects (run (run w).2).2 = objects (run w).2.
Proof.
  intros Hsound Hlocal. cbv zeta. apply (framed_twice ("base/" +:+ language)).
  apply framed_copyS3Folder; [done|done|apply lands_outside_base_code].
Qed.

Lemma copyS3Folder_idempotent_witness :
  let run := copyS3Folder (Some "bkt") (paged_store 10) ("base/" +:+ "node-js")
               ("code/" +:+ "w1") None 0 10 in
  (run (run node_js_template).2).1 = (run node_js_template).1
  ∧ objects (run (run node_js_template).2).2 = objects (run node_js_template).2.
Proof.
  exact (copyS3Folder_idempotent (Some "bkt") (paged_store 10) "node-js" "w1" 10
           node_js_template (paged_store_sound 10 _) (paged_store_local 10 _)).
Defined.

(** X2: one object copied into a destination prefix without a dollar sign: it
    lands under the destination prefix followed by what followed the source
    prefix, with the body it had. *)
Theorem copy_one_keeps_suffix (s3 : Service) (bucket src dst suffix body : string)
    (w : World) :
  dollar_free dst = true →
  truthy (src +:+ suffix) = true →
  copy_fault s3 (src +:+ suffix) (dst +:+ suffix) = None →
  objects w !! (src +:+ suffix) = Some body →
  let r := copy_one s3 bucket src dst (mkObject (Some (src +:+ suffix))) w in
  r.1 = Normal () ∧ objects r.2 = <[dst +:+ suffix := body]> (objects w).
Proof.
  intros Hd Ht Hf Hb. cbv zeta. unfold copy_one. simpl. rewrite Ht. simpl.
  rewrite (replace_prefix _ _ _ Hd).
  unfold mbind, M_bind, bind, copyObject. rewrite Hf, Hb. done.
Qed.

Lemma copy_one_keeps_suffix_witness :
  let r := copy_one (paged_store 10) "bkt" "base/node-js" "code/w1"
             (mkObject (Some ("base/node-js" +:+ "/f7"))) node_js_template in
  r.1 = Normal ()
  ∧ objects r.2 = <["code/w1" +:+ "/f7" := "body7"]> (objects node_js_template).
Proof.
  apply (copy_one_keeps_suffix (paged_store 10) "bkt" "base/node-js" "code/w1" "/f7" "body7");
    reflexivity.
Defined.

(** The 25 objects of [base/node-js], listed in three pages of at most 10,
    provisioned into [code/w1]: the run succeeds after three listing
    requests, [code/w1] then holds exactly 25 objects, one per source object
    with the same suffix and body, and a second run leaves the bucket as it
    is. *)
Theorem provisioning_25_objects :
  let run := copyS3Folder (Some "bkt") (paged_store 10) "base/node-js" "code/w1" None 0 10 in
  let w1 := (run node_js_template).2 in
  (run node_js_template).1 = Normal ()
  ∧ listings (requests w1) = 3
  ∧ length (keys_under (objects w1) "code/w1") = 25
  ∧ Forall (λ i : nat, objects w1 !! ("code/w1/f" +:+ pretty i) = Some ("body" +:+ pretty i))
           (seq 0 25)
  ∧ objects (run w1).2 = objects w1.
Proof.
  cbv zeta. split_and!.
  - vm_compute. reflexivity.
  - vm_compute. reflexivity.
  - vm_compute. reflexivity.
  - apply Forall_forall. intros i Hi. apply elem_of_seq in Hi.
    do 25 (destruct i as [|i]; [vm_compute; reflexivity|]). lia.
  - apply (framed_twice "base/node-js").
    apply framed_copyS3Folder;
      [apply paged_store_sound|apply paged_store_local
      |apply (lands_outside_base_code "node-js" "w1")].
Qed.



(** [POST /project] answers 400 when [replId] or [language] is missing
    or empty, and then nothing is asked of the store; otherwise it answers 200
    when the copy ends normally and 500 when it throws. *)
Theorem projectHandler_status (S3_BUCKET : option string) (s3 : Service)
    (replId language : option string) (w : World) :
  let r := projectHandler S3_BUCKET s3 replId language w in
  match defined replId, defined language with
  | Some replId, Some language =>
      let c := copyS3Folder S3_BUCKET s3 ("base/" +:+ language) ("code/" +:+ replId)
                 None 0 10 w in
      r.1.1 = (if is_normal c.1 then 200 else 500) ∧ objects r.2 = objects c.2
  | _, _ => r.1.1 = 400 ∧ r.2 = w
  end.
Proof.
  cbv zeta. unfold projectHandler.
  destruct (defined replId) as [r|]; [|done].
  destruct (defined language) as [l|]; [|done].
  destruct (copyS3Folder _ _ _ _ _ _ _ _) as [[[]|e] w1]; done.
Qed.

End ProvisioningFacts.


(** ** Browsing the workspace *)

Module ProtocolFacts.
Import Js JsString FileManager CodingPage Protocol.
Import PathFacts CodingPageFacts BuildFacts DepthFacts.

Lemma split_app_sep sep a b :
  split sep (a +:+ String sep b) = split sep a ++ split sep b.
Proof.
  induction a as [|c a IH].
  - change (split sep (String sep b) = split sep "" ++ split sep b).
    cbn. by rewrite decide_True.
  - rewrite string_app_cons. cbn [split]. destruct (decide (c = sep)) as [->|Hc].
    + by rewrite IH.
    + rewrite IH. destruct (split sep a) as [|seg segs] eqn:E; [|done].
      by destruct (split_not_nil sep a).
Qed.

Lemma split_slash_free s : slashes s = 0 → split "/" s = [s].
Proof.
  induction s as [|c s IH]; [done|].
  cbn. destruct (decide (c = "/"%char)); [done|]. intros H.
  by rewrite IH.
Qed.

Lemma parent_path_child p n :
  slashes n = 0 → parent_path (p +:+ "/" +:+ n) = p.
Proof.
  intros Hn. unfold parent_path.
  change (p +:+ "/" +:+ n) with (p +:+ String "/" n).
  rewrite split_app_sep, (split_slash_free n Hn), slice_0_m1_snoc.
  apply join_split.
Qed.

Lemma segments_child p n :
  slashes n = 0 → segments (p +:+ "/" +:+ n) = S (segments p).
Proof.
  intros Hn. rewrite !segments_slashes, !slashes_app, Hn.
  change (slashes "/") with 1. lia.
Qed.

Lemma elem_of_fetchDir x files baseDir :
  x ∈ Fs.fetchDir files baseDir ↔
  ∃ f, f ∈ files
       ∧ x = RemoteFile.mk (if Fs.isDirectory f then RemoteFile.dir else RemoteFile.file)
                           (Fs.name f) (baseDir +:+ "/" +:+ Fs.name f).
Proof.
  unfold Fs.fetchDir. rewrite list_elem_of_In, in_map_iff.
  split; intros (f & H1 & H2).
  - exists f. split; [by apply list_elem_of_In|by subst x].
  - exists f. split; [by subst x|by apply list_elem_of_In].
Qed.

Lemma string_app_inj_l a b c : a +:+ b = a +:+ c → b = c.
Proof.
  induction a as [|x a IH]; [done|]. rewrite !string_app_cons. intros [=]. auto.
Qed.

(** Distinct names give distinct paths. *)
Lemma fetchDir_NoDup files baseDir :
  NoDup (Fs.name <$> files) → NoDup (RemoteFile.path <$> Fs.fetchDir files baseDir).
Proof.
  unfold Fs.fetchDir. induction files as [|f files IH]; cbn; [constructor|].
  intros Hnd. apply NoDup_cons in Hnd as [Hf Hnd]. apply NoDup_cons. split; [|auto].
  intros Hin. apply Hf. apply list_elem_of_fmap in Hin as (x & Hx & Hin).
  apply list_elem_of_In, in_map_iff in Hin as (g & <- & Hg). cbn in Hx.
  apply string_app_inj_l, string_app_inj_l in Hx. rewrite Hx.
  apply list_elem_of_fmap. exists g. by rewrite list_elem_of_In.
Qed.

Lemma firsts_subseteq seen l x : x ∈ firsts seen l → x ∈ l.
Proof.
  revert seen. induction l as [|y l IH]; intros seen; cbn; [done|].
  destruct (decide _); rewrite ?elem_of_cons; intros H.
  - right. eauto.
  - destruct H as [->|H]; [by left|right; eauto].
Qed.

Lemma firsts_app_NoDup seen prev data :
  NoDup (RemoteFile.path <$> prev) →
  (∀ x, x ∈ prev → RemoteFile.path x ∉ seen) →
  firsts seen (prev ++ data) = prev ++ firsts (seen ++ (RemoteFile.path <$> prev)) data.
Proof.
  revert seen. induction prev as [|y prev IH]; intros seen Hnd Hseen; cbn.
  - by rewrite app_nil_r.
  - cbn in Hnd. apply NoDup_cons in Hnd as [Hy Hnd].
    rewrite decide_False by (apply Hseen; left).
    f_equal. rewrite IH; [by rewrite <- app_assoc|done|].
    intros x Hx. rewrite elem_of_app, list_elem_of_singleton. intros [H|H].
    + by apply (Hseen x); [right|].
    + apply Hy. rewrite <- H. apply list_elem_of_fmap. eauto.
Qed.

Lemma firsts_all_seen seen l :
  (∀ x, x ∈ l → RemoteFile.path x ∈ seen) → firsts seen l = [].
Proof.
  revert seen. induction l as [|y l IH]; intros seen Hl; cbn; [done|].
  rewrite decide_True by (apply Hl; left). apply IH.
  intros x Hx. apply elem_of_app. left. apply Hl. by right.
Qed.

(** A listing without repeated paths stays in front, in its order; what is
    added comes from the reply. *)
Lemma merge_extends prev data :
  NoDup (RemoteFile.path <$> prev) →
  ∃ added, merge prev data = prev ++ added ∧ added ⊆ data.
Proof.
  intros Hnd. rewrite merge_firsts, firsts_app_NoDup; [|done|].
  - eexists; split; [done|]. intros x. apply firsts_subseteq.
  - by intros x _ ?%elem_of_nil.
Qed.

(** X7. Merging a reply only appends. A listing without repeated paths
    stays as it is, in its order, at the front of the merged listing, and
    what follows it are entries of the reply with paths the listing did not
    have; so an entry is never removed or replaced, whatever the server
    reports later, and a reply with known paths only, such as the reply to
    opening the same unchanged directory again, changes nothing. *)
Theorem merge_only_appends (prev data : list RemoteFile.t) :
  NoDup (RemoteFile.path <$> prev) →
  (∃ added, merge prev data = prev ++ added
            ∧ ∀ x, x ∈ added → x ∈ data ∧ RemoteFile.path x ∉ RemoteFile.path <$> prev)
  ∧ ((∀ x, x ∈ data → RemoteFile.path x ∈ RemoteFile.path <$> prev) →
     merge prev data = prev).
Proof.
  intros Hnd.
  assert (Hm : merge prev data = prev ++ firsts (RemoteFile.path <$> prev) data).
  { rewrite merge_firsts, firsts_app_NoDup; [done|done|]. by intros x _ ?%elem_of_nil. }
  rewrite Hm. split.
  - eexists. split; [done|]. intros x Hx. split.
    + by eapply firsts_subseteq.
    + by eapply firsts_fresh.
  - intros Hknown. by rewrite firsts_all_seen, app_nil_r.
Qed.

Lemma merge_only_appends_witness :
  (∃ added, merge root_listing a_listing = root_listing ++ added
            ∧ ∀ x, x ∈ added →
                   x ∈ a_listing ∧ RemoteFile.path x ∉ RemoteFile.path <$> root_listing)
  ∧ ((∀ x, x ∈ a_listing → RemoteFile.path x ∈ RemoteFile.path <$> root_listing) →
     merge root_listing a_listing = root_listing).
Proof.
  apply (merge_only_appends root_listing a_listing).
  apply (bool_decide_unpack _). by vm_compute.
Defined.

Lemma NoDup_fmap_eq {A B} (f : A → B) l x y :
  NoDup (f <$> l) → x ∈ l → y ∈ l → f x = f y → x = y.
Proof.
  induction l as [|z l IH]; cbn; [by intros _ ?%elem_of_nil|].
  intros [Hz Hnd]%NoDup_cons [->|Hx]%elem_of_cons [->|Hy]%elem_of_cons Hxy; auto.
  - destruct Hz. rewrite Hxy. by apply list_elem_of_fmap_2.
  - destruct Hz. rewrite <- Hxy. by apply list_elem_of_fmap_2.
Qed.

Lemma rooted_well_linked l :
  NoDup (RemoteFile.path <$> l) → rooted l → well_linked l = true.
Proof.
  intros Hnd Hr. apply forallb_forall. intros x Hx%list_elem_of_In.
  unfold linkable. destruct (Hr x Hx) as [H2|(H3 & d & Hd & Hty & Hp)].
  - by rewrite bool_decide_eq_true_2.
  - apply orb_true_iff. right. apply andb_true_iff. split.
    + apply existsb_exists. exists d. split; [by apply list_elem_of_In|].
      by apply bool_decide_eq_true_2.
    + apply negb_true_iff. apply not_true_is_false.
      intros (f & Hf%list_elem_of_In & [Hfty Hfp]%bool_decide_eq_true)%existsb_exists.
      assert (f = d) as -> by (eapply (NoDup_fmap_eq RemoteFile.path); eauto; congruence).
      congruence.
Qed.

Lemma fileStructure_rooted l :
  fileStructure l → NoDup (RemoteFile.path <$> l) ∧ rooted l.
Proof.
  induction 1 as [readdir root Hposix Hroot
                 |readdir prev d data _ [Hnd Hr] Hd Hty Hposix Hdata].
  - unfold rootContent, fetchDir in Hroot.
    destruct (readdir "/workspace") as [files|] eqn:E; [|done].
    injection Hroot as <-. destruct (Hposix _ _ E) as [Hnames Hdistinct].
    split; [by apply fetchDir_NoDup|].
    intros x (f & Hf & ->)%elem_of_fetchDir. left. cbn [RemoteFile.path].
    rewrite Forall_forall in Hnames.
    rewrite segments_child by auto. done.
  - unfold on_fetchDir, fetchDir in Hdata.
    destruct (readdir _) as [files|] eqn:E; [|done].
    injection Hdata as <-. destruct (Hposix _ _ E) as [Hnames _].
    rewrite Forall_forall in Hnames.
    split; [apply merge_NoDup|].
    destruct (merge_extends prev (Fs.fetchDir files (RemoteFile.path d)) Hnd)
      as (added & -> & Hadded).
    intros x [Hx|Hx]%elem_of_app.
    + destruct (Hr x Hx) as [?|(? & d' & ? & ? & ?)]; [by left|right].
      split; [done|]. exists d'. rewrite elem_of_app. auto.
    + apply Hadded, elem_of_fetchDir in Hx as (f & Hf & ->). cbn [RemoteFile.path]. right.
      rewrite segments_child, parent_path_child by auto. split.
      * destruct (Hr d Hd) as [->|[? _]]; lia.
      * exists d. rewrite elem_of_app. auto.
Qed.

(** X6. The tree can be built from every listing the client holds. Whatever
    directories the user opens, in whatever order and however often, and
    however the workspace changes in between, the accumulated listing has no
    two entries with one path, and [buildFileTree] returns on it, with every
    entry attached under its parent; it is assumed that the server's
    directory entries have slash-free names, distinct within a directory. *)
Theorem browsing_builds_a_tree (l : list RemoteFile.t) (fuel : nat) :
  fileStructure l → enough_fuel l ≤ fuel →
  NoDup (RemoteFile.path <$> l)
  ∧ ∃ h, buildFileTree fuel l = Returned h
         ∧ ∀ x, x ∈ l → attached h (RemoteFile.path x).
Proof.
  intros [Hnd Hr]%fileStructure_rooted Hfuel. split; [done|].
  apply buildFileTree_returns; [|done]. by apply rooted_well_linked.
Qed.

Lemma sample_readdir_posix : posix sample_readdir.
Proof.
  intros dir files. unfold sample_readdir.
  repeat case_decide; intros [=]; subst files;
    (split; [by repeat constructor|apply (bool_decide_unpack _); by vm_compute]).
Qed.

Lemma browsing_builds_a_tree_witness :
  let l := [RemoteFile.mk RemoteFile.dir "a" "/a"; RemoteFile.mk RemoteFile.file "b.txt" "/b.txt";
            RemoteFile.mk RemoteFile.file "x.txt" "/a/x.txt"] in
  NoDup (RemoteFile.path <$> l)
  ∧ ∃ h, buildFileTree (enough_fuel l) l = Returned h
         ∧ ∀ x, x ∈ l → attached h (RemoteFile.path x).
Proof.
  apply (browsing_builds_a_tree _ _
           (after_select sample_readdir
              [RemoteFile.mk RemoteFile.dir "a" "/a"; RemoteFile.mk RemoteFile.file "b.txt" "/b.txt"]
              (RemoteFile.mk RemoteFile.dir "a" "/a")
              [RemoteFile.mk RemoteFile.file "x.txt" "/a/x.txt"]
              (after_loaded sample_readdir _ sample_readdir_posix eq_refl)
              ltac:(left) eq_refl sample_readdir_posix eq_refl)).
  reflexivity.
Defined.

End ProtocolFacts.


(** ** The tree that [buildFileTree] returns *)

Module TreeFacts.
Import Js JsString FileManager TreeShape.
Import PathFacts BuildFacts DepthFacts.

(** *** Through the linking pass *)

Lemma Sorted_visited data v v' h : v ⊆ v' → Sorted data v h → Sorted data v' h.
Proof.
  intros Hsub Hs r o Ho. destruct (Hs r o Ho) as (Hnf & Hnd & Hf & Hd).
  split_and!; [done|done| |].
  - intros r' (k & -> & Hk & Hfile)%Hf. exists k. split_and!; [done|by apply Hsub|done].
  - intros r' (k & -> & Hk & Hfile)%Hd. exists k. split_and!; [done|by apply Hsub|done].
Qed.

Lemma push_child_sorted data visited k value parent parent' :
  k ∉ visited →
  (type (props_of value) = DIRECTORY ↔ file_at data k = false) →
  push_child value (CacheRef k) parent = Normal parent' →
  (NoDup (files_of parent) ∧ NoDup (dirs_of parent)
   ∧ (∀ r', r' ∈ files_of parent →
        ∃ k, r' = CacheRef k ∧ k ∈ visited ∧ file_at data k = true)
   ∧ (∀ r', r' ∈ dirs_of parent →
        ∃ k, r' = CacheRef k ∧ k ∈ visited ∧ file_at data k = false)) →
  props_of parent' = props_of parent
  ∧ is_dir parent' = is_dir parent
  ∧ NoDup (files_of parent') ∧ NoDup (dirs_of parent')
  ∧ (∀ r', r' ∈ files_of parent' →
       ∃ k', r' = CacheRef k' ∧ k' ∈ visited ++ [k] ∧ file_at data k' = true)
  ∧ (∀ r', r' ∈ dirs_of parent' →
       ∃ k', r' = CacheRef k' ∧ k' ∈ visited ++ [k] ∧ file_at data k' = false).
Proof.
  intros Hk Hty Hpush (Hnf & Hnd & Hf & Hd).
  destruct parent as [|p fs ds]; [done|]. simpl in *.
  assert (Hfresh : ∀ b (l : list Ref),
            (∀ r', r' ∈ l → ∃ k', r' = CacheRef k' ∧ k' ∈ visited ∧ file_at data k' = b) →
            CacheRef k ∉ l).
  { intros b l Hl (k' & [= <-] & Hin & _)%Hl. done. }
  assert (Hold : ∀ b (l : list Ref), (∀ r', r' ∈ l →
                           ∃ k', r' = CacheRef k' ∧ k' ∈ visited ∧ file_at data k' = b) →
                        ∀ r', r' ∈ l →
                           ∃ k', r' = CacheRef k' ∧ k' ∈ visited ++ [k] ∧ file_at data k' = b).
  { intros b l Hl r' (k' & -> & Hin & Hb)%Hl. exists k'.
    split_and!; [done| |done]. apply elem_of_app. by left. }
  injection Hpush as <-. case_decide as Hdir; simpl.
  - split_and!; [done|done|done| |by apply Hold|].
    + apply NoDup_app. split_and!; [done| |apply NoDup_singleton].
      intros x Hx ->%list_elem_of_singleton. by apply (Hfresh false ds).
    + intros r' [Hr'| ->%list_elem_of_singleton]%elem_of_app; [by apply (Hold false ds)|].
      exists k. split_and!; [done| |by apply Hty].
      apply elem_of_app. right. by apply list_elem_of_singleton.
  - split_and!; [done|done| |done| |by apply Hold].
    + apply NoDup_app. split_and!; [done| |apply NoDup_singleton].
      intros x Hx ->%list_elem_of_singleton. by apply (Hfresh true fs).
    + intros r' [Hr'| ->%list_elem_of_singleton]%elem_of_app; [by apply (Hold true fs)|].
      exists k. split_and!; [done| |].
      * apply elem_of_app. right. by apply list_elem_of_singleton.
      * destruct (file_at data k); [done|]. by destruct Hdir; apply Hty.
Qed.

Section link.
Variable data : list RemoteFile.t.

Lemma link_one_sorted visited h k h' :
  Good data h → Labelled h → Sorted data visited h → k ∉ visited →
  link_one h k = Normal h' →
  Labelled h' ∧ Sorted data (visited ++ [k]) h'.
Proof.
  intros (Hroot & Hdom & Hobj & Hrc & Hoc) Hlab Hsorted Hk.
  assert (Hmono : Sorted data (visited ++ [k]) h).
  { eapply Sorted_visited; [|done]. intros x Hx. apply elem_of_app. by left. }
  unfold link_one. destruct (objs h !! k) as [value|] eqn:Hvalue; [|by intros [= <-]].
  assert (Hty : type (props_of value) = DIRECTORY ↔ file_at data k = false).
  { destruct (Hlab k value Hvalue) as (-> & _). destruct (Hobj k value Hvalue) as [_ ->].
    by destruct (file_at data k). }
  case_decide as Hzero.
  - destruct (push_child value (CacheRef k) (rootDir h)) as [root'|] eqn:Hpush; [|done].
    intros [= <-].
    destruct (push_child_sorted data visited k value _ _ Hk Hty Hpush
                (Hsorted RootRef _ eq_refl)) as (_ & _ & Hroot').
    split; [done|]. intros [|k'] o; simpl.
    + by intros [= <-].
    + apply (Hmono (CacheRef k')).
  - destruct (parentId (props_of value)) as [parent|]; simpl; [|done].
    destruct (objs h !! parent) as [parentDir|] eqn:Hparent; simpl; [|done].
    destruct (push_child value (CacheRef k) parentDir) as [parentDir'|] eqn:Hpush; [|done].
    intros [= <-].
    destruct (push_child_sorted data visited k value _ _ Hk Hty Hpush
                (Hsorted (CacheRef parent) _ Hparent)) as (Hprops & Hdir & Hparent').
    split.
    + intros k' o. simpl. rewrite lookup_insert. case_decide as Hk'.
      * intros [= <-]. subst k'. rewrite Hprops, Hdir. by apply Hlab.
      * apply Hlab.
    + intros [|k'] o; simpl.
      * apply (Hmono RootRef).
      * rewrite lookup_insert. case_decide as Hk'; [by intros [= <-]|].
        apply (Hmono (CacheRef k')).
Qed.

Lemma link_sorted keys visited h :
  Good data h → Labelled h → Sorted data visited h →
  NoDup keys → (∀ k, k ∈ keys → k ∉ visited) →
  Forall (λ k, entry data k = true ∧ linkable data k = true) keys →
  ∃ h', link keys h = Normal h' ∧ Good data h' ∧ Labelled h'
        ∧ Sorted data (visited ++ keys) h' ∧ Forall (attached h') keys.
Proof.
  intros Hgood Hlab Hsorted Hnd Hfresh Hkeys.
  destruct (link_ok data keys h Hgood Hkeys) as (h' & Hlink & Hgood' & _ & _ & Hatt).
  exists h'. split_and!; [done|done| | |done]; clear Hatt Hgood'.
  - revert visited h Hgood Hlab Hsorted Hnd Hfresh Hlink.
    induction Hkeys as [|k keys [Hk Hl] _ IH];
      intros visited h Hgood Hlab Hsorted Hnd Hfresh; simpl; [by intros [= <-]|].
    destruct (link_one_ok data h k Hgood Hk Hl) as (h1 & Hone & Hgood1 & _).
    rewrite Hone. apply NoDup_cons in Hnd as [Hk' Hnd].
    destruct (link_one_sorted visited h k h1) as [Hlab1 Hsorted1];
      [done|done|done|apply Hfresh; left|done|].
    apply (IH (visited ++ [k]) h1); [done..|].
    intros k' Hin [Hv| ->%list_elem_of_singleton]%elem_of_app; [|done].
    by apply (Hfresh k'); [right|].
  - revert visited h Hgood Hlab Hsorted Hnd Hfresh Hlink.
    induction Hkeys as [|k keys [Hk Hl] _ IH];
      intros visited h Hgood Hlab Hsorted Hnd Hfresh; simpl.
    { intros [= <-]. by rewrite app_nil_r. }
    destruct (link_one_ok data h k Hgood Hk Hl) as (h1 & Hone & Hgood1 & _).
    rewrite Hone. apply NoDup_cons in Hnd as [Hk' Hnd].
    destruct (link_one_sorted visited h k h1) as [Hlab1 Hsorted1];
      [done|done|done|apply Hfresh; left|done|].
    intros Hlink. rewrite (assoc_L (++) visited [k] keys : visited ++ k :: keys = _).
    apply (IH (visited ++ [k]) h1); [done..| |done].
    intros k' Hin [Hv| ->%list_elem_of_singleton]%elem_of_app; [|done].
    by apply (Hfresh k'); [right|].
Qed.

Lemma cached_Labelled : Labelled (cached data).
Proof.
  intros k o. rewrite cached_lookup.
  destruct (file_at data k); destruct (last _); intros [= <-]; done.
Qed.

Lemma cached_Sorted : Sorted data [] (cached data).
Proof.
  intros [|k] o; simpl.
  - rewrite cached_root. intros [= <-]. simpl.
    split_and!; [constructor|constructor|by intros ? ?%elem_of_nil..].
  - rewrite cached_lookup.
    destruct (file_at data k); destruct (last _); intros [= <-]; simpl;
      (split_and!; [constructor|constructor|by intros ? ?%elem_of_nil..]).
Qed.

Lemma cached_order_NoDup : NoDup (order (cached data)).
Proof.
  unfold cached. apply put_fold_NoDup, put_fold_NoDup. constructor.
Qed.

End link.

Lemma link_root_props keys h h' :
  link keys h = Normal h' → props_of (rootDir h') = props_of (rootDir h).
Proof.
  revert h h'. induction keys as [|k keys IH]; intros h h'; simpl; [by intros [= <-]|].
  destruct (link_one h k) as [h1|] eqn:E; [|done]. intros ->%IH.
  unfold link_one in E. destruct (objs h !! k) as [value|]; [|by injection E as <-].
  case_decide.
  - destruct (rootDir h) as [|p fs ds] eqn:Hr; [done|]. simpl in E.
    injection E as <-. simpl. by case_decide.
  - destruct (_ ≫= _) as [[parent o]|]; [|done].
    destruct (push_child _ _ _); [|done]. by injection E as <-.
Qed.

(** *** Through the depth pass *)

Lemma Kept_refl h : Kept h h.
Proof. split; [done|]. intros k. destruct (objs h !! k); auto. Qed.

Lemma relevel_relevel k p : relevel k (relevel k p) = relevel k p.
Proof. done. Qed.

Lemma Kept_trans h1 h2 h3 : Kept h1 h2 → Kept h2 h3 → Kept h1 h3.
Proof.
  intros [Hr12 H12] [Hr23 H23]. split; [congruence|]. intros k.
  specialize (H12 k). specialize (H23 k).
  destruct (objs h1 !! k) as [o1|], (objs h2 !! k) as [o2|], (objs h3 !! k) as [o3|];
    try done.
  destruct H12 as [Hd12 H12], H23 as [Hd23 H23]. split; [congruence|].
  destruct H12 as [E12|E12], H23 as [E23|E23]; rewrite E23, E12; auto.
Qed.

Lemma Kept_set_depth k h :
  Kept h (set_depth (CacheRef k) (level (CacheRef k)) h).
Proof.
  split; [done|]. intros k'. simpl. rewrite lookup_alter. case_decide as Hk.
  - subst k'. destruct (objs h !! k) as [[p|p fs ds]|]; simpl;
      [split; [done|by right]..|done].
  - destruct (objs h !! k'); auto.
Qed.

Lemma Kept_is_Some h h' k : Kept h h' → is_Some (objs h !! k) → is_Some (objs h' !! k).
Proof.
  intros [_ H] [o Ho]. specialize (H k). rewrite Ho in H.
  destruct (objs h' !! k); [eauto|done].
Qed.

Lemma depth_ok_Kept h h' k : Kept h h' → depth_ok h k → depth_ok h' k.
Proof.
  intros [_ H] (o & Ho & Hdepth). specialize (H k). rewrite Ho in H.
  destruct (objs h' !! k) as [o'|] eqn:Ho'; [|done]. exists o'. split; [done|].
  destruct H as [_ [E|E]]; rewrite E; [exact Hdepth|reflexivity].
Qed.

Lemma depth_ok_set_depth k h :
  is_Some (objs h !! k) → depth_ok (set_depth (CacheRef k) (level (CacheRef k)) h) k.
Proof.
  intros [o Ho]. exists (with_depth (level (CacheRef k)) o). simpl.
  rewrite lookup_alter, decide_True, Ho by done. split; [done|]. by destruct o.
Qed.

Lemma edge_SameKids h h' r r' : SameKids h h' → edge h r r' → edge h' r r'.
Proof.
  intros Hs (o & Ho & Hin). destruct (Hs r) as [_ Hd]. rewrite Ho in Hd.
  destruct (deref r h') as [o'|] eqn:Ho'; [|done]. injection Hd as Hd.
  exists o'. split; [done|]. by rewrite Hd.
Qed.

Lemma reach_SameKids h h' r r' :
  SameKids h h' → rtc (edge h) r r' → rtc (edge h') r r'.
Proof.
  intros Hs. induction 1 as [|x y z Hxy _ IH]; [done|].
  eapply rtc_l; [by eapply edge_SameKids|done].
Qed.

Section descent.
Variable M : nat.

Lemma Levelled_step h h' : SameKids h h' → Kept h h' → Levelled M h → Levelled M h'.
Proof.
  intros Hs Hk Hl r o' r' Hw Ho' Hr'.
  destruct (Hs r) as [Hf Hd]. rewrite Ho' in Hf, Hd.
  destruct (deref r h) as [o|] eqn:Ho; [|done]. injection Hf as Hf. injection Hd as Hd.
  destruct (Hl r o r' Hw Ho) as (k & -> & Hsome & Hlevel).
  { unfold children in *. by rewrite <- Hf, <- Hd. }
  exists k. split_and!; [done| |done]. by eapply Kept_is_Some.
Qed.

(** The loop over [files]. *)
Lemma files_pass d fs h :
  (∀ f, f ∈ fs → ∃ k, f = CacheRef k ∧ is_Some (objs h !! k) ∧ level f = d) →
  let h1 := foldl (λ h file, set_depth file d h) h fs in
  Kept h h1 ∧ ∀ k, CacheRef k ∈ fs → depth_ok h1 k.
Proof.
  revert h. induction fs as [|f fs IH]; intros h Hfs; simpl.
  - split; [apply Kept_refl|]. by intros k ?%elem_of_nil.
  - destruct (Hfs f) as (kf & -> & Hsome & Hlevel); [left|]. subst d.
    pose proof (Kept_set_depth kf h) as Hkept.
    destruct (IH (set_depth (CacheRef kf) (level (CacheRef kf)) h)) as [Hkept' Hok].
    { intros f Hf. destruct (Hfs f) as (k & -> & Hk & Hl); [by right|].
      exists k. split_and!; [done| |done]. by eapply Kept_is_Some. }
    split; [by eapply Kept_trans|].
    intros k [[= ->]|Hk]%elem_of_cons; [|by apply Hok].
    eapply depth_ok_Kept; [done|]. by apply depth_ok_set_depth.
Qed.

(** [getDepth], called on a directory with the level of its path, returns,
    and has then given every object below the directory the level of its
    path. *)
Lemma getDepth_levels fuel r h :
  Descends M h → Levelled M h → walkable M r → room M r < fuel →
  ∃ h', getDepth fuel r (level r) h = Some h' ∧ SameKids h h' ∧ Kept h h'
        ∧ ∀ r1 o1 k, rtc (edge h) r r1 → deref r1 h = Some o1 →
                     CacheRef k ∈ children o1 → depth_ok h' k.
Proof.
  revert r h. induction fuel as [|fuel IH]; intros r h Hd Hl Hw Hroom; [lia|].
  simpl. destruct (deref r h) as [o|] eqn:Ho.
  2:{ exists h. split_and!; [done|apply SameKids_refl|apply Kept_refl|].
      intros r1 o1 k [->|(y & (o & Ho' & _) & _)]%rtc_inv; congruence. }
  assert (Hkids : ∀ r', r' ∈ children o →
                    ∃ k, r' = CacheRef k ∧ is_Some (objs h !! k) ∧ level r' = level r + 1)
    by (intros r'; apply Hl; done).
  destruct (files_pass (level r + 1) (files_of o) h) as [Hkept1 Hfiles].
  { intros f Hf. apply Hkids, elem_of_app. by left. }
  pose proof (set_depth_files (level r + 1) (files_of o) h) as Hsame1.
  set (h1 := foldl _ h (files_of o)) in *. clearbody h1.
  assert (Hdirs : ∀ ds hcur,
            SameKids h hcur → Kept h hcur →
            (∀ r', r' ∈ ds →
               (walkable M r' ∧ room M r' < fuel)
               ∧ ∃ k, r' = CacheRef k ∧ is_Some (objs h !! k) ∧ level r' = level r + 1) →
            ∃ h', foldl (λ acc dir,
                           h ← acc;
                           getDepth fuel dir (level r + 1) (set_depth dir (level r + 1) h))
                    (Some hcur) ds = Some h'
                  ∧ SameKids hcur h' ∧ Kept hcur h'
                  ∧ ∀ dir, dir ∈ ds →
                      (∀ k, dir = CacheRef k → depth_ok h' k)
                      ∧ ∀ r1 o1 k, rtc (edge h) dir r1 → deref r1 h = Some o1 →
                                   CacheRef k ∈ children o1 → depth_ok h' k).
  { induction ds as [|dir ds IHds]; intros hcur Hsame_c Hkept_c Hsub; simpl.
    - exists hcur. split_and!; [done|apply SameKids_refl|apply Kept_refl|].
      by intros dir ?%elem_of_nil.
    - destruct (Hsub dir) as [[Hw' Hroom'] (kd & -> & Hsome & Hlevel)]; [left|].
      rewrite <- Hlevel.
      set (hs := set_depth (CacheRef kd) (level (CacheRef kd)) hcur).
      assert (Hsame_s : SameKids h hs).
      { eapply SameKids_trans; [done|apply SameKids_set_depth]. }
      assert (Hkept_s : Kept h hs).
      { eapply Kept_trans; [done|apply Kept_set_depth]. }
      destruct (IH (CacheRef kd) hs) as (h2 & -> & Hsame2 & Hkept2 & Hbelow);
        [by eapply Descends_SameKids|by eapply Levelled_step|done|done|].
      rewrite Hlevel.
      destruct (IHds h2) as (h' & -> & Hsame' & Hkept' & Hrest).
      + eapply SameKids_trans; [exact Hsame_s|done].
      + eapply Kept_trans; [exact Hkept_s|done].
      + intros r'' Hr''. apply Hsub. by right.
      + exists h'. split_and!; [done| | |].
        * eapply SameKids_trans; [apply SameKids_set_depth|].
          by eapply SameKids_trans.
        * eapply Kept_trans; [apply Kept_set_depth|]. by eapply Kept_trans.
        * intros dir [->|Hdir]%elem_of_cons; [|by apply Hrest]. split.
          -- intros k [= <-]. eapply depth_ok_Kept; [exact Hkept'|].
             eapply depth_ok_Kept; [exact Hkept2|].
             apply depth_ok_set_depth. by eapply Kept_is_Some.
          -- intros r1 o1 k Hreach Ho1 Hk. eapply depth_ok_Kept; [exact Hkept'|].
             destruct (SameKids_children h hs r1 o1 Hsame_s Ho1) as (o1' & Ho1' & Hch).
             apply (Hbelow r1 o1' k); [by eapply reach_SameKids|done|by rewrite Hch]. }
  destruct (Hdirs (dirs_of o) h1 Hsame1 Hkept1) as (h' & -> & Hsame' & Hkept' & Hbelow).
  { intros r' Hr'. split.
    - destruct (Hd r o r' Hw Ho Hr'). split; [done|lia].
    - apply Hkids, elem_of_app. by right. }
  exists h'. split_and!; [done|by eapply SameKids_trans|by eapply Kept_trans|].
  intros r1 o1 k [->|(dir & (o' & Ho' & Hdir) & Hreach)]%rtc_inv Ho1 Hk.
  - rewrite Ho in Ho1. injection Ho1 as <-.
    apply elem_of_app in Hk as [Hk|Hk].
    + eapply depth_ok_Kept; [exact Hkept'|]. by apply Hfiles.
    + by apply (Hbelow (CacheRef k) Hk).
  - rewrite Ho in Ho'. injection Ho' as <-.
    by apply (Hbelow dir Hdir) with r1 o1.
Qed.

End descent.

Lemma getDepth_SameKids fuel r d h h' : getDepth fuel r d h = Some h' → SameKids h h'.
Proof.
  revert r d h h'. induction fuel as [|fuel IH]; intros r d h h'; simpl; [done|].
  destruct (deref r h) as [o|]; [|intros [= <-]; apply SameKids_refl].
  pose proof (set_depth_files (d + 1) (files_of o) h) as Hfiles.
  set (h1 := foldl _ h (files_of o)) in *. clearbody h1.
  revert h1 Hfiles. induction (dirs_of o) as [|dir ds IHds]; intros h1 Hfiles; simpl.
  - by intros [= <-].
  - destruct (getDepth fuel dir (d + 1) (set_depth dir (d + 1) h1)) as [h2|] eqn:E.
    + apply IHds. eapply SameKids_trans; [done|].
      eapply SameKids_trans; [apply SameKids_set_depth|by eapply IH].
    + simpl. clear. induction ds as [|? ? IHds]; simpl; [done|apply IHds].
Qed.

Section build.
Variable data : list RemoteFile.t.

Lemma Good_Levelled h : Good data h → Levelled (longest data) h.
Proof.
  intros (Hroot & Hdom & Hobj & Hrc & Hoc) r o r' Hw Ho Hr'.
  destruct r as [|pp]; simpl in Ho.
  - injection Ho as <-. destruct (Hrc r' Hr') as (k & -> & Hs & Hk).
    exists k. split_and!; [done|by apply Hdom|]. simpl. lia.
  - destruct (Hoc pp o r' Ho Hr') as (k & -> & Hs & Hpp & Hk).
    exists k. split_and!; [done|by apply Hdom|]. simpl. destruct Hw as [Hne _].
    destruct (parent_path_cases k) as [[_ Hempty]|[Hge _]]; [congruence|].
    rewrite <- Hpp, segments_parent_path by done. lia.
Qed.

Lemma attached_holder h k :
  attached h k ↔ ∃ o, deref (holder k) h = Some o ∧ CacheRef k ∈ children o.
Proof.
  unfold attached, holder. case_decide; simpl; [|done].
  split; [eauto|]. by intros (o & [= <-] & Hin).
Qed.

(** What the linking pass leaves. *)
Lemma linked :
  well_linked data = true →
  ∃ h, link (order (cached data)) (cached data) = Normal h
       ∧ Good data h ∧ Labelled h ∧ Sorted data (order (cached data)) h
       ∧ ∀ k, entry data k = true → attached h k.
Proof.
  intros Hwl.
  destruct (link_sorted data (order (cached data)) [] (cached data))
    as (h & Hlink & Hgood & Hlab & Hsorted & Hatt).
  - apply cached_Good.
  - apply cached_Labelled.
  - apply cached_Sorted.
  - apply cached_order_NoDup.
  - by intros k _ ?%elem_of_nil.
  - eapply Forall_impl; [apply order_entries|]. intros k Hk. split; [done|].
    by apply well_linked_spec.
  - exists h. split_and!; [done..|].
    intros k Hk. rewrite Forall_forall in Hatt. by apply Hatt, cached_order.
Qed.

(** In a linked heap, the depth pass reaches the holder of every entry with
    two or more segments. *)
Lemma holder_reached h :
  well_linked data = true → Good data h →
  Sorted data (order (cached data)) h →
  (∀ k, entry data k = true → attached h k) →
  ∀ n k, segments k = n → 2 ≤ n → entry data k = true →
         rtc (edge h) RootRef (holder k).
Proof.
  intros Hwl Hgood Hsorted Hatt n.
  induction n as [n IH] using lt_wf_ind. intros k Hn Hge Hk.
  unfold holder. case_decide as Hs; [done|].
  assert (Hl : linkable data k = true) by (by apply well_linked_spec).
  unfold linkable in Hl. rewrite bool_decide_eq_false_2 in Hl by done.
  simpl in Hl. apply andb_true_iff in Hl as [Hdir Hnofile%negb_true_iff].
  assert (Hpp : entry data (parent_path k) = true) by (unfold entry; by rewrite Hdir).
  pose proof (segments_parent_path k ltac:(lia)) as Hseg.
  eapply rtc_r; [apply (IH (n - 1) ltac:(lia) (parent_path k)); [lia|lia|done]|].
  destruct (proj1 (attached_holder h _) (Hatt _ Hpp)) as (o & Ho & Hin).
  exists o. split; [done|]. apply elem_of_app in Hin as [Hin|Hin]; [|done].
  destruct (Hsorted _ _ Ho) as (_ & _ & Hfiles & _).
  destruct (Hfiles _ Hin) as (k' & [= <-] & _ & Hfile). congruence.
Qed.

(** The two passes on a well linked listing. *)
Lemma tree_built fuel :
  well_linked data = true → enough_fuel data ≤ fuel →
  ∃ h1 h,
    link (order (cached data)) (cached data) = Normal h1
    ∧ getDepth fuel RootRef 0 h1 = Some h
    ∧ Good data h1 ∧ Labelled h1 ∧ Sorted data (order (cached data)) h1
    ∧ (∀ k, entry data k = true → attached h1 k)
    ∧ SameKids h1 h ∧ Kept h1 h
    ∧ (∀ k, entry data k = true → 2 ≤ segments k → depth_ok h k).
Proof.
  intros Hwl Hfuel.
  destruct (linked Hwl) as (h1 & Hlink & Hgood & Hlab & Hsorted & Hatt).
  destruct (getDepth_levels (longest data) fuel RootRef h1)
    as (h & Hget & Hsame & Hkept & Hdepth).
  { by apply Good_Descends. }
  { by apply Good_Levelled. }
  { done. }
  { unfold enough_fuel in Hfuel. simpl. lia. }
  exists h1, h. split_and!; try done.
  intros k Hk Hge.
  destruct (proj1 (attached_holder h1 k) (Hatt k Hk)) as (po & Hpo & Hin).
  apply (Hdepth (holder k) po k); [|done|done].
  eapply holder_reached; done.
Qed.

(** The objects of the tree returned. *)
Lemma tree_objects h1 h k :
  Good data h1 → Labelled h1 → Kept h1 h → entry data k = true →
  ∃ o, objs h !! k = Some o
       ∧ id (props_of o) = k ∧ path (props_of o) = k
       ∧ (type (props_of o) = DIRECTORY ↔ is_dir o = true)
       ∧ is_dir o = negb (file_at data k)
       ∧ (depth (props_of o) = 0 ∨ depth (props_of o) = segments k - 1).
Proof.
  intros (_ & Hdom & Hobj & _) Hlab [_ Hkept] Hk.
  destruct (proj2 (Hdom k) Hk) as [o1 Ho1].
  destruct (Hlab k o1 Ho1) as (Hty & Hid & Hpath & Hzero).
  destruct (Hobj k o1 Ho1) as [_ Hkind].
  specialize (Hkept k). rewrite Ho1 in Hkept.
  destruct (objs h !! k) as [o|] eqn:Ho; [|done]. destruct Hkept as [Hdir Hprops].
  exists o. split; [done|]. rewrite Hdir.
  destruct Hprops as [E|E]; rewrite E; simpl; split_and!; auto.
Qed.

Lemma built fuel h :
  buildFileTree fuel data = Returned h →
  well_linked data = true
  ∧ ∃ h1, link (order (cached data)) (cached data) = Normal h1
          ∧ getDepth fuel RootRef 0 h1 = Some h.
Proof.
  intros Hb. destruct (well_linked data) eqn:Hwl.
  - split; [done|]. unfold buildFileTree in Hb.
    destruct (link _ _) as [h1|]; [|done]. exists h1. split; [done|].
    destruct (getDepth _ _ _ _); [|done]. congruence.
  - destruct (buildFileTree_throws data fuel Hwl) as [e He]. congruence.
Qed.

End build.

(** X8. In the tree [buildFileTree] returns, the root keeps depth 0, and
    the object cached for an entry of the listing has the entry's path as
    [id] and [path], is a directory object exactly when no file of the
    listing has that path, and has as [depth] the number of segments of its
    path less one: 1 directly under the root, one more per level. *)
Theorem buildFileTree_depths (data : list RemoteFile.t) (fuel : nat) :
  well_linked data = true → enough_fuel data ≤ fuel →
  ∃ h, buildFileTree fuel data = Returned h
       ∧ props_of (rootDir h) = mkProps "root" DIRECTORY "root" None "" None 0
       ∧ ∀ x, x ∈ data →
           ∃ o, objs h !! RemoteFile.path x = Some o
                ∧ id (props_of o) = RemoteFile.path x
                ∧ path (props_of o) = RemoteFile.path x
                ∧ is_dir o = negb (file_at data (RemoteFile.path x))
                ∧ depth (props_of o) = segments (RemoteFile.path x) - 1.
Proof.
  intros Hwl Hfuel. unfold buildFileTree.
  destruct (tree_built data fuel Hwl Hfuel)
    as (h1 & h & Hlink & Hget & Hgood & Hlab & _ & _ & _ & Hkept & Hdepth).
  rewrite Hlink, Hget. exists h. split_and!; [done| |].
  - destruct Hkept as [-> _]. by rewrite (link_root_props _ _ _ Hlink), cached_root.
  - intros x Hx. set (k := RemoteFile.path x).
    assert (Hk : entry data k = true) by (apply entry_spec; eauto).
    destruct (tree_objects data h1 h k Hgood Hlab Hkept Hk)
      as (o & Ho & Hid & Hpath & _ & Hkind & Hd).
    exists o. split_and!; [done..|].
    destruct (decide (2 ≤ segments k)) as [Hge|Hlt].
    + destruct (Hdepth k Hk Hge) as (o' & Ho' & Hd'). rewrite Ho in Ho'.
      by injection Ho' as <-.
    + destruct Hd as [-> | ->]; lia.
Qed.

Lemma buildFileTree_depths_witness :
  let data := [RemoteFile.mk RemoteFile.dir "a" "/a"; RemoteFile.mk RemoteFile.file "b.txt" "/b.txt";
               RemoteFile.mk RemoteFile.file "x.txt" "/a/x.txt"] in
  ∃ h, buildFileTree (enough_fuel data) data = Returned h
       ∧ props_of (rootDir h) = mkProps "root" DIRECTORY "root" None "" None 0
       ∧ ∀ x, x ∈ data →
           ∃ o, objs h !! RemoteFile.path x = Some o
                ∧ id (props_of o) = RemoteFile.path x
                ∧ path (props_of o) = RemoteFile.path x
                ∧ is_dir o = negb (file_at data (RemoteFile.path x))
                ∧ depth (props_of o) = segments (RemoteFile.path x) - 1.
Proof.
  intros data. apply (buildFileTree_depths data (enough_fuel data)); [reflexivity|lia].
Defined.

(** X9. In the tree [buildFileTree] returns, every entry of the listing is
    in the tree exactly once and in the right array: no array holds a
    reference twice; the [files] array of a directory object holds the
    objects of the paths that a file of the listing has and whose holder the
    directory is; its [dirs] array holds the objects of the paths that a
    directory but no file of the listing has and whose holder it is; the
    holder being the root for a path of two segments and the object of the
    parent path otherwise. *)
Theorem buildFileTree_arrays (data : list RemoteFile.t) (fuel : nat) (h : Heap)
    (r : Ref) (o : Obj) :
  buildFileTree fuel data = Returned h →
  deref r h = Some o →
  NoDup (files_of o) ∧ NoDup (dirs_of o)
  ∧ ∀ r',
      (r' ∈ files_of o ↔
       ∃ k, r' = CacheRef k ∧ file_at data k = true ∧ holder k = r)
      ∧ (r' ∈ dirs_of o ↔
         ∃ k, r' = CacheRef k ∧ dir_at data k = true ∧ file_at data k = false
              ∧ holder k = r).
Proof.
  intros (Hwl & h1 & Hlink & Hget)%built Ho.
  destruct (linked data Hwl) as (h1' & Hlink' & Hgood & Hlab & Hsorted & Hatt).
  rewrite Hlink in Hlink'. injection Hlink' as <-.
  pose proof (getDepth_SameKids _ _ _ _ _ Hget) as Hsame.
  destruct (Hsame r) as [Hf Hd]. rewrite Ho in Hf, Hd.
  destruct (deref r h1) as [o1|] eqn:Ho1; [|done].
  injection Hf as Hf. injection Hd as Hd. rewrite Hf, Hd. clear Hf Hd.
  destruct (Hsorted r o1 Ho1) as (Hnf & Hnd & Hfiles & Hdirs).
  assert (Hholder : ∀ k, CacheRef k ∈ children o1 → holder k = r ∧ entry data k = true).
  { destruct Hgood as (_ & _ & _ & Hrc & Hoc). intros k Hin. unfold holder.
    destruct r as [|pp]; simpl in Ho1.
    - injection Ho1 as <-. destruct (Hrc _ Hin) as (k' & [= <-] & Hs & Hk).
      by rewrite decide_True.
    - destruct (Hoc pp o1 _ Ho1 Hin) as (k' & [= <-] & Hs & Hpp & Hk).
      rewrite decide_False by done. by subst pp. }
  assert (Hback : ∀ k, entry data k = true → holder k = r → CacheRef k ∈ children o1).
  { intros k Hk Hr. destruct (proj1 (attached_holder h1 k) (Hatt k Hk)) as (po & Hpo & Hin).
    rewrite Hr, Ho1 in Hpo. by injection Hpo as <-. }
  split_and!; [done|done|]. intros r'. split; split.
  - intros Hin. destruct (Hfiles r' Hin) as (k & -> & _ & Hfile).
    exists k. split_and!; [done|done|]. apply Hholder, elem_of_app. by left.
  - intros (k & -> & Hfile & Hr).
    assert (Hk : entry data k = true) by (unfold entry; by rewrite Hfile, orb_true_r).
    destruct (proj1 (elem_of_app _ _ _) (Hback k Hk Hr)) as [Hin|Hin]; [done|].
    destruct (Hdirs _ Hin) as (k' & [= <-] & _ & Hno). congruence.
  - intros Hin. destruct (Hdirs r' Hin) as (k & -> & _ & Hfile).
    destruct (Hholder k) as [Hr Hk]; [apply elem_of_app; by right|].
    exists k. split_and!; [done| |done|done].
    unfold entry in Hk. by rewrite Hfile, orb_false_r in Hk.
  - intros (k & -> & Hdir & Hfile & Hr).
    assert (Hk : entry data k = true) by (unfold entry; by rewrite Hdir).
    destruct (proj1 (elem_of_app _ _ _) (Hback k Hk Hr)) as [Hin|Hin]; [|done].
    destruct (Hfiles _ Hin) as (k' & [= <-] & _ & Hyes). congruence.
Qed.

Lemma buildFileTree_arrays_witness :
  let data := [RemoteFile.mk RemoteFile.dir "a" "/a"; RemoteFile.mk RemoteFile.file "b.txt" "/b.txt";
               RemoteFile.mk RemoteFile.file "x.txt" "/a/x.txt"] in
  ∃ h o,
    buildFileTree (enough_fuel data) data = Returned h
    ∧ deref (CacheRef "/a") h = Some o
    ∧ NoDup (files_of o) ∧ NoDup (dirs_of o)
    ∧ ∀ r',
        (r' ∈ files_of o ↔
         ∃ k, r' = CacheRef k ∧ file_at data k = true ∧ holder k = CacheRef "/a")
        ∧ (r' ∈ dirs_of o ↔
           ∃ k, r' = CacheRef k ∧ dir_at data k = true ∧ file_at data k = false
                ∧ holder k = CacheRef "/a").
Proof.
  intros data.
  destruct (buildFileTree_returns data (enough_fuel data) eq_refl (le_n _)) as (h & Hb & Hatt).
  destruct (Hatt (RemoteFile.mk RemoteFile.file "x.txt" "/a/x.txt")) as (o & Ho & _).
  { right. right. left. }
  exists h, o. split; [done|]. split; [done|].
  exact (buildFileTree_arrays data _ h (CacheRef "/a") o Hb Ho).
Defined.

End TreeFacts.


(** ** The default selection of the editor *)

Module EditorFacts.
Import Js JsString FileManager TreeShape Editor.
Import PathFacts BuildFacts DepthFacts TreeFacts.

(** X10. With nothing selected, the editor asks for the content of a file
    directly under the root, whichever the sorting of the render put first
    (sorting permutes the array). If the listing has no file with a path of
    two segments, which includes the empty listing and a workspace with only
    directories at the top, [onSelect] is called with [undefined] and
    throws. *)
Theorem editor_default_selection (data : list RemoteFile.t) (fuel : nat) :
  well_linked data = true → enough_fuel data ≤ fuel →
  ∃ h, buildFileTree fuel data = Returned h
       ∧ ∀ sorted, sorted ≡ₚ files_of (rootDir h) →
           match default_selection sorted h None with
           | Some (Normal (FetchContent p)) => file_at data p = true ∧ segments p = 2
           | Some (Abrupt e) =>
               e = JsError "TypeError: Cannot read properties of undefined (reading 'type')"
               ∧ ∀ p, file_at data p = true → segments p ≠ 2
           | _ => False
           end.
Proof.
  intros Hwl Hfuel. unfold buildFileTree.
  destruct (tree_built data fuel Hwl Hfuel)
    as (h1 & h & Hlink & Hget & Hgood & Hlab & Hsorted & Hatt & Hsame & Hkept & _).
  rewrite Hlink, Hget. exists h. split; [done|]. intros sorted Hperm.
  destruct (Hsame RootRef) as [Hfiles _]. simpl in Hfiles. injection Hfiles as Hfiles.
  rewrite Hfiles in Hperm. unfold default_selection.
  destruct (Hsorted RootRef _ eq_refl) as (_ & _ & Hf & _).
  destruct sorted as [|r sorted]; simpl.
  - split; [done|]. intros p Hp Hs.
    assert (Hk : entry data p = true) by (unfold entry; by rewrite Hp, orb_true_r).
    pose proof (Hatt p Hk) as Hin. unfold attached in Hin. rewrite decide_True in Hin by done.
    apply elem_of_app in Hin as [Hin|Hin].
    + apply Permutation_nil_l in Hperm. rewrite <- Hperm in Hin. by apply elem_of_nil in Hin.
    + destruct (Hsorted RootRef _ eq_refl) as (_ & _ & _ & Hd).
      destruct (Hd _ Hin) as (k & [= <-] & _ & Hno). congruence.
  - assert (Hr : r ∈ files_of (rootDir h1)) by (rewrite <- Hperm; left).
    destruct (Hf r Hr) as (k & -> & _ & Hfile).
    assert (Hk : entry data k = true) by (unfold entry; by rewrite Hfile, orb_true_r).
    destruct (tree_objects data h1 h k Hgood Hlab Hkept Hk)
      as (o & Ho & _ & Hpath & Hty & Hkind & _).
    change (deref (CacheRef k) h) with (objs h !! k). rewrite Ho. simpl.
    rewrite Hfile in Hkind. simpl in Hkind.
    rewrite decide_False by (intros Hd%Hty; congruence).
    rewrite Hpath. split; [done|].
    destruct Hgood as (_ & _ & _ & Hrc & _).
    destruct (Hrc (CacheRef k)) as (k' & [= <-] & Hs & _); [|done].
    apply elem_of_app. by left.
Qed.

Lemma editor_default_selection_witness :
  let data := [RemoteFile.mk RemoteFile.dir "a" "/a"; RemoteFile.mk RemoteFile.file "b.txt" "/b.txt";
               RemoteFile.mk RemoteFile.file "x.txt" "/a/x.txt"] in
  ∃ h, buildFileTree (enough_fuel data) data = Returned h
       ∧ ∀ sorted, sorted ≡ₚ files_of (rootDir h) →
           match default_selection sorted h None with
           | Some (Normal (FetchContent p)) => file_at data p = true ∧ segments p = 2
           | Some (Abrupt e) =>
               e = JsError "TypeError: Cannot read properties of undefined (reading 'type')"
               ∧ ∀ p, file_at data p = true → segments p ≠ 2
           | _ => False
           end.
Proof.
  intros data. apply (editor_default_selection data (enough_fuel data)); [reflexivity|lia].
Defined.

End EditorFacts.


(** ** Which directory rows start open *)

Module FileTreeFacts.
Import FileManager FileTree FindFileFacts.

Lemma subdirs_self d : d ∈ subdirs d.
Proof. destruct d. left. Qed.

Lemma isChild_scan f d res :
  parentId f ≠ Some "0" →
  isChild f d res
  = res || existsb (λ d', bool_decide (parentId f = Some (id (props d')))) (subdirs d).
Proof.
  intros Hf. revert res. induction d as [p fs ds IH] using Directory_tree_ind.
  intros res. cbn [isChild subdirs existsb props]. case_decide as Hp.
  - by rewrite bool_decide_eq_true_2, orb_true_r.
  - rewrite decide_False, bool_decide_eq_false_2 by done. cbn [orb].
    revert res. induction IH as [|d ds Hd _ IHds]; intros res; cbn.
    + by rewrite orb_false_r.
    + rewrite IHds, Hd, existsb_app, orb_assoc. done.
Qed.

(** X11. A directory row starts open exactly when the selected file's
    [parentId] is the [id] of the directory or of a directory below it. The
    exception is a selected file directly under the root ([parentId] ["0"]):
    then no row starts open, unless the directory itself has [id] ["0"]. *)
Theorem isChildSelected_iff (directory : Directory) (selectedFile : File) :
  (parentId selectedFile ≠ Some "0" →
     (isChildSelected directory selectedFile = true ↔
      ∃ d, d ∈ subdirs directory ∧ parentId selectedFile = Some (id (props d))))
  ∧ (parentId selectedFile = Some "0" →
       (isChildSelected directory selectedFile = true ↔ id (props directory) = "0")).
Proof.
  split; intros Hf.
  - unfold isChildSelected. rewrite isChild_scan by done. cbn [orb].
    rewrite existsb_exists. split.
    + intros (d & Hd%list_elem_of_In & Hp%bool_decide_eq_true). eauto.
    + intros (d & Hd & Hp). exists d. split; [by apply list_elem_of_In|].
      by apply bool_decide_eq_true_2.
  - unfold isChildSelected. destruct directory as [p fs ds]. cbn [isChild props].
    rewrite Hf. case_decide as Hp.
    + split; [intros _; congruence|done].
    + rewrite decide_True by done. split; [done|]. intros Hid. destruct Hp. by rewrite Hid.
Qed.

End FileTreeFacts.


(** ** What a search by name can return *)

Module SearchFacts.
Import FileManager FindFileFacts.

(** X12. [findFileByName] finds a file whenever the tree has one of that
    name, and what it returns is a file of the tree with that name; it
    returns [undefined] only if no file of the tree, at any depth, has the
    name. Directories are never returned, whatever their name. *)
Theorem findFileByName_found_iff (rootDir : Directory) (filename : string) :
  match findFileByName rootDir filename with
  | Some f => f ∈ traversal rootDir ∧ name f = filename
  | None => ∀ f, f ∈ traversal rootDir → name f ≠ filename
  end.
Proof.
  rewrite findFileByName_last. unfold matches.
  destruct (last _) as [f|] eqn:Hlast.
  - apply last_Some_elem_of, list_elem_of_filter in Hlast as [Hname Hin]. done.
  - apply last_None in Hlast. intros f Hin Hname.
    assert (Hf : f ∈ filter (λ f, name f = filename) (traversal rootDir))
      by (by apply list_elem_of_filter).
    rewrite Hlast in Hf. by apply elem_of_nil in Hf.
Qed.

End SearchFacts.


(** ** The socket server *)

Module WsFacts.
Import Js JsString Ws.
Import PathFacts ProtocolFacts.

(** *** Which connections are served *)

Lemma split_free sep s : occurrences sep s = 0 → split sep s = [s].
Proof.
  induction s as [|c s IH]; [done|].
  cbn. destruct (decide (c = sep)); [done|]. intros H. by rewrite (IH H).
Qed.

Lemma head_split_free sep s : ∃ r, head (split sep s) = Some r ∧ occurrences sep r = 0.
Proof.
  induction s as [|c s (r & Hr & Hfree)]; [by exists ""|].
  cbn. destruct (decide (c = sep)) as [->|Hc]; [by exists ""|].
  destruct (split sep s) as [|seg segs]; [done|]. injection Hr as ->.
  exists (String c r). split; [done|]. cbn. by rewrite decide_False.
Qed.

Lemma replId_of_subdomain replId domain :
  occurrences "." replId = 0 →
  replId_of (Some (replId +:+ "." +:+ domain)) = Some replId.
Proof.
  intros Hfree. unfold replId_of. cbn [mbind option_bind].
  change (replId +:+ "." +:+ domain) with (replId +:+ String "." domain).
  by rewrite split_app_sep, (split_free _ _ Hfree).
Qed.

(** X13. Which connections the server serves. A connection whose Host
    header is a non-empty, dot-free [replId] followed by a dot and anything
    (as in the URL [ws://${replId}.peetcode.com] the client opens) is sent
    the root listing and gets its handlers, with exactly that [replId];
    nothing is killed or disconnected. A connection is refused (disconnected,
    no handlers, nothing sent) exactly when the header is missing, empty, or
    starts with a dot. The [replId] a served socket works under never
    contains a dot. When the directory [/workspace] cannot be read, a
    connection with a good header is neither served nor refused: nothing is
    sent, no handler is registered, and the socket stays connected. *)
Theorem connection_served (sv : Server) (socket : string) :
  (∀ replId domain files,
     replId ≠ "" → occurrences "." replId = 0 →
     let sv' := connection socket (Some (replId +:+ "." +:+ domain)) (Normal files) sv in
     handlers sv' = <[socket := replId]> (handlers sv)
     ∧ sent sv' = (socket, Loaded (Fs.fetchDir files "")) :: sent sv
     ∧ manager sv' = manager sv ∧ closed sv' = closed sv)
  ∧ (∀ host workspace,
       let sv' := connection socket host workspace sv in
       (host = None ∨ host = Some "" ∨ (∃ rest, host = Some (String "." rest))) ↔
       closed sv' = socket :: closed sv)
  ∧ (∀ host workspace replId,
       handlers (connection socket host workspace sv) !! socket = Some replId →
       handlers sv !! socket ≠ Some replId →
       occurrences "." replId = 0 ∧ replId ≠ ""
       ∧ ∃ rest, host = Some (replId +:+ rest))
  ∧ (∀ replId domain e,
       replId ≠ "" → occurrences "." replId = 0 →
       let sv' := connection socket (Some (replId +:+ "." +:+ domain)) (Abrupt e) sv in
       handlers sv' = handlers sv ∧ sent sv' = sent sv ∧ closed sv' = closed sv
       ∧ manager sv' = manager sv).
Proof.
  split_and!.
  - intros replId domain files Hne Hfree. unfold connection.
    rewrite (replId_of_subdomain _ _ Hfree). by destruct replId.
  - intros host workspace. unfold connection.
    destruct host as [[|c host]|]; cbn [replId_of mbind option_bind].
    + cbn. split; [done|]. intros _. by right; left.
    + cbn [split]. destruct (decide (c = "."%char)) as [->|Hc].
      * cbn. split; [done|]. intros _. right; right. by eexists.
      * destruct (split "." host) as [|seg segs] eqn:E;
          [by destruct (split_not_nil "." host)|].
        cbn [head]. split.
        -- intros [?|[?|[rest [= -> _]]]]; done.
        -- destruct workspace; cbn; intros Hclosed;
             by apply (f_equal length) in Hclosed; cbn in Hclosed; lia.
    + cbn. split; [done|]. intros _. by left.
  - intros host workspace replId. unfold connection.
    destruct host as [host|]; cbn [replId_of mbind option_bind]; [|by cbn; intros ->].
    destruct (head_split_free "." host) as (r & Hr & Hfree). rewrite Hr.
    destruct r as [|c r]; [by cbn; intros ->|].
    destruct workspace as [files|e]; [|by cbn; intros ->].
    cbn. rewrite lookup_insert_eq. intros [= <-] _. split_and!; [done|done|].
    clear -Hr. revert c r Hr. induction host as [|d host IH]; intros c r; [done|].
    cbn. destruct (decide (d = "."%char)); [done|].
    destruct (split "." host) as [|seg segs] eqn:E;
      [by destruct (split_not_nil "." host)|].
    intros [= -> ->].
    destruct r as [|c' r].
    + by exists host.
    + destruct (IH c' r eq_refl) as [rest [= Hrest]].
      exists rest. by rewrite string_app_cons, <- Hrest.
  - intros replId domain e Hne Hfree. unfold connection.
    rewrite (replId_of_subdomain _ _ Hfree). by destruct replId.
Qed.

(** *** Shells and sockets *)

Lemma run_app inputs1 inputs2 sv : run (inputs1 ++ inputs2) sv = run inputs2 (run inputs1 sv).
Proof. apply foldl_app. Qed.

Lemma connections_app inputs1 inputs2 :
  connections (inputs1 ++ inputs2) = connections inputs1 ++ connections inputs2.
Proof. apply omap_app. Qed.

Lemma connection_manager socket host w sv :
  manager (connection socket host w sv) = manager sv
  ∨ manager (connection socket host w sv) = TerminalManager.clear socket (manager sv).
Proof.
  unfold connection. destruct (replId_of host) as [[|c r]|]; [by right| |by right].
  destruct w; by left.
Qed.

Lemma Registered_step sv i : Registered sv → Registered (step sv i).
Proof.
  intros Hreg s. destruct i as [socket host w|socket p|socket data|socket|p data|p]; cbn.
  - unfold connection. destruct (replId_of host) as [[|c r]|]; cbn.
    + rewrite lookup_delete. case_decide; [by intros []|].
      destruct (TerminalManager.sessions (manager sv) !! socket); apply Hreg.
    + destruct w; cbn; [|apply Hreg]. intros H%Hreg. rewrite lookup_insert.
      case_decide; [by eexists|done].
    + rewrite lookup_delete. case_decide; [by intros []|].
      destruct (TerminalManager.sessions (manager sv) !! socket); apply Hreg.
  - destruct (handlers sv !! socket) as [r|] eqn:Hs; cbn; [|apply Hreg].
    rewrite lookup_insert. case_decide; [subst; by rewrite Hs|apply Hreg].
  - destruct (handlers sv !! socket); cbn; [|apply Hreg].
    unfold TerminalManager.write. destruct (_ !! socket); apply Hreg.
  - destruct (handlers sv !! socket); apply Hreg.
  - destruct (output_to sv !! p); apply Hreg.
  - rewrite lookup_delete. case_decide; [by intros []|apply Hreg].
Qed.

Lemma handlers_step sv i s :
  s ∉ connections [i] → handlers (step sv i) !! s = handlers sv !! s.
Proof.
  intros Hs. destruct i as [socket host w|socket p|socket data|socket|p data|p]; cbn.
  - assert (socket ≠ s) by (intros ->; apply Hs; left).
    unfold connection. destruct (replId_of host) as [[|c r]|]; cbn; [done| |done].
    destruct w; cbn; [|done]. by rewrite lookup_insert_ne.
  - by destruct (handlers sv !! socket).
  - by destruct (handlers sv !! socket).
  - by destruct (handlers sv !! socket).
  - by destruct (output_to sv !! p).
  - done.
Qed.

Lemma live_step sv i p :
  Registered sv →
  (∀ s, s ∈ connections [i] → handlers sv !! s = None) →
  i ≠ Exit p →
  p ∈ TerminalManager.live (manager sv) → p ∈ TerminalManager.live (manager (step sv i)).
Proof.
  intros Hreg Hfresh Hexit Hp.
  destruct i as [socket host w|socket q|socket data|socket|q data|q]; cbn.
  - destruct (connection_manager socket host w sv) as [-> | ->]; [done|].
    unfold TerminalManager.clear.
    destruct (TerminalManager.sessions (manager sv) !! socket) as [sess|] eqn:Hsess; [|done].
    destruct (Hreg socket) as [? Hsome]; [by eexists|].
    rewrite Hfresh in Hsome; [done|left].
  - destruct (handlers sv !! socket); cbn; [|done]. set_solver.
  - destruct (handlers sv !! socket); cbn; [|done].
    unfold TerminalManager.write. by destruct (_ !! socket).
  - by destruct (handlers sv !! socket).
  - by destruct (output_to sv !! q).
  - assert (p ≠ q) by congruence. set_solver.
Qed.

Lemma live_run inputs sv p :
  Registered sv →
  NoDup (connections inputs) →
  (∀ s, s ∈ connections inputs → handlers sv !! s = None) →
  Exit p ∉ inputs →
  p ∈ TerminalManager.live (manager sv) → p ∈ TerminalManager.live (manager (run inputs sv)).
Proof.
  revert sv. induction inputs as [|i inputs IH]; intros sv Hreg Hnd Hfresh Hexit Hp; [done|].
  change (i :: inputs) with ([i] ++ inputs) in Hnd, Hfresh.
  rewrite connections_app in Hnd, Hfresh. apply NoDup_app in Hnd as (Hnd1 & Hdisj & Hnd2).
  cbn [run foldl]. apply IH.
  - by apply Registered_step.
  - done.
  - intros s Hs. rewrite handlers_step; [|by intros ?%Hdisj].
    apply Hfresh, elem_of_app. by right.
  - intros Hin. apply Hexit. by right.
  - apply live_step; [done| |intros ->; apply Hexit; left|done].
    intros s Hs. apply Hfresh, elem_of_app. by left.
Qed.

Lemma Registered_run inputs sv : Registered sv → Registered (run inputs sv).
Proof.
  revert sv. induction inputs as [|i inputs IH]; intros sv Hreg; [done|].
  apply IH. by apply Registered_step.
Qed.

Lemma handlers_run inputs sv s :
  s ∉ connections inputs → handlers (run inputs sv) !! s = handlers sv !! s.
Proof.
  revert sv. induction inputs as [|i inputs IH]; intros sv Hs; [done|].
  change (i :: inputs) with ([i] ++ inputs) in Hs. rewrite connections_app in Hs.
  cbn [run foldl]. etrans; [apply IH|apply handlers_step].
  - intros Hin. apply Hs, elem_of_app. by right.
  - intros Hin. apply Hs, elem_of_app. by left.
Qed.

Lemma handlers_run_None inputs sv s :
  handlers (run inputs sv) !! s = None → handlers sv !! s = None.
Proof.
  revert sv. induction inputs as [|i inputs IH]; intros sv; [done|].
  intros H%IH. revert H.
  destruct i as [socket host w|socket p|socket data|socket|p data|p]; cbn.
  - unfold connection. destruct (replId_of host) as [[|c r]|]; cbn; [done| |done].
    destruct w; cbn; [|done]. rewrite lookup_insert. by case_decide.
  - by destruct (handlers sv !! socket).
  - by destruct (handlers sv !! socket).
  - by destruct (handlers sv !! socket).
  - by destruct (output_to sv !! p).
  - done.
Qed.

(** X14. Shells outlive their sockets. From the start of the server, with
    every connection on a socket id of its own, a shell process that is
    running keeps running until it exits by itself, whatever the sockets
    deliver afterwards: disconnecting, requesting further terminals, typing,
    other sockets connecting or being refused. The server's only call of
    [clear] is for a socket being refused, which has no session. *)
Theorem shells_outlive_sockets (before after : list Input) (p : TerminalManager.pid) :
  NoDup (connections (before ++ after)) →
  p ∈ TerminalManager.live (manager (run before start)) →
  Exit p ∉ after →
  p ∈ TerminalManager.live (manager (run (before ++ after) start)).
Proof.
  intros Hnd Hp Hexit. rewrite run_app. rewrite connections_app in Hnd.
  apply NoDup_app in Hnd as (_ & Hdisj & Hnd). apply live_run; [|done| |done|done].
  - apply Registered_run. by intros s [? H].
  - intros s Hs. destruct (handlers (run before start) !! s) as [r|] eqn:Hr; [|done].
    destruct (decide (s ∈ connections before)) as [Hin|Hout]; [by destruct (Hdisj s)|].
    by rewrite handlers_run in Hr.
Qed.

Lemma shells_outlive_sockets_witness :
  let before := [Connection "s1" (Some "r1.peetcode.com") (Normal []);
                 RequestTerminal "s1" 7%N] in
  let after := [Disconnect "s1"; Connection "s2" None (Normal []);
                TerminalData "s1" "ls"] in
  7%N ∈ TerminalManager.live (manager (run (before ++ after) start)).
Proof.
  intros before after. apply (shells_outlive_sockets before after 7%N).
  - apply (bool_decide_unpack _). by vm_compute.
  - apply (bool_decide_unpack _). by vm_compute.
  - apply (bool_decide_unpack _). by vm_compute.
Defined.

(** *** Where input goes and output comes from *)

Lemma last_requested_cons socket i inputs :
  last_requested socket (i :: inputs) =
  match last_requested socket inputs with
  | Some p => Some p
  | None => last_requested socket [i]
  end.
Proof.
  unfold last_requested. change (i :: inputs) with ([i] ++ inputs).
  rewrite omap_app, last_app. by destruct (last (omap _ inputs)).
Qed.

Lemma sessions_run inputs sv s r :
  handlers sv !! s = Some r → s ∉ connections inputs →
  (∀ q, Exit q ∈ inputs → TerminalManager.pid_key q ≠ s) →
  TerminalManager.sessions (manager (run inputs sv)) !! s =
  match last_requested s inputs with
  | Some p => Some (TerminalManager.mkSession p r)
  | None => TerminalManager.sessions (manager sv) !! s
  end.
Proof.
  revert sv. induction inputs as [|i inputs IH]; intros sv Hs Hconn Hexit; [done|].
  change (i :: inputs) with ([i] ++ inputs) in Hconn. rewrite connections_app in Hconn.
  assert (Hc1 : s ∉ connections [i]) by (intros ?; apply Hconn, elem_of_app; by left).
  assert (Hc2 : s ∉ connections inputs) by (intros ?; apply Hconn, elem_of_app; by right).
  cbn [run foldl]. rewrite last_requested_cons.
  fold (run inputs (step sv i)). rewrite IH; [|by rewrite handlers_step|done|].
  2:{ intros q Hq. apply Hexit. by right. }
  destruct (last_requested s inputs) as [p|]; [done|].
  destruct i as [socket host w|socket p|socket data|socket|p data|p]; cbn.
  - assert (socket ≠ s) by (intros ->; apply Hc1; left).
    destruct (connection_manager socket host w sv) as [-> | ->]; [done|].
    rewrite TerminalManagerFacts.clear_sessions. by rewrite decide_False.
  - unfold last_requested. cbn. destruct (decide (socket = s)) as [->|Hne].
    + rewrite Hs. cbn. by rewrite lookup_insert_eq.
    + destruct (handlers sv !! socket); cbn; [|done]. by rewrite lookup_insert_ne.
  - destruct (handlers sv !! socket); cbn; [|done].
    unfold TerminalManager.write. by destruct (_ !! socket).
  - by destruct (handlers sv !! socket).
  - by destruct (output_to sv !! p).
  - rewrite lookup_delete_ne; [done|]. apply Hexit. left.
Qed.

Lemma output_to_run inputs sv s r p :
  handlers sv !! s = Some r → s ∉ connections inputs →
  output_to sv !! p = Some s ∨ RequestTerminal s p ∈ inputs →
  (∀ s', s' ≠ s → RequestTerminal s' p ∉ inputs) →
  output_to (run inputs sv) !! p = Some s.
Proof.
  revert sv. induction inputs as [|i inputs IH]; intros sv Hs Hconn Hp Hother.
  { by destruct Hp as [?|?%elem_of_nil]. }
  change (i :: inputs) with ([i] ++ inputs) in Hconn. rewrite connections_app in Hconn.
  assert (Hc1 : s ∉ connections [i]) by (intros ?; apply Hconn, elem_of_app; by left).
  assert (Hc2 : s ∉ connections inputs) by (intros ?; apply Hconn, elem_of_app; by right).
  cbn [run foldl]. apply IH; [by rewrite handlers_step|done| |].
  2:{ intros s' Hs' Hin. apply (Hother s' Hs'). by right. }
  destruct (decide (i = RequestTerminal s p)) as [->|Hi].
  { left. cbn. rewrite Hs. cbn. by rewrite lookup_insert_eq. }
  destruct Hp as [Hp|[?|Hp]%elem_of_cons]; [|done|by right]. left.
  destruct i as [socket host w|socket q|socket data|socket|q data|q]; cbn.
  - unfold connection. destruct (replId_of host) as [[|c rest]|]; [done| |done].
    by destruct w.
  - destruct (handlers sv !! socket); cbn; [|done].
    rewrite lookup_insert_ne; [done|]. intros ->.
    destruct (decide (socket = s)) as [->|Hne]; [done|].
    apply (Hother socket Hne). left.
  - by destruct (handlers sv !! socket).
  - by destruct (handlers sv !! socket).
  - by destruct (output_to sv !! q).
  - done.
Qed.

(** X15. Where terminal input goes and terminal output comes from. For a
    socket with handlers: what it types (["terminalData"]) is written to the
    shell of its last ["requestTerminal"] and to no other; but the output of
    every shell it ever requested is sent to it, as a ["terminal"] event.
    After a second ["requestTerminal"] the client so receives the output of
    two shells and can type into one. (The pid is assumed not to be given to
    another socket's shell, and the socket id not to be the decimal
    rendering of the pid of a process that exited.) *)
Theorem terminal_routing (sv : Server) (inputs : list Input) (s r : string)
    (p : TerminalManager.pid) (d : string) :
  handlers sv !! s = Some r → s ∉ connections inputs →
  (∀ q, Exit q ∈ inputs → TerminalManager.pid_key q ≠ s) →
  let sv' := run inputs sv in
  (∀ latest, last_requested s inputs = Some latest →
     TerminalManager.stdin (manager (step sv' (TerminalData s d)))
     = (latest, d) :: TerminalManager.stdin (manager sv'))
  ∧ (RequestTerminal s p ∈ inputs →
     (∀ s', s' ≠ s → RequestTerminal s' p ∉ inputs) →
     sent (step sv' (Data p d)) = (s, Terminal d) :: sent sv').
Proof.
  intros Hs Hconn Hexit sv'. split.
  - intros latest Hlatest. cbn. unfold sv'. rewrite handlers_run, Hs by done. cbn.
    unfold TerminalManager.write.
    by rewrite (sessions_run inputs sv s r Hs Hconn Hexit), Hlatest.
  - intros Hp Hother. cbn. unfold sv'.
    by rewrite (output_to_run inputs sv s r p Hs Hconn (or_intror Hp) Hother).
Qed.

Lemma terminal_routing_witness :
  let sv := run [Connection "s1" (Some "r1.peetcode.com") (Normal [])] start in
  let sv' := run [RequestTerminal "s1" 7%N; RequestTerminal "s1" 8%N] sv in
  TerminalManager.stdin (manager (step sv' (TerminalData "s1" "ls")))
  = (8%N, "ls") :: TerminalManager.stdin (manager sv')
  ∧ sent (step sv' (Data 7%N "ls")) = ("s1", Terminal "ls") :: sent sv'.
Proof.
  intros sv.
  destruct (terminal_routing sv [RequestTerminal "s1" 7%N; RequestTerminal "s1" 8%N]
              "s1" "r1" 7%N "ls") as [Hin Hout].
  - by vm_compute.
  - apply (bool_decide_unpack _). by vm_compute.
  - intros q Hq%(bool_decide_pack _). by vm_compute in Hq.
  - split.
    + by apply Hin.
    + apply Hout.
      * left.
      * intros s' Hs' [[= ->]|[[=]|[]%elem_of_nil]%elem_of_cons]%elem_of_cons. done.
Defined.

End WsFacts.


(** ** What a provisioning run writes *)

Module TemplateFacts.
Import Js JsString Aws Template.
Import PathFacts AwsFacts ProvisioningFacts ProtocolFacts.

Lemma copyS3Folder_step bucket s3 src dst token depth maxDepth w :
  truthy bucket = true → depth ≤ maxDepth →
  copyS3Folder (Some bucket) s3 src dst token depth maxDepth w
  = try_catch
      (listedObjects ← try_catch (listObjectsV2 s3 bucket src token) list_failed;
       match Contents listedObjects with
       | None | Some [] =>
           print (Log [Text ("No files found in source folder: " +:+ src
                             +:+ ". List parameters:");
                       ListParams bucket src token])
       | Some contents =>
           _ ← for_chunks s3 bucket src dst (chunks_from 0 contents);
           if IsTruncated listedObjects then
             copyS3Folder (Some bucket) s3 src dst
               (NextContinuationToken listedObjects) (depth + 1) maxDepth
           else mret ()
       end)
      rethrow w.
Proof.
  intros Hb Hd. simp copyS3Folder. unfold defined. rewrite Hb. simpl.
  destruct (decide (maxDepth < depth)) as [?|?]; [lia|]. done.
Qed.

Lemma copyS3Folder_ceiling bucket s3 src dst token depth maxDepth w :
  truthy bucket = true → maxDepth < depth →
  copyS3Folder (Some bucket) s3 src dst token depth maxDepth w
  = (Abrupt (JsError "Maximum recursion depth exceeded while copying S3 folder."), w).
Proof.
  intros Hb Hd. simp copyS3Folder. unfold defined. rewrite Hb. simpl.
  destruct (decide (maxDepth < depth)) as [?|?]; [done|lia].
Qed.

Lemma concat_chunks_from {A} i (contents : list A) :
  concat (chunks_from i contents) = list.drop i contents.
Proof.
  funelim (chunks_from i contents).
  - simpl. rewrite H. unfold slice.
    replace (i + maxConcurrency - i) with maxConcurrency by lia.
    rewrite <- (take_drop maxConcurrency (list.drop i contents)) at 2.
    by rewrite drop_drop.
  - simpl. by rewrite drop_ge by lia.
Qed.

Lemma keys_under_agree prefix o o' :
  agree_under prefix o o' → keys_under o prefix = keys_under o' prefix.
Proof.
  intros Hag. unfold keys_under.
  replace (filter (λ kv, startsWith kv.1 prefix = true) o')
    with (filter (λ kv, startsWith kv.1 prefix = true) o); [done|].
  apply map_eq. intros k. rewrite !map_lookup_filter.
  destruct (startsWith k prefix) eqn:Hk.
  - by rewrite (Hag k Hk).
  - destruct (o !! k), (o' !! k); simpl; try done;
      rewrite ?option_guard_False; simpl; congruence.
Qed.

Lemma keys_under_NoDup o prefix : NoDup (keys_under o prefix).
Proof. apply NoDup_fst_map_to_list. Qed.

Lemma startsWith_truthy k p : startsWith k p = true → truthy p = true → truthy k = true.
Proof. by destruct p, k. Qed.

Lemma startsWith_parts k p :
  startsWith k p = true → k = p +:+ drop (String.length p) k.
Proof.
  revert k. induction p as [|c p IH]; intros k; [done|].
  destruct k as [|d k]; [done|]. cbn. case_decide; [|done]. subst d.
  intros H%IH. rewrite string_app_cons. by f_equal.
Qed.

Section copy.
Variables (bucket src dst : string) (pageSize : nat) (o0 : gmap string string).
Hypothesis Hbucket : truthy bucket = true.
Hypothesis Hsrc : truthy src = true.
Hypothesis Hout : lands_outside src dst.

Local Abbreviation s3 := (paged_store pageSize).

Local Abbreviation known := (known o0 src).

Lemma agree_writes W o :
  outside src W → agree_under src o0 o → agree_under src o0 (apply_writes W o).
Proof.
  intros HW Hag k Hk. by rewrite (apply_writes_outside src W o k HW Hk), <- (Hag k Hk).
Qed.

Lemma copies_outside contents : known contents → outside src (copies o0 src dst contents).
Proof.
  induction 1 as [|object contents (k & -> & Hk) _ IH]; [constructor|].
  cbn. constructor; [|done]. cbn. apply Hout. by apply keys_under_spec in Hk as [_ ?].
Qed.

Lemma promise_all_copies contents w :
  known contents → agree_under src o0 (objects w) →
  ∃ w', promise_all (map (copy_one s3 bucket src dst) contents) w = (Normal (), w')
        ∧ objects w' = apply_writes (copies o0 src dst contents) (objects w).
Proof.
  intros Hknown. revert w.
  induction Hknown as [|object contents (k & -> & Hk) Hknown IH]; intros w Hag.
  { by exists w. }
  apply keys_under_spec in Hk as [[body Hbody] Hpre].
  cbn [map promise_all]. unfold copy_one at 1. cbn [Key].
  rewrite (startsWith_truthy k src Hpre Hsrc). cbn [negb].
  unfold mbind, M_bind, bind, copyObject. cbn [copy_fault paged_store].
  rewrite <- (Hag k Hpre), Hbody. cbn.
  match goal with |- context [promise_all _ ?w1] => destruct (IH w1) as (w' & -> & Hw') end.
  { cbn. intros k' Hk'. rewrite lookup_insert_ne; [by apply Hag|].
    intros <-. by rewrite (Hout k Hpre) in Hk'. }
  exists w'. split; [done|]. rewrite Hw'. cbn. by rewrite Hbody.
Qed.

Lemma for_chunks_copies chunks w :
  Forall known chunks → agree_under src o0 (objects w) →
  ∃ w', for_chunks s3 bucket src dst chunks w = (Normal (), w')
        ∧ objects w' = apply_writes (copies o0 src dst (concat chunks)) (objects w).
Proof.
  intros Hknown. revert w. induction Hknown as [|chunk chunks Hc _ IH]; intros w Hag.
  { by exists w. }
  cbn [for_chunks]. unfold mbind, M_bind, bind.
  destruct (promise_all_copies chunk w Hc Hag) as (w1 & -> & Hw1).
  destruct (IH w1) as (w' & -> & Hw').
  { rewrite Hw1. apply agree_writes; [by apply copies_outside|done]. }
  exists w'. split; [done|].
  rewrite Hw', Hw1. cbn [concat]. unfold copies. by rewrite omap_app, apply_writes_app.
Qed.

Lemma known_listed keys : keys ⊆ keys_under o0 src → known (listed keys).
Proof.
  intros Hsub. apply Forall_forall. intros object (k & -> & Hk)%list_elem_of_fmap.
  exists k. split; [done|]. by apply Hsub.
Qed.

Lemma known_chunks contents : known contents → Forall known (chunks_from 0 contents).
Proof.
  intros Hknown. eapply Forall_impl; [apply chunks_from_elements|].
  intros chunk Hsub. apply Forall_forall. intros object Hin.
  unfold known in Hknown. rewrite Forall_forall in Hknown. by apply Hknown, Hsub.
Qed.

Lemma after_key_NoDup t l1 l2 : t ∉ l1 → after_key t (l1 ++ t :: l2) = l2.
Proof.
  induction l1 as [|x l1 IH]; intros Hnot; cbn.
  - by rewrite decide_True.
  - rewrite decide_False; [apply IH|]; set_solver.
Qed.

Lemma next_page keys visited pending t :
  NoDup keys → keys = visited ++ pending → 0 < pageSize →
  last (list.take pageSize pending) = Some t →
  after_key t keys = list.drop pageSize pending.
Proof.
  intros Hnd -> Hpos Hlast.
  destruct (list.take pageSize pending) as [|x page] eqn:Hpage using rev_ind; [done|].
  clear IHpage. rewrite last_snoc in Hlast. injection Hlast as ->.
  rewrite <- (take_drop pageSize pending) in Hnd |- * at 1. rewrite Hpage in *.
  rewrite <- !app_assoc. cbn [app].
  rewrite (app_assoc visited page). apply after_key_NoDup.
  rewrite app_assoc in Hnd. apply NoDup_app in Hnd as [Hnd _].
  rewrite app_assoc in Hnd. apply NoDup_app in Hnd as (_ & Hdisj & _).
  intros Hin. apply (Hdisj t Hin). left.
Qed.

(** The pages of a listing, copied one after the other. *)
Lemma copy_pages maxDepth n :
  0 < pageSize →
  ∀ depth token w visited pending,
    S maxDepth - depth = n → depth ≤ maxDepth →
    agree_under src o0 (objects w) →
    keys_under o0 src = visited ++ pending →
    match token with Some t => after_key t (keys_under o0 src) | None => keys_under o0 src end
    = pending →
    length pending ≤ n * pageSize →
    ∃ w', copyS3Folder (Some bucket) s3 src dst token depth maxDepth w = (Normal (), w')
          ∧ objects w' = apply_writes (copies o0 src dst (listed pending)) (objects w).
Proof.
  intros Hpos. induction n as [|n IH];
    intros depth token w visited pending Hn Hdepth Hag Hkeys Htoken Hlen; [lia|].
  rewrite copyS3Folder_step by done.
  unfold try_catch at 1, mbind at 1, M_bind at 1, bind at 1, try_catch at 1, listObjectsV2.
  cbn [list_reply paged_store]. unfold paged_reply.
  rewrite <- (keys_under_agree src o0 (objects w) Hag), Htoken. cbn [Contents IsTruncated
    NextContinuationToken].
  destruct (list.take pageSize pending) as [|k page] eqn:Hpage.
  { (* nothing is pending *)
    cbn. eexists. split; [done|]. cbn.
    destruct pending; [done|]. by destruct pageSize; [lia|]. }
  change (map (λ k, mkObject (Some k)) (k :: page)) with (listed (k :: page)).
  assert (Hsub : k :: page ⊆ keys_under o0 src).
  { intros x Hx. rewrite Hkeys, elem_of_app. right. rewrite <- Hpage in Hx.
    apply elem_of_take in Hx as (i & Hx & _). by eapply list_elem_of_lookup_2. }
  cbn [listed map]. fold (listed page).
  change (mkObject (Some k) :: listed page) with (listed (k :: page)).
  unfold mbind at 1, M_bind at 1, bind at 1.
  match goal with |- context [for_chunks _ _ _ _ _ ?w1] =>
    destruct (for_chunks_copies (chunks_from 0 (listed (k :: page))) w1) as (w2 & -> & Hw2)
  end.
  { apply known_chunks, known_listed, Hsub. }
  { done. }
  rewrite concat_chunks_from, drop_0 in Hw2. cbn [objects request] in Hw2.
  case_bool_decide as Htrunc.
  - (* a further page *)
    destruct (IH (depth + 1) (last (k :: page)) w2
                (visited ++ list.take pageSize pending) (list.drop pageSize pending))
      as (w3 & -> & Hw3).
    + lia.
    + destruct n; [|lia]. lia.
    + rewrite Hw2. apply agree_writes; [|done].
      apply copies_outside, known_listed, Hsub.
    + by rewrite <- app_assoc, take_drop.
    + destruct (last (k :: page)) as [t|] eqn:Hlast; [|by apply last_None in Hlast].
      rewrite <- Hpage in Hlast.
      by apply (next_page _ visited pending t (keys_under_NoDup _ _) Hkeys Hpos).
    + rewrite length_drop. nia.
    + exists w3. split; [done|]. rewrite Hw3, Hw2, <- apply_writes_app.
      f_equal. unfold copies, listed. rewrite <- omap_app, <- fmap_app.
      by rewrite <- Hpage, take_drop.
  - (* the last page *)
    cbn. exists w2. split; [done|]. rewrite Hw2. f_equal.
    rewrite <- Hpage, take_ge; [done|lia].
Qed.

(** More pages than the ceiling allows: the run copies the pages it gets to
    and then fails. *)
Lemma copy_pages_overflow maxDepth n :
  0 < pageSize →
  ∀ depth token w visited pending,
    S maxDepth - depth = n → depth ≤ S maxDepth →
    agree_under src o0 (objects w) →
    keys_under o0 src = visited ++ pending →
    match token with Some t => after_key t (keys_under o0 src) | None => keys_under o0 src end
    = pending →
    n * pageSize < length pending →
    ∃ w', copyS3Folder (Some bucket) s3 src dst token depth maxDepth w
          = (Abrupt (JsError (ceiling_message n)), w')
          ∧ objects w'
            = apply_writes (copies o0 src dst (listed (list.take (n * pageSize) pending)))
                           (objects w).
Proof.
  intros Hpos. induction n as [|n IH];
    intros depth token w visited pending Hn Hdepth Hag Hkeys Htoken Hlen.
  { rewrite copyS3Folder_ceiling by (done || lia). by exists w. }
  rewrite copyS3Folder_step by (done || lia).
  unfold try_catch at 1, mbind at 1, M_bind at 1, bind at 1, try_catch at 1, listObjectsV2.
  cbn [list_reply paged_store]. unfold paged_reply.
  rewrite <- (keys_under_agree src o0 (objects w) Hag), Htoken. cbn [Contents IsTruncated
    NextContinuationToken].
  destruct (list.take pageSize pending) as [|k page] eqn:Hpage.
  { destruct pending; [cbn in Hlen; lia|]. by destruct pageSize; [lia|]. }
  change (map (λ k, mkObject (Some k)) (k :: page)) with (listed (k :: page)).
  assert (Hsub : k :: page ⊆ keys_under o0 src).
  { intros x Hx. rewrite Hkeys, elem_of_app. right. rewrite <- Hpage in Hx.
    apply elem_of_take in Hx as (i & Hx & _). by eapply list_elem_of_lookup_2. }
  cbn [listed map]. fold (listed page).
  change (mkObject (Some k) :: listed page) with (listed (k :: page)).
  unfold mbind at 1, M_bind at 1, bind at 1.
  match goal with |- context [for_chunks _ _ _ _ _ ?w1] =>
    destruct (for_chunks_copies (chunks_from 0 (listed (k :: page))) w1) as (w2 & -> & Hw2)
  end.
  { apply known_chunks, known_listed, Hsub. }
  { done. }
  rewrite concat_chunks_from, drop_0 in Hw2. cbn [objects request] in Hw2.
  rewrite bool_decide_eq_true_2 by nia.
  destruct (IH (depth + 1) (last (k :: page)) w2
              (visited ++ list.take pageSize pending) (list.drop pageSize pending))
    as (w3 & -> & Hw3).
  - lia.
  - lia.
  - rewrite Hw2. apply agree_writes; [|done].
    apply copies_outside, known_listed, Hsub.
  - by rewrite <- app_assoc, take_drop.
  - destruct (last (k :: page)) as [t|] eqn:Hlast; [|by apply last_None in Hlast].
    rewrite <- Hpage in Hlast.
    by apply (next_page _ visited pending t (keys_under_NoDup _ _) Hkeys Hpos).
  - rewrite length_drop. nia.
  - exists (mkWorld (objects w3)
                    (console w3 ++ [Error [Text "Error copying folder:";
                                           Text (ceiling_message n)]])
                    (requests w3)).
    split; [reflexivity|]. cbn [objects]. rewrite Hw3, Hw2, <- apply_writes_app.
    f_equal. unfold copies, listed. rewrite <- omap_app, <- fmap_app. do 2 f_equal.
    rewrite <- Hpage, take_take_drop. f_equal.
Qed.

(** Reading back what the copies wrote. *)
Lemma lookup_copies keys o k :
  dollar_free dst = true → keys ⊆ keys_under o0 src →
  apply_writes (copies o0 src dst (listed keys)) o !! k =
  match last (filter (λ key, dst +:+ drop (String.length src) key = k) keys) with
  | Some key => o0 !! key
  | None => o !! k
  end.
Proof.
  intros Hdollar Hsub. rewrite apply_writes_lookup.
  induction keys as [|key keys IH] using rev_ind; [done|].
  assert (Hkey : key ∈ keys_under o0 src) by (apply Hsub, elem_of_app; right; left).
  apply keys_under_spec in Hkey as [[body Hbody] Hpre].
  pose proof (replace_prefix src dst (drop (String.length src) key) Hdollar) as Hrep.
  rewrite <- (startsWith_parts key src Hpre) in Hrep.
  unfold copies, listed in *. rewrite fmap_app, omap_app, !filter_app. cbn.
  rewrite Hbody, Hrep. case_decide.
  - by rewrite !last_snoc, Hbody.
  - rewrite !app_nil_r. apply IH. intros x Hx. apply Hsub, elem_of_app. by left.
Qed.

End copy.

(** X5. What [POST /project] leaves in the bucket, when the store lists
    the keys under a prefix a page at a time, pages of [pageSize] keys, and
    accepts every copy; [replId] without a dollar sign. A template of at
    most 11 pages is copied whole: the answer is 200, every object
    [base/<language><suffix>] has its body also under [code/<replId><suffix>],
    and no other key is touched. The prefix is matched as a string, so the
    objects of a template whose name extends [language] are copied too, into
    [code/<replId><rest of the name>...]. A template of more than 11 pages
    gets the answer 500 after the run has copied the first 11 pages, and
    these copies stay in the bucket. *)
Theorem project_provisioned (bucket language replId : string) (pageSize : nat) (w : World) :
  truthy bucket = true → truthy language = true → truthy replId = true →
  dollar_free replId = true → 0 < pageSize →
  let src := "base/" +:+ language in
  let dst := "code/" +:+ replId in
  let keys := keys_under (objects w) src in
  let r := projectHandler (Some bucket) (paged_store pageSize) (Some replId) (Some language) w in
  (length keys ≤ 11 * pageSize →
     r.1 = (200, "Project created successfully")
     ∧ (∀ suffix body, objects w !! (src +:+ suffix) = Some body →
                       objects r.2 !! (dst +:+ suffix) = Some body)
     ∧ (∀ k, (∀ suffix, k = dst +:+ suffix → objects w !! (src +:+ suffix) = None) →
             objects r.2 !! k = objects w !! k))
  ∧ (11 * pageSize < length keys →
     r.1 = (500, "Failed to create project. Please check the logs.")
     ∧ (∀ suffix body, src +:+ suffix ∈ list.take (11 * pageSize) keys →
                       objects w !! (src +:+ suffix) = Some body →
                       objects r.2 !! (dst +:+ suffix) = Some body)).
Proof.
  intros Hb Hl Hr Hdollar Hpos src dst keys r.
  assert (Hsrc : truthy src = true) by done.
  assert (Hout : lands_outside src dst) by apply lands_outside_base_code.
  assert (Hdst : dollar_free dst = true) by done.
  assert (Hlook : ∀ ks o suffix body,
            ks ⊆ keys → src +:+ suffix ∈ ks → objects w !! (src +:+ suffix) = Some body →
            apply_writes (copies (objects w) src dst (listed ks)) o !! (dst +:+ suffix)
            = Some body).
  { intros ks o suffix body Hsub Hin Hbody.
    rewrite (lookup_copies src dst (objects w) ks o _ Hdst Hsub).
    destruct (last _) as [key|] eqn:Hlast.
    - apply last_Some_elem_of, list_elem_of_filter in Hlast as [Hkey Hin'].
      apply string_app_inj_l in Hkey.
      apply Hsub, keys_under_spec in Hin' as [_ Hpre].
      by rewrite (startsWith_parts key src Hpre), Hkey.
    - apply last_None in Hlast.
      assert (Hf : src +:+ suffix ∈ filter
                (λ key, dst +:+ drop (String.length src) key = dst +:+ suffix) ks).
      { apply list_elem_of_filter. split; [|done]. by rewrite drop_app. }
      rewrite Hlast in Hf. by apply elem_of_nil in Hf. }
  unfold r, projectHandler, defined. rewrite Hr, Hl. fold src dst. split; intros Hlen.
  - destruct (copy_pages bucket src dst pageSize (objects w) Hb Hsrc Hout 10 11 Hpos
                0 None w [] keys) as (w' & -> & Hw'); [done|lia|by intros ?|done|done|done|].
    cbn [fst snd]. split_and!; [done| |].
    + intros suffix body Hbody. rewrite Hw'. apply Hlook; [done| |done].
      apply keys_under_spec. split; [by eexists|apply startsWith_app].
    + intros k Hk. rewrite Hw'.
      rewrite (lookup_copies src dst (objects w) keys _ _ Hdst) by done.
      destruct (last _) as [key|] eqn:Hlast; [|done].
      apply last_Some_elem_of, list_elem_of_filter in Hlast as [Hkey Hin].
      apply keys_under_spec in Hin as [[body Hbody] Hpre].
      rewrite (startsWith_parts key src Hpre) in Hbody.
      by rewrite (Hk _ (eq_sym Hkey)) in Hbody.
  - destruct (copy_pages_overflow bucket src dst pageSize (objects w) Hb Hsrc Hout 10 11 Hpos
                0 None w [] keys) as (w' & -> & Hw'); [done|lia|by intros ?|done|done|lia|].
    cbn [fst snd]. split; [done|].
    intros suffix body Hin Hbody. cbn [objects]. rewrite Hw'. apply Hlook; [|done|done].
    intros x Hx. apply elem_of_take in Hx as (i & Hx & _). by eapply list_elem_of_lookup_2.
Qed.

Lemma project_provisioned_witness :
  let r := projectHandler (Some "bkt") (paged_store 2) (Some "w1") (Some "node-js")
             two_templates in
  r.1 = (200, "Project created successfully")
  ∧ objects r.2 !! "code/w1/index.js" = Some "console.log(1)"
  ∧ objects r.2 !! "code/w1-legacy/index.js" = Some "old"
  ∧ objects r.2 !! "code/other/main.py" = Some "print(1)".
Proof.
  intros r.
  destruct (project_provisioned "bkt" "node-js" "w1" 2 two_templates)
    as [Hok _]; [reflexivity..|lia|].
  destruct Hok as (Hstatus & Hcopied & Hrest); [vm_compute; lia|].
  split_and!.
  - exact Hstatus.
  - by apply (Hcopied "/index.js").
  - by apply (Hcopied "-legacy/index.js").
  - transitivity (objects two_templates !! "code/other/main.py"); [|reflexivity].
    apply Hrest. intros suffix Hsuffix. discriminate Hsuffix.
Defined.

End TemplateFacts.


(** ** The workspace's own store client *)

Module RestoreFacts.
Import Js JsString Restore.
Import PathFacts ProvisioningFacts ProtocolFacts TemplateFacts.

(** *** [copyS3Folder] without a ceiling *)

Section copy.
Variables (S3_BUCKET : option string) (out : Outside).

Lemma copy_object_settles src dst object w :
  (copy_object S3_BUCKET out src dst object w).1 ≠ Pending.
Proof.
  unfold copy_object. destruct (Aws.Key object) as [key|]; [|done].
  destruct (truthy key); [|done].
  unfold mbind, P_bind, bind, print, copyObject. cbn.
  destruct (copy_fault out key _); [done|]. by destruct (_ !! key).
Qed.

Lemma for_of_settles {A} (xs : list A) (body : A → P unit) w :
  (∀ x w, (body x w).1 ≠ Pending) → (for_of xs body w).1 ≠ Pending.
Proof.
  intros Hbody. revert w. induction xs as [|x xs IH]; intros w; [done|].
  cbn [for_of]. unfold mbind, P_bind, bind.
  specialize (Hbody x w). destruct (body x w) as [[[]|e|] w1]; [apply IH|done|done].
Qed.

Lemma fetch_listings_app rs1 rs2 : listings (rs1 ++ rs2) = listings rs1 + listings rs2.
Proof. unfold listings. by rewrite List.filter_app, length_app. Qed.

Lemma copy_object_listings src dst object w :
  listings (requests (copy_object S3_BUCKET out src dst object w).2) = listings (requests w).
Proof.
  unfold copy_object. destruct (Aws.Key object) as [key|]; [|done].
  destruct (truthy key); [|done].
  unfold mbind, P_bind, bind, print, copyObject. cbn -[listings].
  destruct (copy_fault out key _); [|destruct (_ !! key)]; cbn -[listings];
    rewrite fetch_listings_app; cbn; lia.
Qed.

Lemma for_of_listings src dst xs w :
  listings (requests w)
  = listings (requests (for_of xs (copy_object S3_BUCKET out src dst) w).2).
Proof.
  revert w. induction xs as [|x xs IH]; intros w; [done|].
  cbn [for_of]. unfold mbind, P_bind, bind.
  pose proof (copy_object_listings src dst x w) as Hx.
  destruct (copy_object S3_BUCKET out src dst x w) as [[[]|e|] w1]; cbn -[listings] in *;
    [by rewrite <- IH|done..].
Qed.

Lemma caught_fulfilled r w :
  r ≠ Pending → ∃ w', caught (r, w) = (Fulfilled (), w').
Proof. destruct r as [[]|e|]; [by eexists|by eexists|done]. Qed.

Lemma copyS3Folder_fulfilled fuel src dst token w r w' :
  copyS3Folder S3_BUCKET out fuel src dst token w = Some (r, w') → r = Fulfilled ().
Proof.
  revert token w r w'. induction fuel as [|fuel IH]; intros token w r w'; [done|].
  cbn [copyS3Folder]. unfold listObjectsV2.
  destruct (list_reply out (objects w) src token) as [listed|e]; cbn [of_completion].
  - destruct (Aws.Contents listed) as [[|object contents]|]; [by intros [= <- _]| |by intros [= <- _]].
    pose proof (for_of_settles (object :: contents) (copy_object S3_BUCKET out src dst)
                  (request (ListObjectsV2 (Bucket S3_BUCKET) src token) w)
                  (copy_object_settles src dst)) as Hsettles.
    destruct (for_of _ _ _) as [[[]|e|] w2]; [|by intros [= <- _]|done].
    destruct (Aws.IsTruncated listed); [|by intros [= <- _]].
    destruct (copyS3Folder _ _ _ _ _ _ w2) as [[r3 w3]|] eqn:Hrec; [|done].
    apply IH in Hrec as ->. by intros [= <- _].
  - by intros [= <- _].
Qed.

End copy.

(** X17. The [copyS3Folder] without a ceiling keeps every error to itself.
    Whenever it returns, its promise is fulfilled, never rejected; when the
    store rejects the listing request, it logs the error, leaves the bucket
    as it is, and returns; and when a copy is rejected, it logs the error
    and returns without copying the rest of the page and without asking for
    the next page. Its caller cannot tell a failed run from a complete
    one. *)
Theorem copyS3Folder_swallows_errors (S3_BUCKET : option string) (out : Outside)
    (fuel : nat) (src dst : string) (token : option string) (w : World) :
  (∀ r w', copyS3Folder S3_BUCKET out fuel src dst token w = Some (r, w') →
           r = Fulfilled ())
  ∧ (∀ e, list_reply out (objects w) src token = Abrupt e →
       ∃ w', copyS3Folder S3_BUCKET out (S fuel) src dst token w = Some (Fulfilled (), w')
             ∧ objects w' = objects w
             ∧ console w' = console w ++ [Error "Error copying folder:" e])
  ∧ (∀ listed contents e w2,
       list_reply out (objects w) src token = Normal listed →
       Aws.Contents listed = Some contents →
       for_of contents (copy_object S3_BUCKET out src dst)
         (request (ListObjectsV2 (Bucket S3_BUCKET) src token) w) = (Rejected e, w2) →
       ∃ w', copyS3Folder S3_BUCKET out (S fuel) src dst token w = Some (Fulfilled (), w')
             ∧ objects w' = objects w2
             ∧ console w' = console w2 ++ [Error "Error copying folder:" e]
             ∧ listings (requests w') = listings (requests w) + 1).
Proof.
  split_and!.
  - intros r w'. apply copyS3Folder_fulfilled.
  - intros e He. cbn [copyS3Folder]. unfold listObjectsV2. rewrite He. cbn.
    by eexists.
  - intros listed contents e w2 Hlisted Hcontents Hfor.
    cbn [copyS3Folder]. unfold listObjectsV2. rewrite Hlisted. cbn [of_completion].
    rewrite Hcontents. destruct contents as [|object contents]; [done|].
    pose proof (for_of_listings S3_BUCKET out src dst (object :: contents)
                  (request (ListObjectsV2 (Bucket S3_BUCKET) src token) w)) as Hq.
    rewrite Hfor in Hq. cbn -[listings] in Hq. rewrite fetch_listings_app in Hq.
    rewrite Hfor. cbn -[listings]. eexists. split_and!; [done..|].
    cbn -[listings]. rewrite <- Hq. cbn. lia.
Qed.

(** X18. Nothing bounds the recursion of this [copyS3Folder]: against a
    store whose listing always announces a next page, and whose copies
    succeed, the call has not returned at any nesting depth. *)
Theorem copyS3Folder_unbounded (S3_BUCKET : option string) (key body src dst : string)
    (dirname : string → string) (w : World) (fuel : nat) :
  truthy key = true → objects w !! key = Some body →
  copyS3Folder S3_BUCKET (endless key dirname) fuel src dst None w = None.
Proof.
  intros Hkey. generalize (@None string). revert w.
  induction fuel as [|fuel IH]; intros w token Hbody; [done|].
  cbn [copyS3Folder]. unfold listObjectsV2. cbn [list_reply endless of_completion Aws.Contents].
  cbn [for_of]. unfold mbind at 1, P_bind at 1, bind at 1, copy_object. cbn [Aws.Key].
  rewrite Hkey. unfold mbind, P_bind, bind, print, copyObject. cbn. rewrite Hbody. cbn.
  rewrite IH; [done|]. cbn.
  destruct (decide (replace key src dst = key)) as [->|Hne].
  - by rewrite lookup_insert_eq.
  - by rewrite lookup_insert_ne.
Qed.

Lemma copyS3Folder_unbounded_witness :
  copyS3Folder (Some "bkt") (endless "base/a" (λ p, p)) 1000 "base" "code" None
    (fresh_pod {[ "base/a" := "x" ]}) = None.
Proof.
  apply (copyS3Folder_unbounded (Some "bkt") "base/a" "x" "base" "code" (λ p, p)
           (fresh_pod {[ "base/a" := "x" ]}) 1000); reflexivity.
Defined.

(** *** [fetchS3Folder] *)

Lemma apply_writes_map (f g : string → string) ks (o : gmap string string) p :
  Aws.apply_writes (map (λ k, (f k, g k)) ks) o !! p =
  match last (filter (λ k, f k = p) ks) with
  | Some k => Some (g k)
  | None => o !! p
  end.
Proof.
  rewrite apply_writes_lookup.
  induction ks as [|k ks IH] using rev_ind; [done|].
  rewrite map_app, !filter_app. cbn. case_decide.
  - by rewrite !last_snoc.
  - by rewrite !app_nil_r.
Qed.

Section fetch.
Variables (S3_BUCKET : option string) (pageSize : nat) (dirname : string → string).
Variables (key localPath : string).
Hypothesis Hkey : truthy key = true.

Local Abbreviation out := (ideal pageSize dirname).

Lemma restore_keys ks w :
  ks ⊆ Aws.keys_under (objects w) key →
  ∃ w', for_of (Template.listed ks) (fetch_object S3_BUCKET out key localPath) w
        = (Fulfilled (), w')
        ∧ objects w' = objects w
        ∧ files w' = Aws.apply_writes (restored (objects w) key localPath ks) (files w)
        ∧ listings (requests w') = listings (requests w).
Proof.
  revert w. induction ks as [|k ks IH]; intros w Hsub; [by exists w|].
  assert (Hk : k ∈ Aws.keys_under (objects w) key) by (apply Hsub; left).
  apply keys_under_spec in Hk as [[body Hbody] Hpre].
  cbn [Template.listed map for_of]. fold (Template.listed ks).
  unfold mbind at 1, P_bind at 1, bind at 1, fetch_object at 1. cbn [Aws.Key].
  rewrite (startsWith_truthy k key Hpre Hkey).
  unfold mbind at 1, P_bind at 1, bind at 1, getObject, writeFile, createFolder.
  cbn [get_fault ideal]. rewrite Hbody. cbn -[listings for_of].
  match goal with |- context [for_of _ _ ?w1] => destruct (IH w1) as (w' & -> & Ho & Hf & Hl) end.
  { intros x Hx. apply Hsub. by right. }
  exists w'. split_and!; [done|done| |].
  - rewrite Hf. cbn. by rewrite Hbody.
  - rewrite Hl. cbn -[listings]. rewrite !fetch_listings_app. cbn. lia.
Qed.

Lemma fetch_page w :
  let page := list.take pageSize (Aws.keys_under (objects w) key) in
  ∃ w', fetchS3Folder S3_BUCKET out key localPath w = (Fulfilled (), w')
        ∧ files w' = Aws.apply_writes (restored (objects w) key localPath page) (files w)
        ∧ listings (requests w') = listings (requests w) + 1.
Proof.
  intros page. unfold fetchS3Folder, mbind at 1, P_bind at 1, bind at 1, listObjectsV2.
  cbn [list_reply ideal of_completion Aws.paged_reply Aws.Contents].
  fold page. fold (Template.listed page).
  match goal with |- context [for_of _ _ ?w1] =>
    destruct (restore_keys page w1) as (w' & -> & Ho & Hf & Hl) end.
  { intros x Hx. unfold page in Hx. apply elem_of_take in Hx as (i & Hx & _).
    by eapply list_elem_of_lookup_2. }
  exists w'. split_and!; [done|done|].
  rewrite Hl. cbn -[listings]. rewrite fetch_listings_app. cbn. lia.
Qed.

Lemma lookup_restored o ks (f : gmap string string) p :
  ks ⊆ Aws.keys_under o key →
  Aws.apply_writes (restored o key localPath ks) f !! p =
  match last (filter (λ k, localPath +:+ "/" +:+ drop (String.length key) k = p) ks) with
  | Some k => o !! k
  | None => f !! p
  end.
Proof.
  intros Hsub. unfold restored.
  rewrite (apply_writes_map (λ k, localPath +:+ "/" +:+ replace k key "")
             (λ k, default "" (o !! k))).
  induction ks as [|k ks IH] using rev_ind; [done|].
  assert (Hk : k ∈ Aws.keys_under o key) by (apply Hsub, elem_of_app; right; left).
  apply keys_under_spec in Hk as [[body Hbody] Hpre].
  pose proof (replace_prefix key "" (drop (String.length key) k) eq_refl) as Hrep.
  rewrite <- (startsWith_parts k key Hpre) in Hrep.
  change ("" +:+ drop (String.length key) k) with (drop (String.length key) k) in Hrep.
  rewrite !filter_app. cbn. rewrite Hrep. case_decide.
  - by rewrite !last_snoc, Hbody.
  - rewrite !app_nil_r. apply IH. intros x Hx. apply Hsub, elem_of_app. by left.
Qed.

End fetch.





Lemma for_of_app {A} (xs ys : list A) (body : A → P unit) w :
  for_of (xs ++ ys) body w =
  match for_of xs body w with
  | (Fulfilled _, w1) => for_of ys body w1
  | r => r
  end.
Proof.
  revert w. induction xs as [|x xs IH]; intros w; [done|].
  cbn [app for_of]. unfold mbind, P_bind, bind.
  destruct (body x w) as [[[]|e|] w1]; [apply IH|done|done].
Qed.

(** X21. A directory that cannot be made leaves [fetchS3Folder] pending
    for ever. When the objects listed before have been restored and
    [fs.mkdir] fails for the directory of the next file, the promise is
    neither fulfilled nor rejected: the error reaches nobody, the file and
    every later file stay unwritten, and the caller's [await] never
    returns. *)
Theorem fetchS3Folder_never_settles (S3_BUCKET : option string) (out : Outside)
    (key localPath : string) (w w2 : World) (listed : Aws.ListObjectsV2Output)
    (before after : list Aws.Object) (fileKey body : string) (e : Thrown) :
  list_reply out (objects w) key None = Normal listed →
  Aws.Contents listed = Some (before ++ Aws.mkObject (Some fileKey) :: after) →
  for_of before (fetch_object S3_BUCKET out key localPath)
    (request (ListObjectsV2 (Bucket S3_BUCKET) key None) w) = (Fulfilled (), w2) →
  truthy fileKey = true → get_fault out fileKey = None →
  objects w2 !! fileKey = Some body →
  mkdir_fault out (dirname out (localPath +:+ "/" +:+ replace fileKey key "")) = Some e →
  let r := fetchS3Folder S3_BUCKET out key localPath w in
  r.1 = Pending ∧ files r.2 = files w2.
Proof.
  intros Hlisted Hcontents Hbefore Hkey Hget Hbody Hmkdir. cbv zeta.
  assert (Hrun : fetchS3Folder S3_BUCKET out key localPath w
                 = (Pending,
                    request (Mkdir (dirname out (localPath +:+ "/" +:+ replace fileKey key "")))
                      (request (GetObject (Bucket S3_BUCKET) fileKey) w2))).
  { unfold fetchS3Folder, mbind at 1, P_bind at 1, bind at 1, listObjectsV2.
    rewrite Hlisted. cbn [of_completion]. rewrite Hcontents, for_of_app, Hbefore.
    cbn [for_of]. unfold mbind at 1, P_bind at 1, bind at 1, fetch_object at 1.
    cbn [Aws.Key]. rewrite Hkey. unfold mbind at 1, P_bind at 1, bind at 1, getObject.
    rewrite Hget, Hbody. unfold writeFile, createFolder. cbn [objects request].
    by rewrite Hmkdir. }
  by rewrite Hrun.
Qed.

Lemma fetchS3Folder_never_settles_witness :
  let out := mkOutside (Aws.paged_reply 10) (λ _, None) (λ _ _, None) (λ _, None)
               (λ _, Some (JsError "EACCES: permission denied, mkdir")) (λ _, None)
               (λ p, p) in
  let w := fresh_pod {[ "code/r1/a.txt" := "hello" ]} in
  let r := fetchS3Folder (Some "bkt") out "code/r1" "/workspace" w in
  r.1 = Pending ∧ files r.2 = ∅.
Proof.
  intros out w.
  apply (fetchS3Folder_never_settles (Some "bkt") out "code/r1" "/workspace" w
           (request (ListObjectsV2 "bkt" "code/r1" None) w)
           (Aws.mkListing (Some [Aws.mkObject (Some "code/r1/a.txt")]) false
              (Some "code/r1/a.txt"))
           [] [] "code/r1/a.txt" "hello"
           (JsError "EACCES: permission denied, mkdir")); by vm_compute.
Defined.

End RestoreFacts.


(** ** The disk and the store after a session of edits *)

Module EditsFacts.
Import Js Gateway Edits.
Import PathFacts ProtocolFacts.

Lemma edit_effect replId w e :
  fs_fault w = None →
  let w' := edit replId w e in
  fs_fault w' = None
  ∧ disk w' = <["/workspace/" +:+ filePath e := content e]> (disk w)
  ∧ bucket w' = match store_fault e with
                | None => <[("code/" +:+ replId) +:+ filePath e := content e]> (bucket w)
                | Some _ => bucket w
                end.
Proof.
  intros Hfs. unfold edit, dispatch, updateContent, updateContent_local, mbind, M_bind,
    Js.bind, saveFile, saveToS3, with_store_fault. cbn. rewrite Hfs. cbn.
  by destruct (store_fault e).
Qed.

Lemma session_snoc replId edits e w :
  session replId (edits ++ [e]) w = edit replId (session replId edits w) e.
Proof. unfold session. by rewrite foldl_app. Qed.



End EditsFacts.


(** ** The default workspace name *)

Module LandingFacts.
Import Js JsString Ws Landing.
Import PathFacts ProtocolFacts WsFacts.

Lemma occurrences_app c a b : occurrences c (a +:+ b) = occurrences c a + occurrences c b.
Proof.
  induction a as [|x a IH]; [done|]. rewrite string_app_cons. cbn.
  case_decide; [by rewrite IH|done].
Qed.

Lemma dollar_free_occurrences s : Aws.dollar_free s = true ↔ occurrences "$" s = 0.
Proof.
  induction s as [|c s IH]; [done|]. cbn. case_decide; [done|apply IH].
Qed.

Lemma brand_clean i :
  occurrences "." (brand i) = 0 ∧ occurrences "$" (brand i) = 0
  ∧ occurrences "-" (brand i) = 0 ∧ truthy (brand i) = true.
Proof.
  unfold brand.
  assert (H : Forall (λ b, occurrences "." b = 0 ∧ occurrences "$" b = 0
                           ∧ occurrences "-" b = 0 ∧ truthy b = true)
                     ("undefined" :: CAR_BRANDS))
    by (repeat constructor).
  apply Forall_cons in H as [Hd H]. rewrite Forall_forall in H.
  destruct (nth_in_or_default i CAR_BRANDS "undefined") as [Hin| ->]; [|done].
  by apply H, list_elem_of_In.
Qed.

Lemma getRandomSlug_parts randomIndex :
  getRandomSlug randomIndex
  = brand (randomIndex 0) +:+ "-" +:+ brand (randomIndex 1) +:+ "-" +:+ brand (randomIndex 2).
Proof.
  unfold getRandomSlug. cbn -[brand].
  rewrite !decide_False, decide_True by lia. rewrite !string_app_assoc. reflexivity.
Qed.

(** X22. The workspace name the landing page proposes is three car brands
    joined by two hyphens, whatever the random numbers. It is not empty and
    has no dot and no dollar sign: so the socket server, given the host
    [<slug>.<domain>], serves the connection under exactly that name, and
    the name can be used in a key as it is. Its first hyphen-separated part
    is the first brand drawn. *)
Theorem default_slug_is_served (randomIndex : nat → nat) (socket domain : string)
    (files : list Fs.Dirent) (sv : Server) :
  let slug := getRandomSlug randomIndex in
  slug = brand (randomIndex 0) +:+ "-" +:+ brand (randomIndex 1)
         +:+ "-" +:+ brand (randomIndex 2)
  ∧ truthy slug = true
  ∧ Aws.dollar_free slug = true
  ∧ replId_of (Some (slug +:+ "." +:+ domain)) = Some slug
  ∧ handlers (connection socket (Some (slug +:+ "." +:+ domain)) (Normal files) sv)
    = <[socket := slug]> (handlers sv)
  ∧ head (split "-" slug) = Some (brand (randomIndex 0)).
Proof.
  cbv zeta. rewrite getRandomSlug_parts.
  destruct (brand_clean (randomIndex 0)) as (Hd0 & Hs0 & Hh0 & Ht0).
  destruct (brand_clean (randomIndex 1)) as (Hd1 & Hs1 & Hh1 & Ht1).
  destruct (brand_clean (randomIndex 2)) as (Hd2 & Hs2 & Hh2 & Ht2).
  set (b0 := brand (randomIndex 0)) in *. set (b1 := brand (randomIndex 1)) in *.
  set (b2 := brand (randomIndex 2)) in *.
  assert (Hdot : occurrences "." (b0 +:+ "-" +:+ b1 +:+ "-" +:+ b2) = 0).
  { rewrite !occurrences_app, Hd0, Hd1, Hd2. done. }
  assert (Htruthy : truthy (b0 +:+ "-" +:+ b1 +:+ "-" +:+ b2) = true).
  { by destruct b0. }
  split_and!.
  - done.
  - done.
  - apply dollar_free_occurrences. rewrite !occurrences_app, Hs0, Hs1, Hs2. done.
  - by apply replId_of_subdomain.
  - unfold connection. rewrite (replId_of_subdomain _ _ Hdot).
    by destruct (b0 +:+ "-" +:+ b1 +:+ "-" +:+ b2).
  - change (b0 +:+ "-" +:+ b1 +:+ "-" +:+ b2) with (b0 +:+ String "-" (b1 +:+ "-" +:+ b2)).
    by rewrite split_app_sep, (split_free _ _ Hh0).
Qed.

End LandingFacts.


(** ** Icons and highlighting *)

Module PresentationFacts.
Import JsString Ws Presentation.
Import PathFacts ProtocolFacts WsFacts.

Lemma split_free_parts sep s : Forall (λ x, occurrences sep x = 0) (split sep s).
Proof.
  induction s as [|c s IH]; [by repeat constructor|].
  cbn. destruct (decide (c = sep)) as [->|Hc]; [by constructor|].
  destruct (split sep s) as [|seg segs]; [by repeat constructor; cbn; rewrite decide_False|].
  apply Forall_cons in IH as [Hseg Hsegs]. constructor; [|done].
  cbn. by rewrite decide_False.
Qed.

Lemma pop_extension_spec name :
  occurrences "." (pop_extension name) = 0
  ∧ (name = pop_extension name
     ∨ ∃ stem, name = stem +:+ "." +:+ pop_extension name).
Proof.
  unfold pop_extension. pose proof (split_free_parts "." name) as Hfree.
  pose proof (join_split "." name) as Hjoin.
  destruct (split "." name) as [|x l] eqn:E using rev_ind;
    [by destruct (split_not_nil "." name)|]. clear IHl.
  rewrite last_snoc. cbn. apply Forall_app in Hfree as [_ Hx].
  apply Forall_cons in Hx as [Hx _]. split; [done|].
  destruct l as [|y l]; [left; by rewrite <- Hjoin|]. right.
  exists (join "." (y :: l)). by rewrite <- Hjoin, join_snoc.
Qed.

Lemma pop_extension_suffix stem ext :
  occurrences "." ext = 0 → pop_extension (stem +:+ "." +:+ ext) = ext.
Proof.
  intros Hfree. unfold pop_extension.
  change (stem +:+ "." +:+ ext) with (stem +:+ String "." ext).
  by rewrite split_app_sep, (split_free _ _ Hfree), last_snoc.
Qed.

(** X23. The icon of a row and the language of the editor depend on a
    name only through what follows its last dot, or the whole name when it
    has no dot. A file row gets the icon registered for that text and the
    plain file icon otherwise. A directory row gets a folder icon, open or
    closed, only if no icon is registered for that text: a directory named
    [assets.css], or [json], is shown with the icon of that file type
    whether open or not. The language is one of four names, except when the
    text is a property name that every object inherits, when it is no name
    at all. *)
Theorem presentation_by_extension (name : string) :
  let ext := pop_extension name in
  occurrences "." ext = 0
  ∧ (name = ext ∨ ∃ stem, name = stem +:+ "." +:+ ext)
  ∧ (∀ stem, pop_extension (stem +:+ "." +:+ ext) = ext)
  ∧ file_icon name = default FcFile (cache_get ext)
  ∧ (∀ open, dir_icon name open
             = default (if open then FcOpenedFolder else FcFolder) (cache_get ext))
  ∧ (cache_get ext = None ↔ ext ∉ cache.*1)
  ∧ match language name with
    | Named l =>
        (ext ∉ object_prototype)
        ∧ ((l = "javascript" ∧ (ext = "js" ∨ ext = "jsx"))
           ∨ (l = "typescript" ∧ (ext = "ts" ∨ ext = "tsx"))
           ∨ (l = "python" ∧ ext = "py")
           ∨ (l = "plaintext" ∧ ext ∉ languageMap.*1))
    | Inherited member => member = ext ∧ ext ∈ object_prototype
    end.
Proof.
  cbv zeta. destruct (pop_extension_spec name) as [Hfree Hname].
  split_and!; [done|done|by intros stem; apply pop_extension_suffix| | | |].
  - unfold file_icon, row_icon, FileIcon, getIcon. cbn [default from_option id].
    destruct (cache_get (pop_extension name)); reflexivity.
  - intros open. unfold dir_icon, row_icon, FileIcon, getIcon. cbn [default from_option id].
    destruct (cache_get (pop_extension name)); [done|]. destruct open; reflexivity.
  - unfold cache_get. generalize (pop_extension name). intros ext.
    induction cache as [|[k i] c IH]; cbn.
    + split; [by intros _ ?%elem_of_nil|done].
    + case_bool_decide as Hk; cbn in *.
      * split; [done|]. intros Hnot. destruct Hnot. subst. left.
      * rewrite IH, not_elem_of_cons. split; [by intros ?; split; [congruence|]|by intros []].
  - unfold language. generalize (pop_extension name). intros ext.
    assert (Hown : ∀ k l, (k, l) ∈ languageMap → k ∉ object_prototype).
    { intros k l Hin. unfold languageMap in Hin. rewrite !elem_of_cons, elem_of_nil in Hin.
      destruct Hin as [[= -> _]|[[= -> _]|[[= -> _]|[[= -> _]|[[= -> _]|[]]]]]];
        apply (bool_decide_unpack _); by vm_compute. }
    destruct (List.find _ languageMap) as [[k l]|] eqn:Hfind.
    + apply find_some in Hfind as [Hin%list_elem_of_In Hk%bool_decide_eq_true].
      cbn in Hk. subst k. split; [by eapply Hown|]. cbn [snd].
      unfold languageMap in Hin. rewrite !elem_of_cons, elem_of_nil in Hin.
      destruct Hin as [[= -> ->]|[[= -> ->]|[[= -> ->]|[[= -> ->]|[[= -> ->]|[]]]]]]; auto 8.
    + case_decide as Hproto; [done|]. split; [done|]. do 3 right. split; [done|].
      intros (kv & -> & Hin)%list_elem_of_fmap.
      apply list_elem_of_In in Hin. apply (find_none _ _ Hfind kv) in Hin.
      by apply bool_decide_eq_false in Hin.
Qed.

End PresentationFacts.
